(** * gobal: a shallow embedding of the proxy data path and pool manager

    The development follows the Go sources file by file:
    - [GoStrings], [GoPath]: the functions of Go's [strings] and [path]
      packages that the program calls, over byte strings;
    - [Runtime]: the process state (the two registries, the heap objects,
      sockets, channels, files, the log and the goroutines started) and the
      monad that threads it through the code;
    - [TcpListener] (listener.go), [TcpConnection] (conn.go),
      [HttpConnection] (http.go), [HttpBackend] (http_backend.go),
      [Pool] (pool.go) and [Service] (service.go): the functions of each
      file, in the monad;
    - [Connect]: overlapping calls of [Backend.Connect] (pool.go) as threads
      under a scheduler;
    - [Control]: the calls that drive the process, and the worlds they
      reach;
    - [Props], [Invariants], [Samples]: the vocabulary of the properties, and
      sample worlds;
    - the properties, grouped by the component they speak about.

    Where two Go structs have a field of the same name the records here
    tell them apart: [SName] and [PName] are the [Name] of a service and of
    a pool, [SPool] is the [Pool] of a service, [pgeneration] the
    [generation] of a pool, [hconn] the [conn] of an [HttpConnection], and
    [lalive], [lipport], [lsocket] the fields of a [TcpListener]. [Set_]
    stands for the methods called [Set]. *)

From Stdlib Require Import String Ascii ZArith Lia.
From stdpp Require Import base option list gmap strings.

Local Open Scope string_scope.

(** ** Go's [strings] package *)

Module GoStrings.

(** A Go string is a sequence of bytes; [len] counts bytes. *)
Definition len (s : string) : Z := Z.of_nat (String.length s).

Definition byte (c : ascii) : N := N_of_ascii c.

(** [asciiSpace]: tab, newline, vertical tab, form feed, carriage return,
    space. *)
Definition asciiSpace (c : ascii) : bool :=
  let b := byte c in ((9 <=? b) && (b <=? 13) || (b =? 32))%N.

(** UTF-8 encodings of the other runes for which [unicode.IsSpace] holds:
    U+0085 and U+00A0 (two bytes), U+1680, U+2000 to U+200A, U+2028, U+2029,
    U+202F, U+205F and U+3000 (three bytes). *)
Definition space2 (c1 c2 : ascii) : bool :=
  ((byte c1 =? 194) && ((byte c2 =? 133) || (byte c2 =? 160)))%N.

Definition space3 (c1 c2 c3 : ascii) : bool :=
  let '(b1, b2, b3) := (byte c1, byte c2, byte c3) in
  ((b1 =? 225) && (b2 =? 154) && (b3 =? 128)
   || (b1 =? 226) && (b2 =? 128)
      && ((128 <=? b3) && (b3 <=? 138) || (b3 =? 168) || (b3 =? 169) || (b3 =? 175))
   || (b1 =? 226) && (b2 =? 129) && (b3 =? 159)
   || (b1 =? 227) && (b2 =? 128) && (b3 =? 128))%N.

(** Width in bytes of the white-space rune that starts [s], 0 when [s] does
    not start with one. *)
Definition leadingSpace (s : list ascii) : nat :=
  match s with
  | c1 :: r1 =>
      if asciiSpace c1 then 1
      else match r1 with
           | c2 :: r2 =>
               if space2 c1 c2 then 2
               else match r2 with
                    | c3 :: _ => if space3 c1 c2 c3 then 3 else 0
                    | [] => 0
                    end
           | [] => 0
           end
  | [] => 0
  end.

(** The same for the rune that ends the string, read on the reversed bytes
    (this is what [utf8.DecodeLastRuneInString] finds). *)
Definition trailingSpace (r : list ascii) : nat :=
  match r with
  | c1 :: r1 =>
      if asciiSpace c1 then 1
      else match r1 with
           | c2 :: r2 =>
               if space2 c2 c1 then 2
               else match r2 with
                    | c3 :: _ => if space3 c3 c2 c1 then 3 else 0
                    | [] => 0
                    end
           | [] => 0
           end
  | [] => 0
  end.

Fixpoint trimWith (width : list ascii -> nat) (fuel : nat) (s : list ascii)
  : list ascii :=
  match fuel with
  | O => s
  | S fuel' =>
      match width s with
      | O => s
      | w => trimWith width fuel' (drop w s)
      end
  end.

Definition TrimLeftSpace (s : list ascii) : list ascii :=
  trimWith leadingSpace (length s) s.

Definition TrimRightSpace (s : list ascii) : list ascii :=
  reverse (trimWith trailingSpace (length s) (reverse s)).

(** [strings.TrimSpace]: all leading and trailing white space removed. *)
Definition TrimSpace (s : string) : string :=
  string_of_list_ascii
    (TrimRightSpace (TrimLeftSpace (list_ascii_of_string s))).

(** [strings.HasPrefix s prefix]. *)
Definition HasPrefix (s prefix : string) : bool := String.prefix prefix s.

(** [strings.Index s sep] for a one-byte separator: the index of its first
    occurrence, or -1. *)
Fixpoint IndexByte (s : string) (c : ascii) : Z :=
  match s with
  | EmptyString => -1
  | String d rest =>
      if Ascii.eqb d c then 0
      else let i := IndexByte rest c in
           if (i <? 0)%Z then -1 else (i + 1)%Z
  end.

(** The slice [s[0:n]]. *)
Definition slice_to (s : string) (n : Z) : string :=
  String.substring 0 (Z.to_nat n) s.

(** [strings.Split s sep] for a one-byte separator. *)
Fixpoint SplitByte (s : string) (c : ascii) : list string :=
  match s with
  | EmptyString => [EmptyString]
  | String d rest =>
      if Ascii.eqb d c then EmptyString :: SplitByte rest c
      else match SplitByte rest c with
           | hd :: tl => String d hd :: tl
           | [] => [String d EmptyString]
           end
  end.

End GoStrings.

(** ** Go's [path] package *)

Module GoPath.

Definition slash : ascii := "/"%char.
Definition dot : ascii := "."%char.

Definition is_slash (c : ascii) : bool := Ascii.eqb c slash.
Definition is_dot (c : ascii) : bool := Ascii.eqb c dot.

(** End of a path element: the input is exhausted or a slash follows. *)
Definition at_elem_end (rest : list ascii) : bool :=
  match rest with
  | [] => true
  | c :: _ => is_slash c
  end.

(** The inner loop of the [..] case: [w] walks left while it is above
    [dotdot] and the byte under it is not a slash. *)
Fixpoint backtrack (out : list ascii) (dotdot w : nat) : nat :=
  match w with
  | O => O
  | S w' =>
      if (dotdot <? w)%nat
         && negb (match out !! w with Some c => is_slash c | None => false end)
      then backtrack out dotdot w'
      else w
  end.

(** The bytes of one path element and what follows it. *)
Fixpoint take_elem (rest : list ascii) : list ascii * list ascii :=
  match rest with
  | [] => ([], [])
  | c :: rest' =>
      if is_slash c then ([], rest)
      else let '(e, r) := take_elem rest' in (c :: e, r)
  end.

(** The main loop of [path.Clean]: [rest] is the unread input, [out] the
    buffer written so far ([out.w] is its length), [dotdot] the index where
    [..] must stop. Each round consumes at least one byte, so the length of
    the input bounds the number of rounds. *)
Fixpoint clean_loop (fuel : nat) (rooted : bool) (rest out : list ascii)
    (dotdot : nat) : list ascii :=
  match fuel with
  | O => out
  | S fuel' =>
      match rest with
      | [] => out
      | c :: rest1 =>
          if is_slash c then
            clean_loop fuel' rooted rest1 out dotdot
          else if is_dot c && at_elem_end rest1 then
            clean_loop fuel' rooted rest1 out dotdot
          else if is_dot c
                  && match rest1 with
                     | c' :: rest2 => is_dot c' && at_elem_end rest2
                     | [] => false
                     end
          then
            let rest2 := drop 1 rest1 in
            if (dotdot <? length out)%nat then
              let w := backtrack out dotdot (length out - 1) in
              clean_loop fuel' rooted rest2 (take w out) dotdot
            else if negb rooted then
              let out1 := (if (0 <? length out)%nat then out ++ [slash] else out)%list in
              let out2 := (out1 ++ [dot; dot])%list in
              clean_loop fuel' rooted rest2 out2 (length out2)
            else
              clean_loop fuel' rooted rest2 out dotdot
          else
            let out1 :=
              if rooted && negb (length out =? 1)%nat
                 || negb rooted && negb (length out =? 0)%nat
              then (out ++ [slash])%list else out in
            let '(e, rest') := take_elem rest in
            clean_loop fuel' rooted rest' (out1 ++ e)%list dotdot
      end
  end.

(** [path.Clean]. *)
Definition Clean (path : string) : string :=
  match list_ascii_of_string path with
  | [] => "."
  | (c :: _) as p =>
      let rooted := is_slash c in
      let out :=
        if rooted then clean_loop (length p) true (drop 1 p) [slash] 1
        else clean_loop (length p) false p [] 0 in
      match out with
      | [] => "."
      | _ => string_of_list_ascii out
      end
  end.

(** The loop of [path.Join] that glues the non-empty elements with
    slashes. *)
Fixpoint join_buf (buf : string) (elem : list string) : string :=
  match elem with
  | [] => buf
  | e :: rest =>
      let nonempty := (0 <? String.length buf)%nat in
      if nonempty || negb (String.eqb e "") then
        join_buf ((if nonempty then buf ++ "/" else buf) ++ e) rest
      else join_buf buf rest
  end.

(** [path.Join]. *)
Definition Join (elem : list string) : string :=
  let size := foldr (fun e n => (String.length e + n)%nat) O elem in
  if (size =? 0)%nat then "" else Clean (join_buf "" elem).

End GoPath.

(** ** The process state and the monad that threads it *)

Module Runtime.

(** Go's [int] on a 64-bit platform, as an integer with its wrap-around. *)
Definition int_wrap (z : Z) : Z := ((z + 2 ^ 63) mod 2 ^ 64 - 2 ^ 63)%Z.
Definition int_add (a b : Z) : Z := int_wrap (a + b).

(** An [error] value: [None] is [nil], [Some msg] carries [err.Error()]. *)
Definition error : Type := option string.
Definition errors_New (msg : string) : error := Some msg.

(** A pointer into one of the heaps below; [None] is the nil pointer. *)
Definition ptr : Type := option nat.

(** *** Plain data *)

(** The part of [http.Request] the program reads. *)
Record Request := { RequestURI : string }.

(** The fields of [http.Response] the program fills in. *)
Record Response := {
  RespRequest : Request;
  Status : string;
  StatusCode : Z;
  ContentLength : Z;
  Body : string
}.

(** service.go: [ServiceRequest]. [client] points to the [HttpConnection],
    [rchan] names the response channel. *)
Record ServiceRequest := {
  client : nat;
  request : Request;
  rchan : nat
}.

(** service.go: [ServiceRole], with the three values the program defines
    and assigns. *)
Inductive ServiceRole := ROLE_WEBSERVER | ROLE_PROXY | ROLE_MANAGE.

(** listener.go: [AcceptorFunc]. The only acceptor the program builds is the
    method value [s.Accept] of a service. *)
Inductive AcceptorFunc := AcceptOf (service : string).

(** A channel made by [make(chan T, cap)]: its capacity and the values in
    its buffer, oldest first. A nil channel is [None] where a channel is
    held. *)
Record Chan (T : Type) := { chan_cap : nat; chan_buf : list T }.
Arguments chan_cap {T} _.
Arguments chan_buf {T} _.

(** service.go: [ServiceListener]. *)
Record ServiceListener := {
  Listener : ptr;
  Acceptor : AcceptorFunc
}.

(** service.go: [Service]. The values of [Listeners] are pointers, [Pool]
    points into the pool registry by name. *)
Record Service := {
  SName : string;
  Enabled : bool;
  Role : ServiceRole;
  Listeners : gmap string (option ServiceListener);
  DocRoot : string;
  SPool : option string;
  requestQueue : option (Chan ServiceRequest)
}.

(** http_backend.go: [HttpBackendConnection]. *)
Record HttpBackendConnection := {
  BConn : ptr;
  BClient : ptr
}.

(** pool.go: [Backend] ([connectMutex] lives in the scheduler model of
    [Pool.Connect] below). *)
Record Backend := {
  Ipport : string;
  connecting : option HttpBackendConnection;
  outstanding : Z;
  generation : Z
}.

(** pool.go: [Pool]. [nodeFileLock] is true while the mutex is held. *)
Record Pool := {
  PName : string;
  backends : list Backend;
  backendQueue : option (Chan HttpBackendConnection);
  nodeFile : string;
  nodeFileLock : bool;
  pgeneration : Z
}.

(** conn.go: [TcpConnection]. [Conn] names the socket, [BWriter] holds the
    bytes written and not yet flushed. *)
Record TcpConnection := {
  Conn : nat;
  BWriter : string;
  alive : bool
}.

(** http.go: [HttpConnection]. *)
Record HttpConnection := {
  hconn : nat;
  HBWriter : string;
  HService : string
}.

(** listener.go: [TcpListener]. *)
Record TcpListener := {
  lalive : bool;
  lipport : string;
  lsocket : ptr
}.

(** *** The environment *)

(** A socket of the operating system, as the program can observe it: how
    often [Close] was called on it, the bytes delivered to it, and whether a
    write to it fails. *)
Record Socket := {
  sock_addr : string;
  sock_closes : nat;
  sock_delivered : string;
  sock_write_error : error
}.

Inductive ioerr := io_nil | io_EOF | io_other (msg : string).

(** A file as [os.Stat], [os.Open] and the buffered reader see it. *)
Record File := {
  file_is_dir : bool;
  file_mtime : Z;
  file_open_error : error;
  file_read_error : error;
  file_content : string
}.

(** *** Effects recorded in the trace *)

Inductive LogLevel := Debug | Info | Warn | Error | Fatal.

(** The goroutines the program starts with [go]. *)
Inductive Task :=
| requestPump_of (service : string)
| serveFile_of (service : string) (req : ServiceRequest)
| updateNodeFileWorker_of (pool : string)
| acceptLoop_of (listener : nat) (acceptor : AcceptorFunc)
| connect_body_of (backend : string).

Inductive Event :=
| EvLog (lvl : LogLevel) (msg : string)
| EvGo (t : Task)
| EvSleep (seconds : Z)
| EvDial (ipport : string).

(** *** The world

    The registries [services] and [pools] are the package variables of the
    same names; a pointer to a service or a pool is its name, under which
    it stays registered for good. The other heaps are keyed by address.
    [rchans] holds the response channels, made with capacity 1 by the HTTP
    pump; an address with no channel behind it stands for the nil channel.
    [files], [listen_error] and [dial_error] are the environment: the file
    system, and what binding or dialling an address fails with. [trace]
    records, oldest first, the calls to the logger, the goroutines started,
    the sleeps and the dials. *)

Record World := {
  services : gmap string Service;
  pools : gmap string Pool;
  tcp_conns : gmap nat TcpConnection;
  listeners : gmap nat TcpListener;
  sockets : gmap nat Socket;
  rchans : gmap nat (Chan Response);
  files : gmap string File;
  listen_error : string -> error;
  dial_error : string -> error;
  trace : list Event
}.

Definition set_services (f : gmap string Service -> gmap string Service)
    (w : World) : World :=
  {| services := f (services w); pools := pools w; tcp_conns := tcp_conns w;
     listeners := listeners w; sockets := sockets w; rchans := rchans w;
     files := files w; listen_error := listen_error w;
     dial_error := dial_error w; trace := trace w |}.

Definition set_pools (f : gmap string Pool -> gmap string Pool)
    (w : World) : World :=
  {| services := services w; pools := f (pools w); tcp_conns := tcp_conns w;
     listeners := listeners w; sockets := sockets w; rchans := rchans w;
     files := files w; listen_error := listen_error w;
     dial_error := dial_error w; trace := trace w |}.

Definition set_tcp_conns
    (f : gmap nat TcpConnection -> gmap nat TcpConnection) (w : World) : World :=
  {| services := services w; pools := pools w; tcp_conns := f (tcp_conns w);
     listeners := listeners w; sockets := sockets w; rchans := rchans w;
     files := files w; listen_error := listen_error w;
     dial_error := dial_error w; trace := trace w |}.

Definition set_listeners
    (f : gmap nat TcpListener -> gmap nat TcpListener) (w : World) : World :=
  {| services := services w; pools := pools w; tcp_conns := tcp_conns w;
     listeners := f (listeners w); sockets := sockets w; rchans := rchans w;
     files := files w; listen_error := listen_error w;
     dial_error := dial_error w; trace := trace w |}.

Definition set_sockets (f : gmap nat Socket -> gmap nat Socket)
    (w : World) : World :=
  {| services := services w; pools := pools w; tcp_conns := tcp_conns w;
     listeners := listeners w; sockets := f (sockets w); rchans := rchans w;
     files := files w; listen_error := listen_error w;
     dial_error := dial_error w; trace := trace w |}.

Definition set_rchans
    (f : gmap nat (Chan Response) -> gmap nat (Chan Response)) (w : World)
    : World :=
  {| services := services w; pools := pools w; tcp_conns := tcp_conns w;
     listeners := listeners w; sockets := sockets w; rchans := f (rchans w);
     files := files w; listen_error := listen_error w;
     dial_error := dial_error w; trace := trace w |}.

(** The environment may replace files while the process runs. *)
Definition set_files (f : gmap string File -> gmap string File) (w : World)
  : World :=
  {| services := services w; pools := pools w; tcp_conns := tcp_conns w;
     listeners := listeners w; sockets := sockets w; rchans := rchans w;
     files := f (files w); listen_error := listen_error w;
     dial_error := dial_error w; trace := trace w |}.

Definition set_trace (f : list Event -> list Event) (w : World) : World :=
  {| services := services w; pools := pools w; tcp_conns := tcp_conns w;
     listeners := listeners w; sockets := sockets w; rchans := rchans w;
     files := files w; listen_error := listen_error w;
     dial_error := dial_error w; trace := f (trace w) |}.

(** The world of a process that has not run anything yet, in a given
    environment. *)
Definition boot (fs : gmap string File) (le de : string -> error) : World :=
  {| services := ∅; pools := ∅; tcp_conns := ∅; listeners := ∅;
     sockets := ∅; rchans := ∅; files := fs; listen_error := le;
     dial_error := de; trace := [] |}.

(** *** Outcomes and the monad *)

(** How a call ends: it returns, it panics, the process exits
    ([log.Fatal]), the goroutine blocks forever (an operation on a nil
    channel), or it must wait for another goroutine (a full or an empty
    channel). *)
Inductive Res (A : Type) :=
| Returns (a : A) (w : World)
| Panics (msg : string) (w : World)
| Exits (w : World)
| BlocksForever (w : World)
| Waits (w : World).
Arguments Returns {A} _ _.
Arguments Panics {A} _ _.
Arguments Exits {A} _.
Arguments BlocksForever {A} _.
Arguments Waits {A} _.

Definition M (A : Type) : Type := World -> Res A.

#[export] Instance M_ret : MRet M := fun A a w => Returns a w.

#[export] Instance M_bind : MBind M := fun A B k m w =>
  match m w with
  | Returns a w' => k a w'
  | Panics msg w' => Panics msg w'
  | Exits w' => Exits w'
  | BlocksForever w' => BlocksForever w'
  | Waits w' => Waits w'
  end.

Definition get : M World := fun w => Returns w w.
Definition modify (f : World -> World) : M unit := fun w => Returns tt (f w).
Definition panic {A} (msg : string) : M A := fun w => Panics msg w.
Definition exit {A} : M A := fun w => Exits w.
Definition wait {A} : M A := fun w => Waits w.
Definition block_forever {A} : M A := fun w => BlocksForever w.

Definition nil_dereference : string :=
  "invalid memory address or nil pointer dereference".

Definition emit (e : Event) : M unit :=
  modify (set_trace (fun t => (t ++ [e])%list)).

(** The logger (an external package): every call is recorded; after a
    [Fatal] line control does not come back to the caller. *)
Definition log (lvl : LogLevel) (msg : string) : M unit :=
  emit (EvLog lvl msg) ;;
  match lvl with
  | Fatal => exit
  | _ => mret tt
  end.

(** [go f()]: the new goroutine is recorded, the caller goes on. *)
Definition go (t : Task) : M unit := emit (EvGo t).

(** A fresh address in a heap. *)
Definition fresh {V} (m : gmap nat V) : nat :=
  S (foldr Nat.max O (elements (dom m))).

(** *** Channels

    Every channel the program makes is buffered, so a send proceeds when the
    buffer has room and a receive when it holds a value. An operation on a
    nil channel never proceeds. *)
Inductive ChanRes (A : Type) :=
| Proceeds (a : A)
| MustWait
| Never.
Arguments Proceeds {A} _.
Arguments MustWait {A}.
Arguments Never {A}.

(** [ch <- v]. *)
Definition chan_send {T} (ch : option (Chan T)) (v : T) : ChanRes (Chan T) :=
  match ch with
  | None => Never
  | Some c =>
      if (length (chan_buf c) <? chan_cap c)%nat
      then Proceeds {| chan_cap := chan_cap c;
                       chan_buf := (chan_buf c ++ [v])%list |}
      else MustWait
  end.

(** [<-ch]. *)
Definition chan_recv {T} (ch : option (Chan T)) : ChanRes (T * Chan T) :=
  match ch with
  | None => Never
  | Some c =>
      match chan_buf c with
      | v :: rest => Proceeds (v, {| chan_cap := chan_cap c; chan_buf := rest |})
      | [] => MustWait
      end
  end.

Definition chan_op {A} (r : ChanRes A) : M A :=
  match r with
  | Proceeds a => mret a
  | MustWait => wait
  | Never => block_forever
  end.

(** *** Sockets *)

Definition closed_socket_error : string := "use of closed network connection".

Definition new_socket (addr : string) : M nat :=
  w ← get;
  let id := fresh (sockets w) in
  modify (set_sockets <[id := {| sock_addr := addr; sock_closes := 0;
                                 sock_delivered := "";
                                 sock_write_error := None |}]>) ;;
  mret id.

(** [Close] on a socket: the call is counted; only the first one succeeds. *)
Definition socket_Close (id : nat) : M error :=
  w ← get;
  match sockets w !! id with
  | None => panic nil_dereference
  | Some s =>
      modify (set_sockets <[id := {| sock_addr := sock_addr s;
                                     sock_closes := S (sock_closes s);
                                     sock_delivered := sock_delivered s;
                                     sock_write_error := sock_write_error s |}]>) ;;
      mret (match sock_closes s with
            | O => None
            | S _ => Some closed_socket_error
            end)
  end.

(** What a write to the socket fails with, if it fails: the socket is
    closed, or the environment refuses the write. *)
Definition write_failure (s : Socket) : error :=
  match sock_closes s with
  | S _ => Some closed_socket_error
  | O => sock_write_error s
  end.

(** [Write] on a socket. *)
Definition socket_Write (id : nat) (data : string) : M error :=
  w ← get;
  match sockets w !! id with
  | None => panic nil_dereference
  | Some s =>
      match write_failure s with
      | Some e => mret (Some e)
      | None =>
          modify (set_sockets <[id := {| sock_addr := sock_addr s;
                                         sock_closes := sock_closes s;
                                         sock_delivered := sock_delivered s ++ data;
                                         sock_write_error := sock_write_error s |}]>) ;;
          mret None
      end
  end.

End Runtime.

(** ** listener.go *)

Module TcpListener.
Import Runtime.

(** [ListenTcp]: resolving and binding are the environment's; on success
    the listener is allocated and its accept loop started. *)
Definition ListenTcp (ipport : string) (acceptor : AcceptorFunc)
  : M (ptr * error) :=
  w ← get;
  match listen_error w ipport with
  | Some e => mret (None, Some e)
  | None =>
      socket ← new_socket ipport;
      log Debug ("listening on tcp4 " ++ ipport ++ "...") ;;
      w ← get;
      let l := fresh (listeners w) in
      modify (set_listeners <[l := {| lalive := true; lipport := ipport;
                                      lsocket := Some socket |}]>) ;;
      go (acceptLoop_of l acceptor) ;;
      mret (Some l, None)
  end.

(** [Close] of a [TcpListener] pointer: the receiver is dereferenced by
    [l.socket], the first thing the body evaluates. *)
Definition Close (l : ptr) : M error :=
  match l with
  | None => panic nil_dereference
  | Some a =>
      w ← get;
      match listeners w !! a with
      | None => panic nil_dereference
      | Some lst =>
          match lsocket lst ≫= (fun sock => pair sock <$> sockets w !! sock) with
          | None => panic nil_dereference
          | Some (sock, s) =>
              log Debug ("Close(" ++ sock_addr s ++ "): closing") ;;
              modify (set_listeners
                        <[a := {| lalive := false; lipport := lipport lst;
                                  lsocket := lsocket lst |}]>) ;;
              socket_Close sock ;;
              mret None
          end
      end
  end.

End TcpListener.

(** ** conn.go *)

Module TcpConnection.
Import Runtime.

(** [WrapTcpConnection]. *)
Definition WrapTcpConnection (conn : nat) : M (ptr * error) :=
  w ← get;
  let c := fresh (tcp_conns w) in
  modify (set_tcp_conns <[c := {| Conn := conn; BWriter := ""; alive := true |}]>) ;;
  mret (Some c, None).

(** [MakeTcpConnection]: the one place where the program dials out. *)
Definition MakeTcpConnection (ipport : string) : M (ptr * error) :=
  emit (EvDial ipport) ;;
  w ← get;
  match dial_error w ipport with
  | Some e => mret (None, Some e)
  | None => conn ← new_socket ipport; WrapTcpConnection conn
  end.

(** [c.BWriter.Flush()] on connection [a], whose fields are [c]: nothing to
    do on an empty buffer; otherwise the buffered bytes go to the socket, and
    stay buffered when that fails. *)
Definition Flush (a : nat) (c : TcpConnection) : M error :=
  if String.eqb (BWriter c) "" then mret None
  else
    err ← socket_Write (Conn c) (BWriter c);
    match err with
    | Some e => mret (Some e)
    | None =>
        modify (set_tcp_conns
                  <[a := {| Conn := Conn c; BWriter := ""; alive := alive c |}]>) ;;
        mret None
    end.

(** [Close] of a [TcpConnection] pointer. *)
Definition Close (c : ptr) : M error :=
  match c with
  | None => panic nil_dereference
  | Some a =>
      w ← get;
      match tcp_conns w !! a with
      | None => panic nil_dereference
      | Some conn =>
          if negb (alive conn) then
            mret (errors_New "TcpConnection already closed")
          else
            let dead := {| Conn := Conn conn; BWriter := BWriter conn;
                           alive := false |} in
            modify (set_tcp_conns <[a := dead]>) ;;
            err ← Flush a dead;
            match err with
            | Some e => log Error ("failed flush: " ++ e)
            | None => mret tt
            end ;;
            log Debug "TcpConnection: closing" ;;
            socket_Close (Conn conn)
      end
  end.

End TcpConnection.

(** ** http.go *)

Module HttpConnection.
Import Runtime.

Definition StatusForCode (status : Z) : string :=
  if (status =? 200)%Z then "OK"
  else if (status =? 500)%Z then "Internal Server Error"
  else "Unknown".

(** [CleanPath]: the joined and cleaned path, unless the trimmed root is no
    longer a prefix of it. *)
Definition CleanPath (root uri : string) : M (string * error) :=
  let root := GoStrings.TrimSpace root in
  (if String.eqb root "" then log Fatal "docroot MUST be set" else mret tt) ;;
  let npath := GoPath.Join [root; GoStrings.TrimSpace uri] in
  if negb (GoStrings.HasPrefix npath root)
  then mret ("", errors_New "URI escaped from root")
  else mret (npath, None).

Definition HttpSimpleResponse (req : Request) (status : Z) (body : string)
  : Response :=
  {| RespRequest := req;
     Status := StatusForCode status;
     StatusCode := status;
     ContentLength := GoStrings.len body;
     Body := body |}.

Definition HttpErrorResponse (req : Request) (err : string) : Response :=
  HttpSimpleResponse req 500 ("Failure: " ++ err).

(** [Close] of an [HttpConnection]: a hard close, the call goes straight to
    the socket. *)
Definition Close (h : HttpConnection) : M error :=
  socket_Close (hconn h).

End HttpConnection.

(** ** http_backend.go *)

Module HttpBackend.
Import Runtime.

(** [MakeHttpBackend]: dials the backend; the connection object it builds is
    dropped. *)
Definition MakeHttpBackend (be : Backend) : M error :=
  r ← TcpConnection.MakeTcpConnection (Ipport be);
  match r.2 with
  | Some e => mret (Some e)
  | None =>
      let hconn := {| BConn := r.1; BClient := None |} in
      mret None
  end.

End HttpBackend.

(** ** pool.go *)

Module Pool.
Import Runtime.

(** A method called on a pool pointer reads the pool behind it. *)
Definition deref (p : string) : M Pool :=
  w ← get;
  match pools w !! p with
  | Some pl => mret pl
  | None => panic nil_dereference
  end.

Definition store (p : string) (pl : Pool) : M unit :=
  modify (set_pools <[p := pl]>).

(** [NewPool]. *)
Definition NewPool (name : string) : M (option string * error) :=
  w ← get;
  match pools w !! name with
  | Some _ =>
      mret (None, errors_New ("pool '" ++ name ++ "' already exists"))
  | None =>
      store name {| PName := name;
                    backends := [];
                    backendQueue := Some {| chan_cap := 1000; chan_buf := [] |};
                    nodeFile := "";
                    nodeFileLock := false;
                    pgeneration := 0 |} ;;
      go (updateNodeFileWorker_of name) ;;
      mret (Some name, None)
  end.

(** *** The node file *)

Definition newline : ascii := ascii_of_nat 10.

(** What successive calls of [buf.ReadString] on the file's bytes return:
    each line with its newline, and the rest, possibly empty, with
    [io.EOF]. *)
Fixpoint ReadString_all (s : string) : list (string * ioerr) :=
  match s with
  | EmptyString => [(EmptyString, io_EOF)]
  | String c rest =>
      if Ascii.eqb c newline
      then (String c EmptyString, io_nil) :: ReadString_all rest
      else match ReadString_all rest with
           | (l, e) :: tl => (String c l, e) :: tl
           | [] => [(String c EmptyString, io_EOF)]
           end
  end.

Definition reads_of (f : File) : list (string * ioerr) :=
  match file_read_error f with
  | Some e => [(EmptyString, io_other e)]
  | None => ReadString_all (file_content f)
  end.

(** Lines 151 to 158: what is left of a line read from the file, [None]
    when the line is skipped. *)
Definition parse_line (raw : string) : option string :=
  let line := GoStrings.TrimSpace raw in
  let idx := GoStrings.IndexByte line "#" in
  let line := if (idx >? -1)%Z then GoStrings.slice_to line idx else line in
  if (GoStrings.len line <? 7)%Z then None else Some line.

(** Lines 161 to 166: the first backend with this address gets the new
    generation; [None] when there is none. *)
Fixpoint refresh (newgen : Z) (line : string) (bs : list Backend)
  : option (list Backend) :=
  match bs with
  | [] => None
  | b :: rest =>
      if String.eqb (Ipport b) line
      then Some ({| Ipport := Ipport b; connecting := connecting b;
                    outstanding := outstanding b; generation := newgen |}
                 :: rest)
      else cons b <$> refresh newgen line rest
  end.

Definition with_backends (pl : Pool) (bs : list Backend) : Pool :=
  {| PName := PName pl; backends := bs; backendQueue := backendQueue pl;
     nodeFile := nodeFile pl; nodeFileLock := nodeFileLock pl;
     pgeneration := pgeneration pl |}.

(** The body of the [LINE] loop after the read. *)
Definition reconcile_line (newgen : Z) (raw : string) (pl : Pool) : Pool :=
  match parse_line raw with
  | None => pl
  | Some line =>
      match refresh newgen line (backends pl) with
      | Some bs => with_backends pl bs
      | None =>
          with_backends pl
            (backends pl ++ [{| Ipport := line; connecting := None;
                                outstanding := 0; generation := newgen |}])%list
      end
  end.

(** The [LINE] loop over the results of the reads. *)
Fixpoint LINE (p : string) (newgen : Z) (reads : list (string * ioerr))
  : M unit :=
  match reads with
  | [] => mret tt
  | (line, err) :: rest =>
      match err with
      | io_other e => log Error ("failed to read from nodefile: " ++ e)
      | io_EOF =>
          pl ← deref p; store p (reconcile_line newgen line pl)
      | io_nil =>
          pl ← deref p; store p (reconcile_line newgen line pl) ;;
          LINE p newgen rest
      end
  end.

(** How one round of the worker's outer loop ends. *)
Inductive Round := StatFailed | Unchanged | OpenFailed | Reloaded.

(** One round of the outer loop of [updateNodeFileWorker], from [os.Stat]
    to the [continue] or the sleep. [mtime] is the loop's local variable
    (nanoseconds since the epoch); its new value is returned. *)
Definition worker_round (p : string) (mtime : Z) : M (Z * Round) :=
  pl ← deref p;
  w ← get;
  match files w !! nodeFile pl with
  | None =>
      log Error ("failed to stat nodefile: stat " ++ nodeFile pl
                 ++ ": no such file or directory") ;;
      mret (mtime, StatFailed)
  | Some f =>
      let newmtime := file_mtime f in
      if negb (mtime <? newmtime)%Z then mret (mtime, Unchanged)
      else
        let newgen := int_add (pgeneration pl) 1 in
        log Debug ("nodefile changed: " ++ nodeFile pl) ;;
        match file_open_error f with
        | Some e =>
            log Error ("failed to open nodefile: " ++ e) ;;
            mret (newmtime, OpenFailed)
        | None =>
            LINE p newgen (reads_of f) ;;
            emit (EvSleep 10) ;;
            mret (newmtime, Reloaded)
        end
  end.

(** The worker takes [nodeFileLock] before its loop and keeps it. *)
Definition worker_start (p : string) : M Z :=
  pl ← deref p;
  if nodeFileLock pl then wait
  else
    store p {| PName := PName pl; backends := backends pl;
               backendQueue := backendQueue pl; nodeFile := nodeFile pl;
               nodeFileLock := true; pgeneration := pgeneration pl |} ;;
    mret 0%Z.

(** [updateNodeFile]. *)
Definition updateNodeFile (p : string) (nodefile : string) : M error :=
  let nodefile := GoPath.Clean (GoStrings.TrimSpace nodefile) in
  w ← get;
  match files w !! nodefile with
  | None => mret (Some ("stat " ++ nodefile ++ ": no such file or directory"))
  | Some f =>
      if file_is_dir f
      then mret (errors_New ("nodefile: " ++ nodefile ++ " is a directory"))
      else
        pl ← deref p;
        if nodeFileLock pl then wait
        else
          store p {| PName := PName pl; backends := backends pl;
                     backendQueue := backendQueue pl; nodeFile := nodefile;
                     nodeFileLock := false; pgeneration := pgeneration pl |} ;;
          mret None
  end.

(** [GetBackend]. The body does not touch its receiver. *)
Definition GetBackend (p : option string) : M (option HttpBackendConnection) :=
  mret None.

(** [Set] on a pool. *)
Definition Set_ (p : string) (key value : string) : M error :=
  if String.eqb key "nodefile" then updateNodeFile p value
  else
    pl ← deref p;
    log Error ("unknown SET " ++ PName pl ++ "." ++ key ++ " = " ++ value) ;;
    mret None.

(** [Enable] on a pool. *)
Definition Enable (p : string) : M error := mret None.

End Pool.

(** ** service.go *)

Module Service.
Import Runtime.

Definition deref (s : string) : M Service :=
  w ← get;
  match services w !! s with
  | Some sv => mret sv
  | None => panic nil_dereference
  end.

Definition store (s : string) (sv : Service) : M unit :=
  modify (set_services <[s := sv]>).

Definition with_Enabled (sv : Service) (b : bool) : Service :=
  {| SName := SName sv; Enabled := b; Role := Role sv;
     Listeners := Listeners sv; DocRoot := DocRoot sv; SPool := SPool sv;
     requestQueue := requestQueue sv |}.

Definition with_Role (sv : Service) (r : ServiceRole) : Service :=
  {| SName := SName sv; Enabled := Enabled sv; Role := r;
     Listeners := Listeners sv; DocRoot := DocRoot sv; SPool := SPool sv;
     requestQueue := requestQueue sv |}.

Definition with_Listeners (sv : Service)
    (ls : gmap string (option ServiceListener)) : Service :=
  {| SName := SName sv; Enabled := Enabled sv; Role := Role sv;
     Listeners := ls; DocRoot := DocRoot sv; SPool := SPool sv;
     requestQueue := requestQueue sv |}.

Definition with_DocRoot (sv : Service) (d : string) : Service :=
  {| SName := SName sv; Enabled := Enabled sv; Role := Role sv;
     Listeners := Listeners sv; DocRoot := d; SPool := SPool sv;
     requestQueue := requestQueue sv |}.

Definition with_Pool (sv : Service) (p : option string) : Service :=
  {| SName := SName sv; Enabled := Enabled sv; Role := Role sv;
     Listeners := Listeners sv; DocRoot := DocRoot sv; SPool := p;
     requestQueue := requestQueue sv |}.

Definition with_requestQueue (sv : Service)
    (q : option (Chan ServiceRequest)) : Service :=
  {| SName := SName sv; Enabled := Enabled sv; Role := Role sv;
     Listeners := Listeners sv; DocRoot := DocRoot sv; SPool := SPool sv;
     requestQueue := q |}.

(** [NewService]. The literal leaves [requestQueue] at its zero value, the
    nil channel. *)
Definition NewService (name : string) : M (option string * error) :=
  w ← get;
  match services w !! name with
  | Some _ =>
      mret (None, errors_New ("service '" ++ name ++ "' already exists"))
  | None =>
      store name {| SName := name;
                    Enabled := false;
                    Role := ROLE_WEBSERVER;
                    Listeners := ∅;
                    DocRoot := "";
                    SPool := None;
                    requestQueue := None |} ;;
      go (requestPump_of name) ;;
      mret (Some name, None)
  end.

(** [req.rchan <- resp]. *)
Definition respond (req : ServiceRequest) (resp : Response) : M unit :=
  w ← get;
  ch ← chan_op (chan_send (rchans w !! rchan req) resp);
  modify (set_rchans <[rchan req := ch]>).

Definition no_such_file (op path : string) : string :=
  op ++ " " ++ path ++ ": no such file or directory".

(** [serveFile]. *)
Definition serveFile (s : string) (req : ServiceRequest) : M unit :=
  sv ← deref s;
  r ← HttpConnection.CleanPath (DocRoot sv) (RequestURI (request req));
  match r.2 with
  | Some err => respond req (HttpConnection.HttpErrorResponse (request req) err)
  | None =>
      w ← get;
      match files w !! r.1 with
      | None =>
          respond req (HttpConnection.HttpErrorResponse (request req)
                         (no_such_file "stat" r.1))
      | Some fi =>
          let filepath :=
            if file_is_dir fi then GoPath.Join [r.1; "index.html"] else r.1 in
          match files w !! filepath with
          | None =>
              respond req (HttpConnection.HttpErrorResponse (request req)
                             (no_such_file "open" filepath))
          | Some f =>
              match file_open_error f, file_read_error f with
              | Some err, _ | None, Some err =>
                  respond req (HttpConnection.HttpErrorResponse (request req) err)
              | None, None =>
                  respond req (HttpConnection.HttpSimpleResponse (request req)
                                 200 (file_content f))
              end
          end
      end
  end.

(** How one round of the loop of [requestPump] ends: with [return], or at
    the end of the loop body. *)
Inductive Pump := PumpReturned | PumpNextRound.

(** One round of the loop of [requestPump]. *)
Definition requestPump_round (s : string) : M Pump :=
  sv ← deref s;
  r ← chan_op (chan_recv (requestQueue sv));
  let req := r.1 in
  store s (with_requestQueue sv (Some r.2)) ;;
  match Role sv with
  | ROLE_WEBSERVER =>
      go (serveFile_of s req) ;;
      mret PumpReturned
  | ROLE_PROXY =>
      be ← Pool.GetBackend (SPool sv);
      mret PumpNextRound
  | ROLE_MANAGE =>
      log Error "unexpected role in Service.requestPump" ;;
      respond req (HttpConnection.HttpErrorResponse (request req)
                     "Invalid service type") ;;
      mret PumpReturned
  end.

(** [requestPump], run for at most [rounds] rounds of its loop: [true] when
    the goroutine has returned, [false] when it is still in its loop. *)
Fixpoint requestPump (rounds : nat) (s : string) : M bool :=
  match rounds with
  | O => mret false
  | S rounds' =>
      p ← requestPump_round s;
      match p with
      | PumpReturned => mret true
      | PumpNextRound => requestPump rounds' s
      end
  end.

(** The loop of [Enable] over the entries of [s.Listeners]. *)
Fixpoint Enable_loop (s : string)
    (entries : list (string * option ServiceListener)) : M unit :=
  match entries with
  | [] => mret tt
  | (ipport, lstnr) :: rest =>
      match lstnr with
      | None => panic nil_dereference
      | Some sl =>
          match Listener sl with
          | Some _ => Enable_loop s rest
          | None =>
              r ← TcpListener.ListenTcp ipport (Acceptor sl);
              match r.2 with
              | Some err =>
                  log Error ("failed to listen on " ++ ipport ++ ": " ++ err) ;;
                  Enable_loop s rest
              | None =>
                  sv ← deref s;
                  store s (with_Listeners sv
                             (<[ipport := Some {| Listener := r.1;
                                                  Acceptor := Acceptor sl |}]>
                                (Listeners sv))) ;;
                  Enable_loop s rest
              end
          end
      end
  end.

(** [Enable] on a service. *)
Definition Enable (s : string) : M error :=
  sv ← deref s;
  Enable_loop s (map_to_list (Listeners sv)) ;;
  sv ← deref s;
  store s (with_Enabled sv true) ;;
  mret None.

(** The first loop of [setListen]: every entry whose value is not nil has
    [Close] called on its [Listener] field, then the entry is deleted. *)
Fixpoint setListen_close (s : string)
    (entries : list (string * option ServiceListener)) : M unit :=
  match entries with
  | [] => mret tt
  | (ipport, lstnr) :: rest =>
      match lstnr with
      | Some sl => TcpListener.Close (Listener sl) ;; mret tt
      | None => mret tt
      end ;;
      sv ← deref s;
      store s (with_Listeners sv (delete ipport (Listeners sv))) ;;
      setListen_close s rest
  end.

(** The second loop of [setListen]. *)
Fixpoint setListen_create (s : string) (ipports : list string)
    (acceptor : AcceptorFunc) : M unit :=
  match ipports with
  | [] => mret tt
  | ipport :: rest =>
      let ipport := GoStrings.TrimSpace ipport in
      log Debug ("creating ServiceListener on " ++ ipport) ;;
      sv ← deref s;
      store s (with_Listeners sv
                 (<[ipport := Some {| Listener := None; Acceptor := acceptor |}]>
                    (Listeners sv))) ;;
      setListen_create s rest acceptor
  end.

(** [setListen]. *)
Definition setListen (s : string) (value : string) (acceptor : AcceptorFunc)
  : M error :=
  sv ← deref s;
  (if (0 <? size (Listeners sv))%nat
   then log Warn ("changing existing listeners on service " ++ SName sv)
   else mret tt) ;;
  setListen_close s (map_to_list (Listeners sv)) ;;
  setListen_create s (GoStrings.SplitByte value ",") acceptor ;;
  sv ← deref s;
  (if Enabled sv then Enable s ;; mret tt else mret tt) ;;
  mret None.

(** [Set] on a service. *)
Definition Set_ (s : string) (key value : string) : M error :=
  sv ← deref s;
  if String.eqb key "listen" then setListen s value (AcceptOf s)
  else if String.eqb key "role" then
    if String.eqb value "web_server" then
      store s (with_Role sv ROLE_WEBSERVER) ;; mret None
    else if String.eqb value "management" then
      store s (with_Role sv ROLE_MANAGE) ;; mret None
    else if String.eqb value "reverse_proxy" then
      store s (with_Role sv ROLE_PROXY) ;; mret None
    else mret (errors_New ("invalid role '" ++ value ++ "'"))
  else if String.eqb key "docroot" then
    let value := GoPath.Clean (GoStrings.TrimSpace value) in
    w ← get;
    match files w !! value with
    | None => mret (Some (no_such_file "stat" value))
    | Some fi =>
        if negb (file_is_dir fi)
        then mret (errors_New ("docroot: " ++ value ++ " is not a directory"))
        else store s (with_DocRoot sv value) ;; mret None
    end
  else if String.eqb key "pool" then
    w ← get;
    match pools w !! value with
    | None => mret (errors_New ("pool '" ++ value ++ "' not found"))
    | Some _ => store s (with_Pool sv (Some value)) ;; mret None
    end
  else
    log Error ("unknown SET " ++ SName sv ++ "." ++ key ++ " = " ++ value) ;;
    mret None.

(** [HandleRequest]. *)
Definition HandleRequest (s : string) (conn : nat) (req : Request)
    (rchan : nat) : M error :=
  sv ← deref s;
  q ← chan_op (chan_send (requestQueue sv)
                 {| client := conn; request := req; rchan := rchan |});
  store s (with_requestQueue sv (Some q)) ;;
  mret None.

End Service.

(** ** pool.go: [Backend.Connect] under the scheduler

    [Connect] and the goroutine it starts synchronise on the backend's
    [connectMutex], so calls that overlap are modelled as threads that a
    scheduler interleaves, one program point at a time. *)

Module Connect.
Import Runtime.

(** Program points. Of a call of [Connect]: before [Lock]; at the test of
    [self.connecting], holding the mutex; at the [go] statement; at the
    deferred [Unlock]; returned. Of the function literal: before [Lock];
    before [Unlock], holding the mutex (the assignment to
    [self.connecting] between the two is commented out in the source);
    finished. *)
Inductive pc :=
| c_lock | c_check | c_go | c_unlock | c_returned
| g_lock | g_unlock | g_finished.

#[export] Instance pc_eq_dec : EqDecision pc.
Proof. solve_decision. Defined.

Record State := {
  backend : Backend;
  connectMutex : bool;
  threads : list pc;
  events : list Event
}.

(** [n] calls of [Connect] on backend [b], none of them started. *)
Definition init (b : Backend) (n : nat) : State :=
  {| backend := b; connectMutex := false; threads := replicate n c_lock;
     events := [] |}.

Definition move (st : State) (i : nat) (next : pc) (mutex : bool) : State :=
  {| backend := backend st; connectMutex := mutex;
     threads := <[i := next]> (threads st); events := events st |}.

(** One step of thread [i]; [None] when it cannot move (it waits for the
    mutex, or it is over). *)
Definition step (i : nat) (st : State) : option State :=
  match threads st !! i with
  | Some c_lock =>
      if connectMutex st then None else Some (move st i c_check true)
  | Some c_check =>
      match connecting (backend st) with
      | Some _ => Some (move st i c_unlock (connectMutex st))
      | None => Some (move st i c_go (connectMutex st))
      end
  | Some c_go =>
      Some {| backend := backend st; connectMutex := connectMutex st;
              threads := (<[i := c_unlock]> (threads st) ++ [g_lock])%list;
              events := (events st
                         ++ [EvGo (connect_body_of (Ipport (backend st)))])%list |}
  | Some c_unlock => Some (move st i c_returned false)
  | Some g_lock =>
      if connectMutex st then None else Some (move st i g_unlock true)
  | Some g_unlock => Some (move st i g_finished false)
  | Some c_returned | Some g_finished | None => None
  end.

(** A schedule names the thread that moves at each step. *)
Fixpoint run (schedule : list nat) (st : State) : option State :=
  match schedule with
  | [] => Some st
  | i :: rest => step i st ≫= run rest
  end.

Definition is_dial (e : Event) : bool :=
  match e with EvDial _ => true | _ => false end.

Definition is_go (e : Event) : bool :=
  match e with EvGo _ => true | _ => false end.

(** Dial attempts made, and goroutines started, so far. *)
Definition dials (st : State) : nat :=
  length (List.filter is_dial (events st)).
Definition spawned (st : State) : nat :=
  length (List.filter is_go (events st)).

(** Threads by kind: a call of [Connect]; a call of [Connect] that is past
    its [go] statement; a goroutine started by one. *)
Definition is_connect (p : pc) : bool :=
  match p with
  | c_lock | c_check | c_go | c_unlock | c_returned => true
  | _ => false
  end.

Definition past_go (p : pc) : bool :=
  match p with c_unlock | c_returned => true | _ => false end.

Definition is_goroutine (p : pc) : bool := negb (is_connect p).

Definition count (f : pc -> bool) (l : list pc) : nat :=
  length (List.filter f l).

(** What every state of a run of [n] calls on a backend with no
    connection in progress satisfies. *)
Definition sound (n : nat) (st : State) : Prop :=
  connecting (backend st) = None
  /\ dials st = O
  /\ spawned st = count is_goroutine (threads st)
  /\ count is_goroutine (threads st) = count past_go (threads st)
  /\ count is_connect (threads st) = n.

Definition over (p : pc) : bool :=
  match p with c_returned | g_finished => true | _ => false end.

(** Every thread has run to its end. *)
Definition quiescent (st : State) : bool := forallb over (threads st).

End Connect.

(** ** The calls that drive the process

    The configuration loader and the goroutines act on the world through
    the functions above. A history is a sequence of such calls; the worlds
    it can lead to from [boot] are the reachable ones. *)

Module Control.
Import Runtime.

Inductive Call :=
| CreateService (name : string)
| CreatePool (name : string)
| ServiceSet (s key value : string)
| ServiceEnable (s : string)
| PoolSet (p key value : string)
| PoolEnable (p : string)
| HandleRequest (s : string) (conn : nat) (req : Request) (rchan : nat)
| PumpRound (s : string)
| ServeFile (s : string) (req : ServiceRequest)
| WorkerStart (p : string)
| WorkerRound (p : string) (mtime : Z).

(** The world a call leaves behind, however it ends. *)
Definition world_of {A} (r : Res A) : World :=
  match r with
  | Returns _ w | Panics _ w | Exits w | BlocksForever w | Waits w => w
  end.

Definition perform (c : Call) (w : World) : World :=
  match c with
  | CreateService name => world_of (Service.NewService name w)
  | CreatePool name => world_of (Pool.NewPool name w)
  | ServiceSet s key value => world_of (Service.Set_ s key value w)
  | ServiceEnable s => world_of (Service.Enable s w)
  | PoolSet p key value => world_of (Pool.Set_ p key value w)
  | PoolEnable p => world_of (Pool.Enable p w)
  | HandleRequest s conn req rchan =>
      world_of (Service.HandleRequest s conn req rchan w)
  | PumpRound s => world_of (Service.requestPump_round s w)
  | ServeFile s req => world_of (Service.serveFile s req w)
  | WorkerStart p => world_of (Pool.worker_start p w)
  | WorkerRound p mtime => world_of (Pool.worker_round p mtime w)
  end.

Definition history (calls : list Call) (w : World) : World :=
  foldl (fun w c => perform c w) w calls.

End Control.

(** ** Vocabulary of the properties *)

Module Props.
Import Runtime.

Definition ends_with_slash (dir : string) : bool :=
  match last (list_ascii_of_string dir) with
  | Some c => GoPath.is_slash c
  | None => false
  end.

(** [path] names the directory [dir] itself or something below it. *)
Definition under_dir (dir path : string) : bool :=
  String.eqb path dir
  || GoStrings.HasPrefix path (if ends_with_slash dir then dir else dir ++ "/").

(** How often [Close] has been called on socket [sock]. *)
Definition closes (sock : nat) (w : World) : nat :=
  default O (sock_closes <$> sockets w !! sock).

(** The bytes socket [sock] has received. *)
Definition delivered (sock : nat) (w : World) : string :=
  default EmptyString (sock_delivered <$> sockets w !! sock).

(** Closing twice: both calls of [close] return, the second one with an
    error, and between them the socket sees exactly one [Close]. *)
Definition closes_once (close : M error) (sock : nat) (w : World) : Prop :=
  exists e1 e2 w1 w2,
    close w = Returns e1 w1 /\ close w1 = Returns e2 w2 /\
    is_Some e2 /\ closes sock w2 = S (closes sock w).

(** Closing flushes: after [close], the socket has received the bytes
    [pending] that were buffered. *)
Definition close_flushes (close : M error) (sock : nat) (pending : string)
    (w : World) : Prop :=
  exists e1 w1,
    close w = Returns e1 w1 /\
    delivered sock w1 = delivered sock w ++ pending.

(** No registered service has a request queue: the field holds the nil
    channel. *)
Definition no_queue (w : World) : Prop :=
  forall s sv, services w !! s = Some sv -> requestQueue sv = None.

(** The world after the dispatch loop has taken [req] off the queue of
    service [s] and started [serveFile] for it. *)
Definition dispatched (w : World) (s : string) (sv : Service)
    (q : Chan ServiceRequest) (req : ServiceRequest)
    (rest : list ServiceRequest) : World :=
  set_trace (fun t => (t ++ [EvGo (serveFile_of s req)])%list)
    (set_services
       <[s := Service.with_requestQueue sv
                (Some {| chan_cap := chan_cap q; chan_buf := rest |})]> w).

(** The generation of every pool. *)
Definition generations (w : World) : gmap string Z := pgeneration <$> pools w.

Definition gens_are (G : gmap string Z) (w : World) : Prop :=
  generations w = G.

(** The addresses in a pool's backend list, in order. *)
Definition addresses (pl : Pool) : list string := Ipport <$> backends pl.

(** Every backend that pool [p] has in [w0] is still in its list in [w]. *)
Definition retains (w0 w : World) : Prop :=
  forall p pl0, pools w0 !! p = Some pl0 ->
    exists pl, pools w !! p = Some pl /\ addresses pl0 ⊆ addresses pl.

(** Every listen address of the service is configured and none is bound:
    each value of [Listeners] is a [ServiceListener] whose [Listener] is
    nil. *)
Definition all_unbound (sv : Service) : bool :=
  forallb (fun e => match e.2 with
                    | Some sl => match Listener sl with
                                 | None => true
                                 | Some _ => false
                                 end
                    | None => false
                    end)
          (map_to_list (Listeners sv)).

(** Every listen address of the service is bound. *)
Definition all_bound (sv : Service) : bool :=
  forallb (fun e => match e.2 with
                    | Some sl => match Listener sl with
                                 | Some _ => true
                                 | None => false
                                 end
                    | None => false
                    end)
          (map_to_list (Listeners sv)).

(** The messages of the duplicate-name errors. *)
Definition service_exists (n : string) : string :=
  "service '" ++ n ++ "' already exists".

Definition pool_exists (n : string) : string :=
  "pool '" ++ n ++ "' already exists".

Definition logged (lvl : LogLevel) (msg : string) (w : World) : Prop :=
  EvLog lvl msg ∈ trace w.

End Props.

(** ** Invariants of monadic code *)

Module Invariants.
Import Runtime.

(** [keeps Inv m Q]: run in a world where [Inv] holds, [m] leaves a world where
    [Inv] holds, however it ends, and a value it returns satisfies [Q]. *)
Definition keeps {A} (Inv : World -> Prop) (m : M A) (Q : A -> Prop) : Prop :=
  forall w, Inv w ->
    Inv (Control.world_of (m w)) /\ forall a w', m w = Returns a w' -> Q a.

(** [Inv] reads nothing but the two registries. *)
Definition ambient (Inv : World -> Prop) : Prop :=
  forall w w', services w = services w' -> pools w = pools w' -> Inv w -> Inv w'.

(** [Inv] reads nothing but the service registry. *)
Definition services_only (Inv : World -> Prop) : Prop :=
  forall w w', services w = services w' -> Inv w -> Inv w'.

(** [Inv] reads nothing but the pool registry. *)
Definition pools_only (Inv : World -> Prop) : Prop :=
  forall w w', pools w = pools w' -> Inv w -> Inv w'.

End Invariants.

(** ** Sample environments used by the examples *)

Module Samples.
Import Runtime.

Definition no_error : string -> error := fun _ => None.

(** A regular file with the given modification time and content. *)
Definition regular (mtime : Z) (content : string) : File :=
  {| file_is_dir := false; file_mtime := mtime; file_open_error := None;
     file_read_error := None; file_content := content |}.

Definition lines (ls : list string) : string :=
  foldr (fun l acc => l ++ String Pool.newline acc) EmptyString ls.

(** A process with no files around it. *)
Definition bare : World := boot ∅ no_error no_error.

(** A process beside a node file [nodes] with the given lines. *)
Definition with_nodes (mtime : Z) (ls : list string) : World :=
  boot {[ "nodes" := regular mtime (lines ls) ]} no_error no_error.

(** The pool [p] after [CREATE POOL p] and [SET nodefile = nodes], with its
    worker holding the lock. *)
Definition pool_p (w : World) : World :=
  Control.history
    [Control.CreatePool "p"; Control.PoolSet "p" "nodefile" "nodes";
     Control.WorkerStart "p"] w.

(** A service as [NewService] makes it, but for the given role and request
    queue. *)
Definition service (name : string) (role : ServiceRole)
    (queue : option (Chan ServiceRequest)) : Service :=
  {| SName := name; Enabled := false; Role := role; Listeners := ∅;
     DocRoot := ""; SPool := None; requestQueue := queue |}.

Definition request (uri : string) (ch : nat) : ServiceRequest :=
  {| client := 0; request := {| RequestURI := uri |}; rchan := ch |}.

(** A world whose only service holds the given requests in a queue of
    capacity 8, each with its own empty response channel. *)
Definition serving (role : ServiceRole) (reqs : list ServiceRequest) : World :=
  set_rchans
    (fun _ => list_to_map
                ((fun r => (rchan r, {| chan_cap := 1; chan_buf := [] |})) <$> reqs))
    (set_services
       (fun _ => {[ "web" := service "web" role
                               (Some {| chan_cap := 8; chan_buf := reqs |}) ]})
       bare).

(** The requests waiting in the queue of service [s]. *)
Definition queued (s : string) (w : World) : list ServiceRequest :=
  match services w !! s with
  | Some sv => match requestQueue sv with Some q => chan_buf q | None => [] end
  | None => []
  end.

(** A world with one open client socket, numbered 1, that accepts writes
    unless [write_error] says otherwise, and the [TcpConnection] numbered 1
    wrapped around it with [pending] in its write buffer. *)
Definition connected (pending : string) (write_error : error) : World :=
  set_tcp_conns
    (fun _ => {[ 1%nat := {| Conn := 1; BWriter := pending; alive := true |} ]})
    (set_sockets
       (fun _ => {[ 1%nat := {| sock_addr := "10.1.1.1:40000"; sock_closes := 0;
                                sock_delivered := "";
                                sock_write_error := write_error |} ]})
       bare).

(** An [HttpConnection] around socket 1 with [pending] in its write
    buffer. *)
Definition http_conn (pending : string) : HttpConnection :=
  {| hconn := 1; HBWriter := pending; HService := "web" |}.

(** A backend as the reconciliation loop makes it. *)
Definition backend_at (ipport : string) : Backend :=
  {| Ipport := ipport; connecting := None; outstanding := 0; generation := 1 |}.

Definition backends_of (p : string) (w : World) : list (string * Z) :=
  default [] ((fun pl => (fun b => (Ipport b, generation b)) <$> backends pl)
              <$> pools w !! p).

Definition generation_of (p : string) (w : World) : option Z :=
  pgeneration <$> pools w !! p.

End Samples.

(** ** spdy.go *)

Module SpdySession.
Import Runtime.

(** [SpdySession]. A session is held by its owner alone, so it is passed
    in and handed back; [SConn] points to its [TcpConnection], [salive] is
    the field [alive]. *)
Record SpdySession := {
  SConn : ptr;
  salive : bool;
  bytesLeft : Z
}.

(** [WrapSpdySession]. *)
Definition WrapSpdySession (conn : ptr) : SpdySession * error :=
  ({| SConn := conn; salive := true; bytesLeft := 0 |}, None).

(** [Close] of a session: the session after the call, and the error. *)
Definition Close (c : SpdySession) : M (SpdySession * error) :=
  if negb (salive c) then
    mret (c, errors_New "SpdySession already closed")
  else
    let dead := {| SConn := SConn c; salive := false;
                   bytesLeft := bytesLeft c |} in
    log Debug "SpdySession closing" ;;
    err ← TcpConnection.Close (SConn c);
    mret (dead, err).

End SpdySession.

(** ** http_backend.go: closing a backend connection *)

Module HttpBackendConnection.
Import Runtime.

(** [Close] of an [HttpBackendConnection]. [clients] is the heap its
    [Client] pointer points into; the call reads it and does not change
    it. *)
Definition Close (clients : gmap nat HttpConnection)
    (h : HttpBackendConnection) : M error :=
  err ← match BClient h with
        | None => mret None
        | Some a =>
            match clients !! a with
            | None => panic nil_dereference
            | Some client => HttpConnection.Close client
            end
        end;
  match err with
  | Some e => mret (Some e)
  | None =>
      err ← TcpConnection.Close (BConn h);
      match err with
      | Some e => mret (Some e)
      | None => mret None
      end
  end.

End HttpBackendConnection.

(** ** service.go: the defaults *)

Module Defaults.

(** [ServiceDefault], on the package variable [serviceDefaults]. *)
Definition ServiceDefault (key value : string)
    (serviceDefaults : gmap string string) : gmap string string :=
  if String.eqb value "" then delete key serviceDefaults
  else <[key := value]> serviceDefaults.

End Defaults.

(** ** config.go *)

Module Config.
Import Runtime.

(** The two types that implement [Interactor], each value a pointer to a
    registered object. *)
Inductive Interactor :=
| OfService (s : string)
| OfPool (p : string).

(** The variable a [*Interactor] points to holds an interface value, nil
    ([None]) or one of the above; the pointer itself may be nil. A
    function that takes such a pointer gets what it points to, and hands
    back what it points to afterwards. *)
Definition Current : Type := option Interactor.

Definition Set_ (i : Interactor) (key value : string) : M error :=
  match i with
  | OfService s => Service.Set_ s key value
  | OfPool p => Pool.Set_ p key value
  end.

(** [m[i]]. *)
Definition index (m : list string) (i : nat) : M string :=
  match m !! i with
  | Some x => mret x
  | None => panic "index out of range"
  end.

(** [cfg_Default], on the package variable [serviceDefaults]. *)
Definition cfg_Default (m : list string)
    (serviceDefaults : gmap string string) : M (gmap string string * error) :=
  key ← index m 1;
  value ← index m 2;
  mret (Defaults.ServiceDefault key value serviceDefaults, None).

(** [cfg_Set]. *)
Definition cfg_Set (cur : option Current) (m : list string) : M error :=
  name ← index m 1;
  if String.eqb name "" then
    match cur with
    | None => mret (errors_New "attempt to set, but no service defined")
    | Some None => panic nil_dereference
    | Some (Some i) =>
        key ← index m 2;
        value ← index m 3;
        Set_ i key value
    end
  else
    w ← get;
    match services w !! name with
    | None => mret (errors_New ("service '" ++ name ++ "' not found"))
    | Some _ =>
        key ← index m 2;
        value ← index m 3;
        Service.Set_ name key value
    end.

(** [cfg_Enable]. *)
Definition cfg_Enable (cur : option Current) (m : list string) : M error :=
  name ← index m 1;
  w ← get;
  match services w !! name with
  | None => mret (errors_New ("service '" ++ name ++ "' not found"))
  | Some _ => Service.Enable name
  end.

(** [cfg_CreateService]: the error, and what [cur] points to afterwards. *)
Definition cfg_CreateService (cur : option Current) (m : list string)
  : M (option Current * error) :=
  name ← index m 1;
  r ← Service.NewService name;
  match r.2 with
  | Some err => mret (cur, Some err)
  | None =>
      match cur, r.1 with
      | Some _, Some svc => mret (Some (Some (OfService svc)), None)
      | Some _, None => mret (Some None, None)
      | None, _ => panic nil_dereference
      end
  end.

(** [cfg_CreatePool]. *)
Definition cfg_CreatePool (cur : option Current) (m : list string)
  : M (option Current * error) :=
  name ← index m 1;
  r ← Pool.NewPool name;
  match r.2 with
  | Some err => mret (cur, Some err)
  | None =>
      match cur, r.1 with
      | Some _, Some pool => mret (Some (Some (OfPool pool)), None)
      | Some _, None => mret (Some None, None)
      | None, _ => panic nil_dereference
      end
  end.

End Config.

(** ** More vocabulary of the properties *)

Module MoreProps.
Import Runtime.

(** [returns_only m Q]: whatever [m] returns satisfies [Q]. *)
Definition returns_only {A} (m : M A) (Q : A -> Prop) : Prop :=
  forall w a w', m w = Returns a w' -> Q a.

(** No default is the empty string. *)
Definition no_blank (serviceDefaults : gmap string string) : Prop :=
  forall key, serviceDefaults !! key <> Some EmptyString.

(** The defaults after a sequence of calls of [ServiceDefault]. *)
Definition defaults_after (calls : list (string * string))
    (serviceDefaults : gmap string string) : gmap string string :=
  foldl (fun d c => Defaults.ServiceDefault c.1 c.2 d) serviceDefaults calls.


(** The listener map after the second loop of [setListen] has gone over
    [ipports]. *)
Definition configured (acceptor : AcceptorFunc) (ipports : list string)
    (ls : gmap string (option ServiceListener))
  : gmap string (option ServiceListener) :=
  foldl (fun m a => <[GoStrings.TrimSpace a :=
                        Some {| Listener := None; Acceptor := acceptor |}]> m)
        ls ipports.

(** The lines that loop logs. *)
Definition creating (ipports : list string) : list Event :=
  (fun a => EvLog Debug ("creating ServiceListener on "
                         ++ GoStrings.TrimSpace a)) <$> ipports.



End MoreProps.

(** ** Vocabulary of the node-file pass and of the node-file lock *)

Module PoolProps.
Import Runtime.

(** The lines the [LINE] loop gets to see out of the results of the reads:
    all of them up to the end of the file, or up to the first read that
    fails. *)
Fixpoint lines_read (reads : list (string * ioerr)) : list string :=
  match reads with
  | [] => []
  | (l, io_nil) :: rest => l :: lines_read rest
  | (l, io_EOF) :: _ => [l]
  | (_, io_other _) :: _ => []
  end.

(** The addresses a pass over the file [f] reads. *)
Definition listed (f : File) : list string :=
  omap Pool.parse_line (lines_read (Pool.reads_of f)).

(** The pool after the loop has gone over the lines [ls]. *)
Definition reconciled (newgen : Z) (ls : list string) (pl : Pool) : Pool :=
  foldl (fun pl raw => Pool.reconcile_line newgen raw pl) pl ls.

(** The pool [pl'] differs from [pl] in its backends at most. *)
Definition same_but_backends (pl pl' : Pool) : Prop :=
  PName pl' = PName pl /\ backendQueue pl' = backendQueue pl
  /\ nodeFile pl' = nodeFile pl /\ nodeFileLock pl' = nodeFileLock pl
  /\ pgeneration pl' = pgeneration pl.

(** The backend [b'] is [b] but for its generation. *)
Definition same_connection (b b' : Backend) : Prop :=
  Ipport b' = Ipport b /\ connecting b' = connecting b
  /\ outstanding b' = outstanding b.

(** What a pass that stamps with [newgen] and reads the addresses [seen]
    makes of the backends [bs0], in [bs]. *)
Definition pass (newgen : Z) (seen : list string) (bs0 bs : list Backend)
  : Prop :=
  NoDup (Ipport <$> bs)
  /\ (forall a, a ∈ (Ipport <$> bs) <-> a ∈ (Ipport <$> bs0) \/ a ∈ seen)
  /\ (forall b, b ∈ bs0 -> exists b', b' ∈ bs /\ same_connection b b')
  /\ (forall b', b' ∈ bs ->
        (Ipport b' ∈ seen -> generation b' = newgen)
        /\ (Ipport b' ∉ seen -> b' ∈ bs0)
        /\ (Ipport b' ∉ (Ipport <$> bs0) ->
              connecting b' = None /\ outstanding b' = 0%Z)).

(** Pool [p] is registered with its lock held and [nodefile] as its node
    file. *)
Definition locked (p nodefile : string) (w : World) : Prop :=
  exists pl, pools w !! p = Some pl /\ nodeFileLock pl = true
             /\ nodeFile pl = nodefile.

End PoolProps.

(** ** Vocabulary of the scheduler model of [Connect] *)

Module ConnectProps.
Import Runtime Connect.

(** The program points at which a thread holds [connectMutex]. *)
Definition holds_mutex (p : pc) : bool :=
  match p with
  | c_check | c_go | c_unlock | g_unlock => true
  | _ => false
  end.

(** The threads inside the critical section. *)
Definition holders (st : State) : nat := count holds_mutex (threads st).

(** The mutex is held by one thread exactly, or by none when it is free. *)
Definition exclusive (st : State) : Prop :=
  holders st = if connectMutex st then 1%nat else 0%nat.

(** The steps a thread at the given point has ahead of it at most, those of
    the goroutine it may still start included. *)
Definition weight (p : pc) : nat :=
  match p with
  | c_lock => 6
  | c_check => 5
  | c_go => 4
  | c_unlock => 1
  | c_returned => 0
  | g_lock => 2
  | g_unlock => 1
  | g_finished => 0
  end.

Definition work (st : State) : nat := sum_list (weight <$> threads st).

(** The program points of a call of [Connect] that returns at its test of
    [self.connecting]. *)
Definition returns_early (p : pc) : bool :=
  match p with
  | c_lock | c_check | c_unlock | c_returned => true
  | _ => false
  end.

End ConnectProps.

(** ** More sample worlds *)

Module MoreSamples.
Import Runtime.

(** The pool of [Samples.pool_p]. *)
Definition watched : Pool :=
  {| PName := "p"; backends := [];
     backendQueue := Some {| chan_cap := 1000; chan_buf := [] |};
     nodeFile := "nodes"; nodeFileLock := true; pgeneration := 0 |}.

(** A node file that cannot be opened. *)
Definition unreadable (mtime : Z) : File :=
  {| file_is_dir := false; file_mtime := mtime;
     file_open_error := Some "open nodes: permission denied";
     file_read_error := None; file_content := "10.0.0.1:8080" |}.

(** The world of [Samples.connected] after the peer's socket has been
    closed once. *)
Definition hung_up : World :=
  Control.world_of
    (HttpConnection.Close (Samples.http_conn "") (Samples.connected "" None)).

(** A backend connection to connection 1 whose client is [client 7]. *)
Definition backend_conn : HttpBackendConnection :=
  {| BConn := Some 1%nat; BClient := Some 7%nat |}.


(** An environment in which the address [10.0.0.1:80] is taken. *)
Definition busy_port : string -> error :=
  fun a => if String.eqb a "10.0.0.1:80"
           then Some "bind: address already in use" else None.

(** The service [web] with two listen addresses configured and not yet
    enabled, and the process that holds it. *)
Definition unbound_web : Service :=
  {| SName := "web"; Enabled := false; Role := ROLE_WEBSERVER;
     Listeners := MoreProps.configured (AcceptOf "web")
                    ["127.0.0.1:8080"; "10.0.0.1:80"] ∅;
     DocRoot := ""; SPool := None; requestQueue := None |}.


(** The pool of [Samples.pool_p] after a pass over a node file with two
    addresses. *)
Definition reloaded : Pool :=
  {| PName := "p";
     backends := [Samples.backend_at "10.0.0.1:8080";
                  Samples.backend_at "10.0.0.2:8080"];
     backendQueue := Some {| chan_cap := 1000; chan_buf := [] |};
     nodeFile := "nodes"; nodeFileLock := true; pgeneration := 0 |}.

End MoreSamples.

(** ** Vocabulary of the reachable worlds *)

Module WellFormed.
Import Runtime.

(** A service as every reachable world holds it under the name [s]: it
    carries that name, and no value of [Listeners] is the nil pointer. *)
Definition sound_service (s : string) (sv : Service) : Prop :=
  SName sv = s /\ forall k, Listeners sv !! k <> Some None.

Definition services_sound (w : World) : Prop :=
  forall s sv, services w !! s = Some sv -> sound_service s sv.

(** A backend as the reconciliation loop leaves it for good: stamped with
    generation 1, never connecting, nothing outstanding. *)
Definition idle (b : Backend) : Prop :=
  connecting b = None /\ outstanding b = 0%Z /\ generation b = 1%Z.

(** A pool as every reachable world holds it under the name [p]. *)
Definition sound_pool (p : string) (pl : Pool) : Prop :=
  PName pl = p
  /\ pgeneration pl = 0%Z
  /\ backendQueue pl = Some {| chan_cap := 1000; chan_buf := [] |}
  /\ NoDup (Ipport <$> backends pl)
  /\ Forall idle (backends pl).

Definition pools_sound (w : World) : Prop :=
  forall p pl, pools w !! p = Some pl -> sound_pool p pl.

End WellFormed.

(** * Properties *)

(** ** The library functions *)

Section Library.
Import GoPath.

Lemma take_elem_length (rest e r : list ascii) :
  take_elem rest = (e, r) -> length r <= length rest.
Proof.
  revert e r. induction rest as [|c rest IH]; intros e r; simpl.
  - intros [= <- <-]. simpl. lia.
  - destruct (is_slash c).
    + intros [= <- <-]. simpl. lia.
    + destruct (take_elem rest) as [e' r'] eqn:E. intros [= <- <-].
      specialize (IH _ _ eq_refl). lia.
Qed.

Lemma take_elem_shrinks (c : ascii) (rest e r : list ascii) :
  is_slash c = false -> take_elem (c :: rest) = (e, r) ->
  length r <= length rest.
Proof.
  intros Hc. simpl. rewrite Hc.
  destruct (take_elem rest) as [e' r'] eqn:E. intros [= <- <-].
  exact (take_elem_length _ _ _ E).
Qed.

(** Every round of the loop of [path.Clean] consumes input, so the result
    does not depend on the fuel once it covers the input. *)
Lemma clean_loop_fuel (fuel fuel' : nat) (rooted : bool)
    (rest out : list ascii) (dotdot : nat) :
  length rest <= fuel -> length rest <= fuel' ->
  clean_loop fuel rooted rest out dotdot
  = clean_loop fuel' rooted rest out dotdot.
Proof.
  revert fuel' rest out dotdot.
  induction fuel as [|fuel IH]; intros fuel' rest out dotdot H H'.
  - destruct rest; [|simpl in H; lia]. destruct fuel'; reflexivity.
  - destruct rest as [|c rest1]; [destruct fuel'; reflexivity|].
    destruct fuel' as [|fuel']; [simpl in H'; lia|].
    simpl in H, H'. cbn [clean_loop].
    destruct (is_slash c) eqn:Hc; [apply IH; lia|].
    destruct (is_dot c && at_elem_end rest1); [apply IH; lia|].
    destruct (is_dot c && _).
    + assert (length (drop 1 rest1) <= length rest1)
        by (rewrite length_drop; lia).
      repeat case_match; apply IH; lia.
    + destruct (take_elem (c :: rest1)) as [e r] eqn:E.
      pose proof (take_elem_shrinks _ _ _ _ Hc E).
      apply IH; lia.
Qed.

Lemma trimWith_nil (width : list ascii -> nat) (fuel : nat) :
  GoStrings.trimWith width fuel [] = [].
Proof.
  induction fuel as [|fuel IH]; [reflexivity|].
  simpl. destruct (width []); [reflexivity|exact IH].
Qed.

(** The same for the trimming loop, whatever recognises the white space. *)
Lemma trimWith_fuel (width : list ascii -> nat) (fuel fuel' : nat)
    (s : list ascii) :
  length s <= fuel -> length s <= fuel' ->
  GoStrings.trimWith width fuel s = GoStrings.trimWith width fuel' s.
Proof.
  revert fuel' s. induction fuel as [|fuel IH]; intros fuel' s H H'.
  - destruct s; [|simpl in H; lia]. rewrite !trimWith_nil. reflexivity.
  - destruct s as [|c s]; [rewrite !trimWith_nil; reflexivity|].
    destruct fuel' as [|fuel']; [simpl in H'; lia|].
    simpl. destruct (width (c :: s)) as [|w] eqn:E; [reflexivity|].
    apply IH; rewrite length_drop; simpl in *; lia.
Qed.

(** The cases of the table that Go's own test of [path.Clean] runs. *)
Example Clean_table :
  Clean <$> ["abc"; "abc/def"; "a/b/c"; "."; ".."; "../.."; "../../abc";
             "/abc"; "/"; ""; "abc/"; "abc/def/"; "a/b/c/"; "./"; "../";
             "../../"; "/abc/"; "abc//def//ghi"; "//abc"; "///abc";
             "//abc//"; "abc//"; "abc/./def"; "/./abc/def"; "abc/.";
             "abc/def/ghi/../jkl"; "abc/def/../ghi/../jkl"; "abc/def/..";
             "abc/def/../.."; "/abc/def/../.."; "abc/def/../../..";
             "/abc/def/../../.."; "abc/def/../../../ghi/jkl/../../../mno";
             "abc/./../def"; "abc//./../def"; "abc/../../././../def"]
  = ["abc"; "abc/def"; "a/b/c"; "."; ".."; "../.."; "../../abc";
     "/abc"; "/"; "."; "abc"; "abc/def"; "a/b/c"; "."; "..";
     "../.."; "/abc"; "abc/def/ghi"; "/abc"; "/abc";
     "/abc"; "abc"; "abc/def"; "/abc/def"; "abc";
     "abc/def/jkl"; "abc/jkl"; "abc";
     "."; "/"; "..";
     "/"; "../../mno";
     "def"; "def"; "../../def"].
Proof. reflexivity. Qed.

Example Join_table :
  Join <$> [["a"; "b"; "c"]; ["a"; ""]; [""; "a"]; [""; ""]; ["/"; "a"];
            ["/srv/www"; "/index.html"]; ["/srv/www"; ""]]
  = ["a/b/c"; "a"; "a"; ""; "/a"; "/srv/www/index.html"; "/srv/www"].
Proof. reflexivity. Qed.

Example TrimSpace_table :
  GoStrings.TrimSpace
    <$> ["  10.0.0.1:8080  "; "10.0.0.1:8080 # comment"; "   ";
         String (ascii_of_nat 9) ("a b" ++ String (ascii_of_nat 13)
                                     (String (ascii_of_nat 10) ""));
         String (ascii_of_nat 194) (String (ascii_of_nat 160) "x")]
  = ["10.0.0.1:8080"; "10.0.0.1:8080 # comment"; ""; "a b"; "x"].
Proof. reflexivity. Qed.

Example Split_table :
  (fun s => GoStrings.SplitByte s ",") <$> [""; "a"; "a,b"; "a,,b"; ",a,"]
  = [[""]; ["a"]; ["a"; "b"]; ["a"; ""; "b"]; [""; "a"; ""]].
Proof. reflexivity. Qed.

End Library.

(** ** Rules for [keeps] *)

Section KeepsRules.
Import Runtime Invariants.
Context (Inv : World -> Prop).

Lemma bind_returns {A B} (m : M A) (k : A -> M B) (w w' : World) (a : A) :
  m w = Returns a w' -> (m ≫= k) w = k a w'.
Proof. intros H. unfold mbind, M_bind. rewrite H. reflexivity. Qed.

Lemma bind_blocks_forever {A B} (m : M A) (k : A -> M B) (w w' : World) :
  m w = BlocksForever w' -> (m ≫= k) w = BlocksForever w'.
Proof. intros H. unfold mbind, M_bind. rewrite H. reflexivity. Qed.

Lemma bind_panics {A B} (m : M A) (k : A -> M B) (w w' : World) (msg : string) :
  m w = Panics msg w' -> (m ≫= k) w = Panics msg w'.
Proof. intros H. unfold mbind, M_bind. rewrite H. reflexivity. Qed.

Lemma keeps_ret {A} (a : A) (Q : A -> Prop) : Q a -> keeps Inv (mret a) Q.
Proof. intros HQ w HI. split; [exact HI|]. intros a' w' [= <- <-]. exact HQ. Qed.

Lemma keeps_bind {A B} (m : M A) (k : A -> M B) (R : B -> Prop) :
  keeps Inv m (fun a => keeps Inv (k a) R) -> keeps Inv (m ≫= k) R.
Proof.
  intros Hm w HI. destruct (Hm w HI) as [Hw Hret].
  unfold mbind, M_bind. destruct (m w) as [a w1|msg w1|w1|w1|w1] eqn:E;
    simpl in *; try (split; [exact Hw|discriminate]).
  exact (Hret a w1 eq_refl w1 Hw).
Qed.

Lemma keeps_get (Q : World -> Prop) :
  (forall w, Inv w -> Q w) -> keeps Inv get Q.
Proof. intros H w HI. split; [exact HI|]. intros a w' [= <- <-]. auto. Qed.

Lemma keeps_modify (f : World -> World) (Q : unit -> Prop) :
  (forall w, Inv w -> Inv (f w)) -> Q tt -> keeps Inv (modify f) Q.
Proof.
  intros Hf HQ w HI. split; [exact (Hf w HI)|]. intros [] w' _. exact HQ.
Qed.

Lemma keeps_panic {A} (msg : string) (Q : A -> Prop) : keeps Inv (panic msg) Q.
Proof. intros w HI. split; [exact HI|discriminate]. Qed.

Lemma keeps_exit {A} (Q : A -> Prop) : keeps Inv exit Q.
Proof. intros w HI. split; [exact HI|discriminate]. Qed.

Lemma keeps_wait {A} (Q : A -> Prop) : keeps Inv wait Q.
Proof. intros w HI. split; [exact HI|discriminate]. Qed.

Lemma keeps_block_forever {A} (Q : A -> Prop) : keeps Inv block_forever Q.
Proof. intros w HI. split; [exact HI|discriminate]. Qed.

Lemma keeps_chan_op {A} (r : ChanRes A) (Q : A -> Prop) :
  (forall a, r = Proceeds a -> Q a) -> keeps Inv (chan_op r) Q.
Proof.
  intros H. destruct r as [a| |]; simpl.
  - apply keeps_ret. auto.
  - apply keeps_wait.
  - apply keeps_block_forever.
Qed.

Lemma keeps_weaken {A} (m : M A) (Q Q' : A -> Prop) :
  keeps Inv m Q -> (forall a, Q a -> Q' a) -> keeps Inv m Q'.
Proof.
  intros Hm HQ w HI. destruct (Hm w HI) as [Hw Hret]. split; [exact Hw|].
  intros a w' E. eauto.
Qed.

End KeepsRules.

(** Side conditions: the invariant at hand reads only the registries. *)
Create HintDb frames.

Lemma services_only_ambient (J : Runtime.World -> Prop) :
  Invariants.services_only J -> Invariants.ambient J.
Proof. intros H w w' Hs _. exact (H w w' Hs). Qed.

Lemma pools_only_ambient (J : Runtime.World -> Prop) :
  Invariants.pools_only J -> Invariants.ambient J.
Proof. intros H w w' _ Hp. exact (H w w' Hp). Qed.

Lemma ambient_use (J : Runtime.World -> Prop) (w w' : Runtime.World) :
  Invariants.ambient J ->
  Runtime.services w = Runtime.services w' ->
  Runtime.pools w = Runtime.pools w' -> J w -> J w'.
Proof. intros H. apply H. Qed.

Lemma services_only_use (J : Runtime.World -> Prop) (w w' : Runtime.World) :
  Invariants.services_only J ->
  Runtime.services w = Runtime.services w' -> J w -> J w'.
Proof. intros H. apply H. Qed.

#[local] Hint Resolve services_only_ambient pools_only_ambient : frames.

(** [frame] closes the side condition of a write to a field that the
    invariant does not read. *)
Ltac frame :=
  let w := fresh "w" in
  let Hw := fresh "Hw" in
  intros w Hw;
  first
    [ eapply ambient_use; [solve [eauto with frames]| | |exact Hw]; reflexivity
    | eapply services_only_use; [solve [eauto with frames]| |exact Hw];
      reflexivity ].

(** Running monadic code on a symbolic world. *)
Ltac world_simpl :=
  cbn [Runtime.services Runtime.pools Runtime.tcp_conns Runtime.listeners
       Runtime.sockets Runtime.rchans Runtime.files Runtime.listen_error
       Runtime.dial_error Runtime.trace Runtime.set_services Runtime.set_pools
       Runtime.set_tcp_conns Runtime.set_listeners Runtime.set_sockets
       Runtime.set_rchans Runtime.set_trace Runtime.set_files
       Runtime.Conn Runtime.BWriter Runtime.alive Runtime.hconn
       Runtime.sock_addr Runtime.sock_closes Runtime.sock_delivered
       Runtime.sock_write_error Runtime.errors_New
       negb fmap option_fmap option_map default].

Ltac run_m :=
  repeat (progress (unfold Runtime.log, Runtime.emit, Runtime.go, mbind,
                    Runtime.M_bind, mret, Runtime.M_ret, Runtime.get,
                    Runtime.modify, Runtime.panic);
          world_simpl).

Ltac keeps_step :=
  lazymatch goal with
  | |- Invariants.keeps _ (mbind _ _) _ => apply keeps_bind
  | |- Invariants.keeps _ (mret _) _ => apply keeps_ret
  | |- Invariants.keeps _ Runtime.get _ => apply keeps_get; intros ? ?
  | |- Invariants.keeps _ (Runtime.panic _) _ => apply keeps_panic
  | |- Invariants.keeps _ Runtime.exit _ => apply keeps_exit
  | |- Invariants.keeps _ Runtime.wait _ => apply keeps_wait
  | |- Invariants.keeps _ Runtime.block_forever _ => apply keeps_block_forever
  | |- Invariants.keeps _ (Runtime.modify _) _ => apply keeps_modify; [frame|]
  | |- Invariants.keeps _ (match ?x with _ => _ end) _ => destruct x eqn:?
  end.

(** ** Code that leaves the registries alone *)

Section Ambient.
Import Runtime Invariants.
Context (Inv : World -> Prop) (Hamb : ambient Inv).

Lemma keeps_emit (e : Event) (Q : unit -> Prop) : Q tt -> keeps Inv (emit e) Q.
Proof. intros HQ. unfold emit. keeps_step. exact HQ. Qed.

Lemma keeps_log (lvl : LogLevel) (msg : string) (Q : unit -> Prop) :
  Q tt -> keeps Inv (log lvl msg) Q.
Proof.
  intros HQ. unfold log. keeps_step. apply keeps_emit.
  destruct lvl; keeps_step; exact HQ.
Qed.

Lemma keeps_go (t : Task) (Q : unit -> Prop) : Q tt -> keeps Inv (go t) Q.
Proof. apply keeps_emit. Qed.

Lemma keeps_new_socket (addr : string) (Q : nat -> Prop) :
  (forall id, Q id) -> keeps Inv (new_socket addr) Q.
Proof. intros HQ. unfold new_socket. repeat keeps_step. apply HQ. Qed.

Lemma keeps_socket_Close (id : nat) (Q : error -> Prop) :
  (forall e, Q e) -> keeps Inv (socket_Close id) Q.
Proof. intros HQ. unfold socket_Close. repeat keeps_step; apply HQ. Qed.

Lemma keeps_socket_Write (id : nat) (data : string) (Q : error -> Prop) :
  (forall e, Q e) -> keeps Inv (socket_Write id data) Q.
Proof. intros HQ. unfold socket_Write. repeat keeps_step; apply HQ. Qed.

Lemma keeps_ListenTcp (ipport : string) (acc : AcceptorFunc)
    (Q : ptr * error -> Prop) :
  (forall r, Q r) -> keeps Inv (TcpListener.ListenTcp ipport acc) Q.
Proof.
  intros HQ. unfold TcpListener.ListenTcp. repeat keeps_step; [apply HQ|].
  apply keeps_new_socket. intros id. keeps_step. apply keeps_log.
  repeat keeps_step. apply keeps_go. keeps_step. apply HQ.
Qed.

Lemma keeps_TcpListener_Close (l : ptr) (Q : error -> Prop) :
  (forall e, Q e) -> keeps Inv (TcpListener.Close l) Q.
Proof.
  intros HQ. unfold TcpListener.Close. repeat keeps_step.
  apply keeps_log. repeat keeps_step. apply keeps_socket_Close.
  intros e. keeps_step. apply HQ.
Qed.

Lemma keeps_CleanPath (root uri : string) (Q : string * error -> Prop) :
  (forall r, Q r) -> keeps Inv (HttpConnection.CleanPath root uri) Q.
Proof.
  intros HQ. unfold HttpConnection.CleanPath. keeps_step.
  assert (keeps Inv (if String.eqb (GoStrings.TrimSpace root) ""
                   then log Fatal "docroot MUST be set" else mret tt)
            (fun _ => True)) as H.
  { destruct (String.eqb _ _); [apply keeps_log|apply keeps_ret]; exact I. }
  eapply keeps_weaken; [exact H|]. intros _ _.
  destruct (negb _); keeps_step; apply HQ.
Qed.

Lemma keeps_respond (req : ServiceRequest) (resp : Response)
    (Q : unit -> Prop) :
  Q tt -> keeps Inv (Service.respond req resp) Q.
Proof.
  intros HQ. unfold Service.respond. repeat keeps_step.
  apply keeps_chan_op. intros ch _. keeps_step. exact HQ.
Qed.

End Ambient.

Ltac keeps_ambient :=
  first
    [ apply keeps_log; [solve [eauto with frames]|]
    | apply keeps_emit; [solve [eauto with frames]|]
    | apply keeps_go; [solve [eauto with frames]|]
    | apply keeps_new_socket; [solve [eauto with frames]|intros ?]
    | apply keeps_socket_Close; [solve [eauto with frames]|intros ?]
    | apply keeps_socket_Write; [solve [eauto with frames]|intros ?]
    | apply keeps_ListenTcp; [solve [eauto with frames]|intros ?]
    | apply keeps_TcpListener_Close; [solve [eauto with frames]|intros ?]
    | apply keeps_CleanPath; [solve [eauto with frames]|intros ?]
    | apply keeps_respond; [solve [eauto with frames]|] ].

(** ** The pool code leaves the service registry alone *)

Section PoolFrame.
Import Runtime Invariants.
Context (Inv : World -> Prop) (Hso : services_only Inv).

Lemma keeps_Pool_deref (p : string) (Q : Pool -> Prop) :
  (forall pl, Q pl) -> keeps Inv (Pool.deref p) Q.
Proof. intros HQ. unfold Pool.deref. repeat keeps_step. apply HQ. Qed.

Lemma keeps_Pool_store (p : string) (pl : Pool) (Q : unit -> Prop) :
  Q tt -> keeps Inv (Pool.store p pl) Q.
Proof. intros HQ. unfold Pool.store. keeps_step. exact HQ. Qed.

Ltac pool_step :=
  first [ keeps_step | keeps_ambient
        | apply keeps_Pool_deref; intros ?
        | apply keeps_Pool_store ].

Lemma keeps_NewPool (name : string) (Q : option string * error -> Prop) :
  (forall r, Q r) -> keeps Inv (Pool.NewPool name) Q.
Proof. intros HQ. unfold Pool.NewPool. repeat pool_step; apply HQ. Qed.

Lemma keeps_LINE (p : string) (newgen : Z) (reads : list (string * ioerr))
    (Q : unit -> Prop) :
  Q tt -> keeps Inv (Pool.LINE p newgen reads) Q.
Proof.
  intros HQ. induction reads as [|[line err] rest IH]; simpl.
  - keeps_step. exact HQ.
  - destruct err; repeat pool_step; assumption.
Qed.

Lemma keeps_worker_round (p : string) (mtime : Z) (Q : Z * Pool.Round -> Prop) :
  (forall r, Q r) -> keeps Inv (Pool.worker_round p mtime) Q.
Proof.
  intros HQ. unfold Pool.worker_round.
  repeat first [ pool_step | apply keeps_LINE ]; apply HQ.
Qed.

Lemma keeps_worker_start (p : string) (Q : Z -> Prop) :
  (forall r, Q r) -> keeps Inv (Pool.worker_start p) Q.
Proof. intros HQ. unfold Pool.worker_start. repeat pool_step; apply HQ. Qed.

Lemma keeps_updateNodeFile (p nodefile : string) (Q : error -> Prop) :
  (forall r, Q r) -> keeps Inv (Pool.updateNodeFile p nodefile) Q.
Proof. intros HQ. unfold Pool.updateNodeFile. repeat pool_step; apply HQ. Qed.

Lemma keeps_Pool_Set (p key value : string) (Q : error -> Prop) :
  (forall r, Q r) -> keeps Inv (Pool.Set_ p key value) Q.
Proof.
  intros HQ. unfold Pool.Set_.
  repeat first [ apply keeps_updateNodeFile; intros ? | pool_step ]; apply HQ.
Qed.

End PoolFrame.

(** ** No call ever makes a request queue (service.go) *)

Section RequestQueue.
Import Runtime Invariants Props.

Lemma no_queue_services_only : services_only no_queue.
Proof. intros w w' E H s sv. rewrite <- E. apply H. Qed.

#[local] Hint Resolve no_queue_services_only : frames.

Lemma keeps_Service_deref (s : string) (Q : Service -> Prop) :
  (forall sv, requestQueue sv = None -> Q sv) ->
  keeps no_queue (Service.deref s) Q.
Proof.
  intros HQ. unfold Service.deref. repeat keeps_step. apply HQ. eauto.
Qed.

Lemma keeps_Service_store (s : string) (sv : Service) (Q : unit -> Prop) :
  requestQueue sv = None -> Q tt -> keeps no_queue (Service.store s sv) Q.
Proof.
  intros Hsv HQ. unfold Service.store. apply keeps_modify; [|exact HQ].
  intros w Hw s' sv'. simpl. rewrite lookup_insert.
  case_decide; [intros [= <-]; exact Hsv|apply Hw].
Qed.

Ltac service_step :=
  first [ keeps_step | keeps_ambient
        | apply keeps_Service_deref; intros ? ?
        | apply keeps_Service_store; [simpl; assumption|] ].

Lemma keeps_NewService (name : string) (Q : option string * error -> Prop) :
  (forall r, Q r) -> keeps no_queue (Service.NewService name) Q.
Proof.
  intros HQ. unfold Service.NewService. repeat service_step; try apply HQ.
  apply keeps_Service_store; [reflexivity|]. repeat service_step. apply HQ.
Qed.

Lemma keeps_serveFile (s : string) (req : ServiceRequest) (Q : unit -> Prop) :
  Q tt -> keeps no_queue (Service.serveFile s req) Q.
Proof. intros HQ. unfold Service.serveFile. repeat service_step; exact HQ. Qed.

Lemma keeps_requestPump_round (s : string) (Q : Service.Pump -> Prop) :
  keeps no_queue (Service.requestPump_round s) Q.
Proof.
  unfold Service.requestPump_round. repeat service_step.
  match goal with H : requestQueue _ = None |- _ => rewrite H end.
  simpl. apply keeps_block_forever.
Qed.

Lemma keeps_HandleRequest (s : string) (conn : nat) (req : Request)
    (rchan : nat) (Q : error -> Prop) :
  keeps no_queue (Service.HandleRequest s conn req rchan) Q.
Proof.
  unfold Service.HandleRequest. repeat service_step.
  match goal with H : requestQueue _ = None |- _ => rewrite H end.
  simpl. apply keeps_block_forever.
Qed.

Lemma keeps_Enable_loop (s : string)
    (entries : list (string * option ServiceListener)) (Q : unit -> Prop) :
  Q tt -> keeps no_queue (Service.Enable_loop s entries) Q.
Proof.
  intros HQ. induction entries as [|[ipport lstnr] rest IH]; simpl.
  - keeps_step. exact HQ.
  - repeat service_step; exact IH.
Qed.

Lemma keeps_Enable (s : string) (Q : error -> Prop) :
  (forall r, Q r) -> keeps no_queue (Service.Enable s) Q.
Proof.
  intros HQ. unfold Service.Enable.
  repeat first [ apply keeps_Enable_loop | service_step ]. apply HQ.
Qed.

Lemma keeps_setListen_close (s : string)
    (entries : list (string * option ServiceListener)) (Q : unit -> Prop) :
  Q tt -> keeps no_queue (Service.setListen_close s entries) Q.
Proof.
  intros HQ. induction entries as [|[ipport lstnr] rest IH]; simpl.
  - keeps_step. exact HQ.
  - repeat service_step; exact IH.
Qed.

Lemma keeps_setListen_create (s : string) (ipports : list string)
    (acc : AcceptorFunc) (Q : unit -> Prop) :
  Q tt -> keeps no_queue (Service.setListen_create s ipports acc) Q.
Proof.
  intros HQ. induction ipports as [|ipport rest IH]; simpl.
  - keeps_step. exact HQ.
  - repeat service_step; exact IH.
Qed.

Lemma keeps_setListen (s value : string) (acc : AcceptorFunc)
    (Q : error -> Prop) :
  (forall r, Q r) -> keeps no_queue (Service.setListen s value acc) Q.
Proof.
  intros HQ. unfold Service.setListen.
  repeat first [ apply keeps_setListen_close | apply keeps_setListen_create
               | apply keeps_Enable; intros ? | service_step ]; apply HQ.
Qed.

Lemma keeps_Service_Set (s key value : string) (Q : error -> Prop) :
  (forall r, Q r) -> keeps no_queue (Service.Set_ s key value) Q.
Proof.
  intros HQ. unfold Service.Set_.
  repeat first [ apply keeps_setListen; intros ? | service_step ]; apply HQ.
Qed.

Lemma perform_no_queue (c : Control.Call) (w : World) :
  no_queue w -> no_queue (Control.perform c w).
Proof.
  intros Hw.
  destruct c as [name|name|s key value|s|p key value|p|s conn req ch|s|s req
                |p|p mtime]; simpl.
  - apply (keeps_NewService name (fun _ => True)); auto.
  - apply (keeps_NewPool _ no_queue_services_only name (fun _ => True)); auto.
  - apply (keeps_Service_Set s key value (fun _ => True)); auto.
  - apply (keeps_Enable s (fun _ => True)); auto.
  - apply (keeps_Pool_Set _ no_queue_services_only p key value (fun _ => True)); auto.
  - exact Hw.
  - apply (keeps_HandleRequest s conn req ch (fun _ => True)); auto.
  - apply (keeps_requestPump_round s (fun _ => True)); auto.
  - apply (keeps_serveFile s req (fun _ => True)); auto.
  - apply (keeps_worker_start _ no_queue_services_only p (fun _ => True)); auto.
  - apply (keeps_worker_round _ no_queue_services_only p mtime (fun _ => True)); auto.
Qed.

Lemma history_no_queue (calls : list Control.Call) (w : World) :
  no_queue w -> no_queue (Control.history calls w).
Proof.
  revert w. induction calls as [|c calls IH]; intros w Hw; simpl; [exact Hw|].
  apply IH, perform_no_queue, Hw.
Qed.

Lemma boot_no_queue (fs : gmap string File) (le de : string -> error) :
  no_queue (boot fs le de).
Proof. intros s sv. simpl. rewrite lookup_empty. discriminate. Qed.

End RequestQueue.

(** ** The request path (service.go) *)

Section RequestPath.
Import Runtime Props.

Lemma deref_registered (w : World) (s : string) (sv : Service) :
  services w !! s = Some sv -> Service.deref s w = Returns sv w.
Proof. intros H. unfold Service.deref, mbind, M_bind, get. rewrite H. reflexivity. Qed.

(** C1. In every world the process can reach, [HandleRequest] on a
    registered service does not return: [NewService] leaves the request
    queue nil and no call ever makes one, so the send blocks for ever, and so
    does the receive of the dispatch loop. No response is delivered. *)
Theorem HandleRequest_never_returns
    (fs : gmap string File) (le de : string -> error)
    (calls : list Control.Call) (s : string) (sv : Service)
    (conn : nat) (req : Request) (ch : nat) :
  services (Control.history calls (boot fs le de)) !! s = Some sv ->
  Service.HandleRequest s conn req ch (Control.history calls (boot fs le de))
    = BlocksForever (Control.history calls (boot fs le de))
  /\ Service.requestPump_round s (Control.history calls (boot fs le de))
    = BlocksForever (Control.history calls (boot fs le de)).
Proof.
  intros H.
  pose proof (history_no_queue calls _ (boot_no_queue fs le de) s sv H) as Hq.
  unfold Service.HandleRequest, Service.requestPump_round.
  rewrite !(bind_returns _ _ _ _ _ (deref_registered _ _ _ H)).
  rewrite Hq. split; reflexivity.
Qed.

Lemma requestPump_round_webserver
    (w : World) (s : string) (sv : Service) (q : Chan ServiceRequest)
    (req : ServiceRequest) (rest : list ServiceRequest) :
  services w !! s = Some sv ->
  Role sv = ROLE_WEBSERVER ->
  requestQueue sv = Some q ->
  chan_buf q = req :: rest ->
  Service.requestPump_round s w
    = Returns Service.PumpReturned (dispatched w s sv q req rest).
Proof.
  intros Hs Hrole Hq Hbuf.
  unfold Service.requestPump_round.
  rewrite (bind_returns _ _ _ _ _ (deref_registered _ _ _ Hs)).
  rewrite Hq. unfold chan_recv. rewrite Hbuf. simpl.
  rewrite Hrole. reflexivity.
Qed.

(** The [return] after [go s.serveFile(req)], at the level of the function:
    for a service in the web-server role that has a queue with a request
    in it, the dispatch loop takes that request, starts [serveFile] for it
    on a new goroutine, and returns, whatever else is queued. No world the
    process reaches has such a queue, see the lemma after this one. *)
Lemma requestPump_returns_after_first_request
    (w : World) (s : string) (sv : Service) (q : Chan ServiceRequest)
    (req : ServiceRequest) (rest : list ServiceRequest) (rounds : nat) :
  services w !! s = Some sv ->
  Role sv = ROLE_WEBSERVER ->
  requestQueue sv = Some q ->
  chan_buf q = req :: rest ->
  Service.requestPump (S rounds) s w
    = Returns true (dispatched w s sv q req rest).
Proof.
  intros Hs Hrole Hq Hbuf. cbn [Service.requestPump].
  rewrite (bind_returns _ _ _ _ _
             (requestPump_round_webserver _ _ _ _ _ _ Hs Hrole Hq Hbuf)).
  reflexivity.
Qed.

(** In the worlds the process can reach the loop never gets that far: the
    queue of every registered service is nil, so the loop blocks at its
    first receive, whatever the role, and the [return] above is never
    executed. *)
Lemma requestPump_blocks_in_reachable_worlds
    (fs : gmap string File) (le de : string -> error)
    (calls : list Control.Call) (s : string) (sv : Service) (rounds : nat) :
  services (Control.history calls (boot fs le de)) !! s = Some sv ->
  requestQueue sv = None
  /\ Service.requestPump (S rounds) s (Control.history calls (boot fs le de))
     = BlocksForever (Control.history calls (boot fs le de)).
Proof.
  intros H.
  pose proof (history_no_queue calls _ (boot_no_queue fs le de) s sv H) as Hq.
  split; [exact Hq|]. cbn [Service.requestPump].
  apply bind_blocks_forever. unfold Service.requestPump_round.
  rewrite (bind_returns _ _ _ _ _ (deref_registered _ _ _ H)).
  rewrite Hq. reflexivity.
Qed.

(** In the reverse-proxy role a round of the loop takes the request, asks
    the pool for a backend, and drops both: the response channel stays
    empty and nothing is started. *)
Lemma requestPump_round_proxy_drops
    (w : World) (s : string) (sv : Service) (q : Chan ServiceRequest)
    (req : ServiceRequest) (rest : list ServiceRequest) :
  services w !! s = Some sv ->
  Role sv = ROLE_PROXY ->
  requestQueue sv = Some q ->
  chan_buf q = req :: rest ->
  Service.requestPump_round s w
    = Returns Service.PumpNextRound
        (set_services
           <[s := Service.with_requestQueue sv
                    (Some {| chan_cap := chan_cap q; chan_buf := rest |})]> w).
Proof.
  intros Hs Hrole Hq Hbuf.
  unfold Service.requestPump_round.
  rewrite (bind_returns _ _ _ _ _ (deref_registered _ _ _ Hs)).
  rewrite Hq. unfold chan_recv. rewrite Hbuf. simpl.
  rewrite Hrole. reflexivity.
Qed.

Lemma HandleRequest_never_returns_witness :
  let w := Control.history
             [Control.CreateService "web";
              Control.ServiceSet "web" "role" "reverse_proxy";
              Control.ServiceEnable "web"]
             (boot ∅ Samples.no_error Samples.no_error) in
  Service.HandleRequest "web" 0 {| RequestURI := "/" |} 0 w = BlocksForever w
  /\ Service.requestPump_round "web" w = BlocksForever w.
Proof.
  eapply (HandleRequest_never_returns ∅ Samples.no_error Samples.no_error
            [Control.CreateService "web";
             Control.ServiceSet "web" "role" "reverse_proxy";
             Control.ServiceEnable "web"] "web").
  vm_compute. reflexivity.
Defined.

Lemma requestPump_returns_after_first_request_witness :
  exists w',
    Service.requestPump 4 "web"
      (Samples.serving ROLE_WEBSERVER
         [Samples.request "/a" 1; Samples.request "/b" 2])
    = Returns true w'
    /\ Samples.queued "web" w' = [Samples.request "/b" 2]
    /\ trace w' = [EvGo (serveFile_of "web" (Samples.request "/a" 1))].
Proof.
  eexists. split.
  - eapply (requestPump_returns_after_first_request
              (Samples.serving ROLE_WEBSERVER
                 [Samples.request "/a" 1; Samples.request "/b" 2])
              "web" _ _ (Samples.request "/a" 1) [Samples.request "/b" 2] 3);
      [vm_compute; reflexivity|reflexivity|reflexivity|reflexivity].
  - split; vm_compute; reflexivity.
Defined.

End RequestPath.

(** ** The node-list file (pool.go) *)

Section NodeFile.
Import Runtime.

Lemma parse_line_blank (raw : string) :
  GoStrings.TrimSpace raw = "" -> Pool.parse_line raw = None.
Proof.
  intros H. unfold Pool.parse_line. rewrite H. reflexivity.
Qed.

Lemma parse_line_comment (raw rest : string) :
  GoStrings.TrimSpace raw = String "#" rest -> Pool.parse_line raw = None.
Proof.
  intros H. unfold Pool.parse_line. rewrite H. reflexivity.
Qed.

Lemma parse_line_long (raw line : string) :
  Pool.parse_line raw = Some line -> (7 <= GoStrings.len line)%Z.
Proof.
  unfold Pool.parse_line.
  destruct (_ <? 7)%Z eqn:E; [discriminate|].
  intros [= <-]. lia.
Qed.

Lemma IndexByte_ge (s : string) (c : ascii) : (-1 <= GoStrings.IndexByte s c)%Z.
Proof.
  induction s as [|d s IH]; simpl; [lia|].
  destruct (Ascii.eqb d c); [lia|].
  destruct (_ <? 0)%Z eqn:E; lia.
Qed.

Lemma parse_line_plain (raw : string) :
  GoStrings.IndexByte (GoStrings.TrimSpace raw) "#" = (-1)%Z ->
  (7 <= GoStrings.len (GoStrings.TrimSpace raw))%Z ->
  Pool.parse_line raw = Some (GoStrings.TrimSpace raw).
Proof.
  intros Hi Hl. unfold Pool.parse_line. rewrite Hi. simpl.
  destruct (_ <? 7)%Z eqn:E; [lia|reflexivity].
Qed.

Lemma slice_to_len (s : string) (n : Z) :
  (GoStrings.len (GoStrings.slice_to s n) <= GoStrings.len s)%Z.
Proof.
  unfold GoStrings.len, GoStrings.slice_to. apply inj_le.
  generalize (Z.to_nat n). clear n. intros n. revert n.
  induction s as [|c s IH]; intros [|n]; simpl; try lia.
  specialize (IH n). lia.
Qed.

(** X2. A line that is shorter than seven bytes once trimmed, or that
    starts with the comment sign, is skipped; this covers blank lines. *)
Theorem parse_line_skips (raw : string) :
  (GoStrings.len (GoStrings.TrimSpace raw) < 7)%Z
  \/ (exists rest, GoStrings.TrimSpace raw = String "#" rest) ->
  Pool.parse_line raw = None.
Proof.
  intros [H|[rest H]]; [|exact (parse_line_comment raw rest H)].
  unfold Pool.parse_line.
  destruct (_ >? -1)%Z.
  - pose proof (slice_to_len (GoStrings.TrimSpace raw)
                  (GoStrings.IndexByte (GoStrings.TrimSpace raw) "#")).
    destruct (_ <? 7)%Z eqn:E; [reflexivity|lia].
  - destruct (_ <? 7)%Z eqn:E; [reflexivity|lia].
Qed.

Lemma parse_line_skips_witness :
  Pool.parse_line "" = None
  /\ Pool.parse_line "1.2.3" = None
  /\ Pool.parse_line "   # backends of the shop   " = None.
Proof.
  split; [|split].
  - apply parse_line_skips. left. vm_compute. reflexivity.
  - apply parse_line_skips. left. vm_compute. reflexivity.
  - apply parse_line_skips. right. eexists. vm_compute. reflexivity.
Defined.

Lemma pool_deref_registered (w : World) (p : string) (pl : Pool) :
  pools w !! p = Some pl -> Pool.deref p w = Returns pl w.
Proof. intros H. unfold Pool.deref, mbind, M_bind, get. rewrite H. reflexivity. Qed.

(** X3. A round of the worker that finds the node file no newer than the
    one it read last changes nothing: no backend is touched and no
    generation moves. *)
Theorem worker_round_unchanged
    (w : World) (p : string) (pl : Pool) (f : File) (mtime : Z) :
  pools w !! p = Some pl ->
  files w !! nodeFile pl = Some f ->
  (file_mtime f <= mtime)%Z ->
  Pool.worker_round p mtime w = Returns (mtime, Pool.Unchanged) w.
Proof.
  intros Hp Hf Hm. unfold Pool.worker_round.
  rewrite (bind_returns _ _ _ _ _ (pool_deref_registered _ _ _ Hp)).
  unfold mbind, M_bind, get. rewrite Hf.
  destruct (mtime <? file_mtime f)%Z eqn:E; [lia|reflexivity].
Qed.

Lemma worker_round_unchanged_witness :
  Pool.worker_round "p" 5
    (Samples.pool_p (Samples.with_nodes 5 ["10.0.0.1:8080"]))
  = Returns (5%Z, Pool.Unchanged)
      (Samples.pool_p (Samples.with_nodes 5 ["10.0.0.1:8080"])).
Proof.
  eapply (worker_round_unchanged
            (Samples.pool_p (Samples.with_nodes 5 ["10.0.0.1:8080"])) "p");
    [vm_compute; reflexivity|vm_compute; reflexivity|vm_compute; discriminate].
Defined.

(** C6. The line 10.0.0.1:8080 # comment does not parse to the address
    10.0.0.1:8080: white space is trimmed before the comment is cut, so the
    blank in front of the # stays, and a pass over a file with that line
    records a backend whose address ends in a blank. *)
Theorem node_line_comment_leaves_blank :
  Pool.parse_line "10.0.0.1:8080 # comment" = Some "10.0.0.1:8080 "
  /\ Pool.parse_line "10.0.0.1:8080 # comment" <> Some "10.0.0.1:8080"
  /\ exists w,
       Pool.worker_round "p" 0
         (Samples.pool_p (Samples.with_nodes 5 ["10.0.0.1:8080 # comment"]))
       = Returns (5%Z, Pool.Reloaded) w
       /\ Samples.backends_of "p" w = [("10.0.0.1:8080 ", 1%Z)].
Proof.
  split; [reflexivity|]. split; [discriminate|].
  eexists. split; [vm_compute; reflexivity|]. vm_compute. reflexivity.
Qed.

(** *** A pass neither bumps the generation nor removes a backend *)

Lemma reconcile_line_generation (newgen : Z) (raw : string) (pl : Pool) :
  pgeneration (Pool.reconcile_line newgen raw pl) = pgeneration pl.
Proof.
  unfold Pool.reconcile_line. destruct (Pool.parse_line raw); [|reflexivity].
  destruct (Pool.refresh _ _ _); reflexivity.
Qed.

Lemma refresh_addresses (newgen : Z) (line : string) (bs bs' : list Backend) :
  Pool.refresh newgen line bs = Some bs' -> Ipport <$> bs' = Ipport <$> bs.
Proof.
  revert bs'. induction bs as [|b bs IH]; intros bs'; simpl; [discriminate|].
  destruct (String.eqb _ _).
  - intros [= <-]. reflexivity.
  - destruct (Pool.refresh _ _ _) as [r|]; [|discriminate].
    intros [= <-]. simpl. f_equal. apply IH. reflexivity.
Qed.

Lemma reconcile_line_addresses (newgen : Z) (raw : string) (pl : Pool) :
  Props.addresses pl ⊆ Props.addresses (Pool.reconcile_line newgen raw pl).
Proof.
  unfold Pool.reconcile_line, Props.addresses.
  destruct (Pool.parse_line raw) as [line|]; [|done].
  destruct (Pool.refresh _ _ _) as [bs|] eqn:E; simpl.
  - rewrite (refresh_addresses _ _ _ _ E). set_solver.
  - rewrite fmap_app. intros x Hx. apply elem_of_app. left. exact Hx.
Qed.

Section Generations.
Import Invariants Props.
Context (G : gmap string Z).

Lemma gens_are_pools_only : pools_only (gens_are G).
Proof. intros w w' E. unfold gens_are, generations. rewrite E. done. Qed.

#[local] Hint Resolve gens_are_pools_only : frames.

Lemma gens_deref (p : string) (Q : Pool -> Prop) :
  (forall pl, G !! p = Some (pgeneration pl) -> Q pl) ->
  keeps (gens_are G) (Pool.deref p) Q.
Proof.
  intros HQ. unfold Pool.deref. repeat keeps_step. apply HQ.
  match goal with H : gens_are _ _ |- _ => rewrite <- H end.
  unfold generations. rewrite lookup_fmap.
  match goal with H : pools _ !! _ = Some _ |- _ => rewrite H end. done.
Qed.

Lemma gens_store (p : string) (pl : Pool) (Q : unit -> Prop) :
  G !! p = Some (pgeneration pl) -> Q tt -> keeps (gens_are G) (Pool.store p pl) Q.
Proof.
  intros Hg HQ. unfold Pool.store. apply keeps_modify; [|exact HQ].
  intros w Hw. unfold gens_are, generations in *. simpl.
  rewrite fmap_insert, Hw. apply insert_id, Hg.
Qed.

Lemma gens_LINE (p : string) (newgen : Z) (reads : list (string * ioerr))
    (Q : unit -> Prop) :
  Q tt -> keeps (gens_are G) (Pool.LINE p newgen reads) Q.
Proof.
  intros HQ. induction reads as [|[line err] rest IH]; simpl.
  - keeps_step. exact HQ.
  - destruct err.
    + keeps_step. apply gens_deref. intros pl Hpl. keeps_step.
      apply gens_store; [by rewrite reconcile_line_generation|exact IH].
    + keeps_step. apply gens_deref. intros pl Hpl.
      apply gens_store; [by rewrite reconcile_line_generation|exact HQ].
    + keeps_ambient. exact HQ.
Qed.

Lemma gens_worker_round (p : string) (mtime : Z) :
  keeps (gens_are G) (Pool.worker_round p mtime) (fun _ => True).
Proof.
  unfold Pool.worker_round. keeps_step. apply gens_deref. intros pl Hpl.
  repeat first [ keeps_step | keeps_ambient | apply gens_LINE ]; exact I.
Qed.

End Generations.

(** No round of the worker changes the generation of any pool, however the
    round ends. *)
Lemma worker_round_keeps_generations (p : string) (mtime : Z) (w : World) :
  Props.generations (Control.world_of (Pool.worker_round p mtime w))
  = Props.generations w.
Proof.
  apply (gens_worker_round (Props.generations w) p mtime w). reflexivity.
Qed.

Section Retains.
Import Invariants Props.
Context (w0 : World).

Lemma retains_pools_only : pools_only (retains w0).
Proof. intros w w' E H p pl0 Hp. rewrite <- E. exact (H p pl0 Hp). Qed.

#[local] Hint Resolve retains_pools_only : frames.

Lemma retains_deref (p : string) (Q : Pool -> Prop) :
  (forall pl,
      (forall pl0, pools w0 !! p = Some pl0 -> addresses pl0 ⊆ addresses pl) ->
      Q pl) ->
  keeps (retains w0) (Pool.deref p) Q.
Proof.
  intros HQ. unfold Pool.deref. repeat keeps_step. apply HQ.
  intros pl0 Hp0.
  match goal with
  | H : retains _ _ |- _ => destruct (H p pl0 Hp0) as (pl' & E & Hsub)
  end.
  match goal with
  | H : pools _ !! _ = Some ?pl |- _ ⊆ addresses ?pl =>
      rewrite E in H; injection H as <-
  end.
  exact Hsub.
Qed.

Lemma retains_store (p : string) (pl : Pool) (Q : unit -> Prop) :
  (forall pl0, pools w0 !! p = Some pl0 -> addresses pl0 ⊆ addresses pl) ->
  Q tt -> keeps (retains w0) (Pool.store p pl) Q.
Proof.
  intros Hsub HQ. unfold Pool.store. apply keeps_modify; [|exact HQ].
  intros w Hw p' pl0 Hp0. simpl. rewrite lookup_insert. case_decide.
  - subst p'. eauto.
  - apply Hw, Hp0.
Qed.

Lemma retains_LINE (p : string) (newgen : Z) (reads : list (string * ioerr))
    (Q : unit -> Prop) :
  Q tt -> keeps (retains w0) (Pool.LINE p newgen reads) Q.
Proof.
  intros HQ. induction reads as [|[line err] rest IH]; simpl.
  - keeps_step. exact HQ.
  - destruct err.
    + keeps_step. apply retains_deref. intros pl Hpl. keeps_step.
      apply retains_store; [|exact IH].
      intros pl0 Hp0. etrans; [exact (Hpl pl0 Hp0)|apply reconcile_line_addresses].
    + keeps_step. apply retains_deref. intros pl Hpl.
      apply retains_store; [|exact HQ].
      intros pl0 Hp0. etrans; [exact (Hpl pl0 Hp0)|apply reconcile_line_addresses].
    + keeps_ambient. exact HQ.
Qed.

Lemma retains_worker_round (p : string) (mtime : Z) :
  keeps (retains w0) (Pool.worker_round p mtime) (fun _ => True).
Proof.
  unfold Pool.worker_round. keeps_step. apply retains_deref. intros pl Hpl.
  repeat first [ keeps_step | keeps_ambient | apply retains_LINE ]; exact I.
Qed.

End Retains.

(** No round of the worker takes a backend off a pool's list. *)
Lemma worker_round_never_removes (p : string) (mtime : Z) (w : World) :
  Props.retains w (Control.world_of (Pool.worker_round p mtime w)).
Proof.
  apply (retains_worker_round w p mtime w).
  intros q pl0 Hq. exists pl0. split; [exact Hq|done].
Qed.

(** C3. Two passes over a node file that first lists two addresses and then
    only the first: after each pass the pool's generation is still 0 while
    the backends carry generation 1, and the backend that left the file is
    still in the list. *)
Theorem reconciliation_keeps_generation_and_stale_backends :
  exists w1 w2,
    Pool.worker_round "p" 0
      (Samples.pool_p (Samples.with_nodes 1 ["10.0.0.1:8080"; "10.0.0.2:8080"]))
    = Returns (1%Z, Pool.Reloaded) w1
    /\ Samples.generation_of "p" w1 = Some 0%Z
    /\ Samples.backends_of "p" w1 = [("10.0.0.1:8080", 1%Z); ("10.0.0.2:8080", 1%Z)]
    /\ Pool.worker_round "p" 1
         (set_files <["nodes" := Samples.regular 2 (Samples.lines ["10.0.0.1:8080"])]> w1)
       = Returns (2%Z, Pool.Reloaded) w2
    /\ Samples.generation_of "p" w2 = Some 0%Z
    /\ Samples.backends_of "p" w2 = [("10.0.0.1:8080", 1%Z); ("10.0.0.2:8080", 1%Z)].
Proof.
  eexists. eexists.
  split; [vm_compute; reflexivity|].
  split; [vm_compute; reflexivity|].
  split; [vm_compute; reflexivity|].
  split; [vm_compute; reflexivity|].
  split; vm_compute; reflexivity.
Qed.

(** C2. [GetBackend] returns the nil pointer, for every pool and in every
    world, and leaves the world as it was: it hands out neither a
    connection nor an error. *)
Theorem GetBackend_returns_nil (p : option string) (w : World) :
  Pool.GetBackend p w = Returns None w.
Proof. reflexivity. Qed.

End NodeFile.

(** ** Serving files: the docroot guard (http.go) *)

Section DocRoot.
Import Runtime Props.

Lemma CleanPath_returns (root uri p : string) (e : error) (w w' : World) :
  HttpConnection.CleanPath root uri w = Returns (p, e) w' ->
  w' = w
  /\ GoStrings.TrimSpace root <> ""
  /\ (e = None ->
      p = GoPath.Join [GoStrings.TrimSpace root; GoStrings.TrimSpace uri]
      /\ GoStrings.HasPrefix p (GoStrings.TrimSpace root) = true).
Proof.
  unfold HttpConnection.CleanPath, mbind, M_bind.
  destruct (String.eqb_spec (GoStrings.TrimSpace root) "") as [E|E].
  - discriminate.
  - simpl. destruct (GoStrings.HasPrefix _ _) eqn:Hp; simpl.
    + intros [= <- <- <-]. auto.
    + intros [= <- <- <-]. split; [reflexivity|]. split; [exact E|discriminate].
Qed.

(** C7. A path that [CleanPath] returns without error starts with the
    trimmed root as a string, and that is all: for the root /srv/www and the
    URI /../www-secret/x it returns /srv/www-secret/x, which is not under
    the directory /srv/www. *)
Theorem CleanPath_guards_prefix_only (w : World) :
  (forall root uri p w',
      HttpConnection.CleanPath root uri w = Returns (p, None) w' ->
      GoStrings.HasPrefix p (GoStrings.TrimSpace root) = true)
  /\ HttpConnection.CleanPath "/srv/www" "/../www-secret/x" w
     = Returns ("/srv/www-secret/x", None) w
  /\ under_dir "/srv/www" "/srv/www-secret/x" = false.
Proof.
  split; [|split; reflexivity].
  intros root uri p w' H.
  destruct (CleanPath_returns _ _ _ _ _ _ H) as (_ & _ & Hp).
  apply Hp. reflexivity.
Qed.

Lemma CleanPath_guards_prefix_only_witness :
  GoStrings.HasPrefix "/srv/www-secret/x" (GoStrings.TrimSpace "/srv/www") = true
  /\ under_dir "/srv/www" "/srv/www-secret/x" = false.
Proof.
  split.
  - apply (proj1 (CleanPath_guards_prefix_only Samples.bare)
             "/srv/www" "/../www-secret/x" "/srv/www-secret/x" Samples.bare).
    reflexivity.
  - apply (proj2 (proj2 (CleanPath_guards_prefix_only Samples.bare))).
Defined.

(** The guard does stop a URI that climbs out of the root altogether:
    for the root /srv/www and the URI /../../etc/passwd [CleanPath] returns
    the escape error and no path. *)
Lemma CleanPath_rejects_etc_passwd (w : World) :
  HttpConnection.CleanPath "/srv/www" "/../../etc/passwd" w
  = Returns ("", Some "URI escaped from root") w.
Proof. reflexivity. Qed.

End DocRoot.

(** ** The registries (service.go, pool.go) *)

Section Registries.
Import Runtime Props.

(** C9. Creating a service under a name that is taken fails with the
    duplicate-name error and changes nothing in the world, and so does
    creating a pool; a free name in one registry can be taken whatever the
    other registry holds under it, and the other registry is left as it
    was. *)
Theorem duplicate_names_are_rejected (w : World) (n : string) :
  (forall sv, services w !! n = Some sv ->
     Service.NewService n w = Returns (None, Some (service_exists n)) w)
  /\ (forall pl, pools w !! n = Some pl ->
     Pool.NewPool n w = Returns (None, Some (pool_exists n)) w)
  /\ (services w !! n = None ->
     exists w', Service.NewService n w = Returns (Some n, None) w'
       /\ is_Some (services w' !! n)
       /\ (forall m, m <> n -> services w' !! m = services w !! m)
       /\ pools w' = pools w)
  /\ (pools w !! n = None ->
     exists w', Pool.NewPool n w = Returns (Some n, None) w'
       /\ is_Some (pools w' !! n)
       /\ (forall m, m <> n -> pools w' !! m = pools w !! m)
       /\ services w' = services w).
Proof.
  repeat split.
  - intros sv H. unfold Service.NewService, mbind, M_bind, get. rewrite H.
    reflexivity.
  - intros pl H. unfold Pool.NewPool, mbind, M_bind, get. rewrite H.
    reflexivity.
  - intros H. unfold Service.NewService, mbind, M_bind, get. rewrite H.
    simpl. eexists. split; [reflexivity|]. simpl.
    split; [rewrite lookup_insert_eq; eauto|].
    split; [|reflexivity]. intros m Hm. apply lookup_insert_ne. congruence.
  - intros H. unfold Pool.NewPool, mbind, M_bind, get. rewrite H.
    simpl. eexists. split; [reflexivity|]. simpl.
    split; [rewrite lookup_insert_eq; eauto|].
    split; [|reflexivity]. intros m Hm. apply lookup_insert_ne. congruence.
Qed.

Lemma duplicate_names_are_rejected_witness :
  let w := Control.history [Control.CreateService "a"] Samples.bare in
  Service.NewService "a" w = Returns (None, Some "service 'a' already exists") w
  /\ exists w', Pool.NewPool "a" w = Returns (Some "a", None) w'
       /\ is_Some (pools w' !! "a")
       /\ (forall m, m <> "a" -> pools w' !! m = pools w !! m)
       /\ services w' = services w.
Proof.
  split.
  - eapply (proj1 (duplicate_names_are_rejected
                     (Control.history [Control.CreateService "a"] Samples.bare)
                     "a")).
    vm_compute. reflexivity.
  - apply (proj2 (proj2 (proj2 (duplicate_names_are_rejected
                     (Control.history [Control.CreateService "a"] Samples.bare)
                     "a")))).
    vm_compute. reflexivity.
Defined.

End Registries.

(** ** Changing the listen addresses (service.go, listener.go) *)

Section Listen.
Import Runtime Props.

Lemma all_unbound_head (sv : Service) :
  (0 <? size (Listeners sv))%nat = true ->
  all_unbound sv = true ->
  exists ipport acc rest,
    map_to_list (Listeners sv)
    = (ipport, Some {| Listener := None; Acceptor := acc |}) :: rest.
Proof.
  unfold all_unbound. rewrite <- length_map_to_list.
  destruct (map_to_list (Listeners sv)) as [|[ipport l] rest]; simpl.
  - discriminate.
  - intros _ H. apply andb_prop in H as [H _].
    destruct l as [[[a|] acc]|]; try discriminate. eauto.
Qed.

(** C10. [Set] with the key listen on a service whose listen addresses are
    configured and not bound does not complete: after the warning, the
    first loop of [setListen] calls [Close] on a nil [TcpListener], which
    dereferences it, and the call panics. *)
Theorem setListen_panics_on_unbound_listeners
    (w : World) (s : string) (sv : Service) (value : string) :
  services w !! s = Some sv ->
  (0 <? size (Listeners sv))%nat = true ->
  all_unbound sv = true ->
  Service.Set_ s "listen" value w
  = Panics nil_dereference
      (set_trace
         (fun t => (t ++ [EvLog Warn ("changing existing listeners on service "
                                      ++ SName sv)])%list) w).
Proof.
  intros Hs Hsize Hun.
  destruct (all_unbound_head sv Hsize Hun) as (ipport & acc & rest & Hl).
  unfold Service.Set_.
  rewrite (bind_returns _ _ _ _ _ (deref_registered _ _ _ Hs)).
  cbn [String.eqb Ascii.eqb Bool.eqb]. unfold Service.setListen.
  rewrite (bind_returns _ _ _ _ _ (deref_registered _ _ _ Hs)).
  rewrite Hsize, Hl. reflexivity.
Qed.

Lemma setListen_panics_on_unbound_listeners_witness :
  exists w',
    Service.Set_ "web" "listen" "127.0.0.1:8081"
      (Control.history
         [Control.CreateService "web";
          Control.ServiceSet "web" "listen" "127.0.0.1:8080"] Samples.bare)
    = Panics nil_dereference w'.
Proof.
  eexists.
  eapply (setListen_panics_on_unbound_listeners
            (Control.history
               [Control.CreateService "web";
                Control.ServiceSet "web" "listen" "127.0.0.1:8080"] Samples.bare)
            "web");
    vm_compute; reflexivity.
Defined.

Lemma Enable_loop_all_bound (w : World) (s : string)
    (entries : list (string * option ServiceListener)) :
  forallb (fun e => match e.2 with
                    | Some sl => match Listener sl with
                                 | Some _ => true
                                 | None => false
                                 end
                    | None => false
                    end) entries = true ->
  Service.Enable_loop s entries w = Returns tt w.
Proof.
  induction entries as [|[ipport lstnr] rest IH]; simpl; [reflexivity|].
  intros H. apply andb_prop in H as [H Hrest].
  destruct lstnr as [[[l|] acc]|]; try discriminate. simpl. exact (IH Hrest).
Qed.

(** X4. [Enable] leaves the listeners that are bound alone: on a service
    whose listen addresses are all bound it binds nothing and only sets the
    enabled flag. *)
Theorem Enable_keeps_bound_listeners (w : World) (s : string) (sv : Service) :
  services w !! s = Some sv ->
  all_bound sv = true ->
  Service.Enable s w
  = Returns None (set_services <[s := Service.with_Enabled sv true]> w).
Proof.
  intros Hs Hb. unfold Service.Enable.
  rewrite (bind_returns _ _ _ _ _ (deref_registered _ _ _ Hs)).
  rewrite (bind_returns _ _ _ _ _ (Enable_loop_all_bound w s _ Hb)).
  rewrite (bind_returns _ _ _ _ _ (deref_registered _ _ _ Hs)).
  reflexivity.
Qed.

Lemma Enable_keeps_bound_listeners_witness :
  exists sv,
    services (Control.history
                [Control.CreateService "web";
                 Control.ServiceSet "web" "listen" "127.0.0.1:8080";
                 Control.ServiceEnable "web"] Samples.bare) !! "web" = Some sv
    /\ Service.Enable "web"
         (Control.history
            [Control.CreateService "web";
             Control.ServiceSet "web" "listen" "127.0.0.1:8080";
             Control.ServiceEnable "web"] Samples.bare)
       = Returns None
           (set_services <["web" := Service.with_Enabled sv true]>
              (Control.history
                 [Control.CreateService "web";
                  Control.ServiceSet "web" "listen" "127.0.0.1:8080";
                  Control.ServiceEnable "web"] Samples.bare)).
Proof.
  eexists. split; [vm_compute; reflexivity|].
  eapply Enable_keeps_bound_listeners; vm_compute; reflexivity.
Defined.

(** X5. A role that is none of the three known ones is refused and the
    service stays as it was. *)
Theorem Set_invalid_role_changes_nothing
    (w : World) (s : string) (sv : Service) (value : string) :
  services w !! s = Some sv ->
  value <> "web_server" -> value <> "management" -> value <> "reverse_proxy" ->
  Service.Set_ s "role" value w
  = Returns (Some ("invalid role '" ++ value ++ "'")) w.
Proof.
  intros Hs H1 H2 H3. unfold Service.Set_.
  rewrite (bind_returns _ _ _ _ _ (deref_registered _ _ _ Hs)).
  cbn [String.eqb Ascii.eqb Bool.eqb].
  destruct (String.eqb_spec value "web_server"); [contradiction|].
  destruct (String.eqb_spec value "management"); [contradiction|].
  destruct (String.eqb_spec value "reverse_proxy"); [contradiction|].
  reflexivity.
Qed.

Lemma Set_invalid_role_changes_nothing_witness :
  Service.Set_ "web" "role" "proxy"
    (Control.history [Control.CreateService "web"] Samples.bare)
  = Returns (Some "invalid role 'proxy'")
      (Control.history [Control.CreateService "web"] Samples.bare).
Proof.
  eapply (Set_invalid_role_changes_nothing
            (Control.history [Control.CreateService "web"] Samples.bare)
            "web" _ "proxy");
    [vm_compute; reflexivity|discriminate|discriminate|discriminate].
Defined.

End Listen.

(** ** Closing connections (conn.go, http.go) *)

Section Closing.
Import Runtime Props.

Lemma append_empty_r (s : string) : s ++ "" = s.
Proof.
  induction s as [|c s IH]; [reflexivity|].
  change (String c (s ++ "") = String c s). rewrite IH. reflexivity.
Qed.

Lemma Close_dead (w : World) (c : nat) (conn : TcpConnection) :
  tcp_conns w !! c = Some conn -> alive conn = false ->
  TcpConnection.Close (Some c) w
  = Returns (Some "TcpConnection already closed") w.
Proof.
  intros Hc Ha. unfold TcpConnection.Close. run_m. rewrite Hc, Ha. reflexivity.
Qed.

(** The first [Close] of a live connection: it returns, the connection is
    dead afterwards, the socket has seen one more [Close], the buffered
    bytes were delivered if the socket took them, and a failed flush is in
    the log. *)
Lemma Close_alive (w : World) (c : nat) (conn : TcpConnection) (s : Socket) :
  tcp_conns w !! c = Some conn ->
  alive conn = true ->
  sockets w !! Conn conn = Some s ->
  exists e1 w1 conn1,
    TcpConnection.Close (Some c) w = Returns e1 w1
    /\ tcp_conns w1 !! c = Some conn1 /\ alive conn1 = false
    /\ closes (Conn conn) w1 = S (closes (Conn conn) w)
    /\ (write_failure s = None ->
        delivered (Conn conn) w1 = delivered (Conn conn) w ++ BWriter conn)
    /\ (forall e, BWriter conn <> "" -> write_failure s = Some e ->
          logged Error ("failed flush: " ++ e) w1).
Proof.
  intros Hc Ha Hs. unfold TcpConnection.Close, TcpConnection.Flush.
  unfold closes, delivered, logged. rewrite Hs.
  run_m. rewrite Hc, Ha. world_simpl.
  destruct (String.eqb_spec (BWriter conn) "") as [Eb|Eb].
  - unfold socket_Close. run_m. rewrite Hs. world_simpl.
    eexists _, _, _. split; [reflexivity|]. world_simpl.
    rewrite !lookup_insert_eq. world_simpl.
    split; [reflexivity|]. split; [reflexivity|]. split; [reflexivity|].
    split.
    + intros _. rewrite Eb, append_empty_r. reflexivity.
    + intros e Hne. contradiction.
  - unfold socket_Write, socket_Close. run_m. rewrite Hs.
    destruct (write_failure s) as [e|] eqn:Ee; world_simpl.
    + rewrite Hs. world_simpl. eexists _, _, _. split; [reflexivity|].
      world_simpl. rewrite !lookup_insert_eq. world_simpl.
      split; [reflexivity|]. split; [reflexivity|]. split; [reflexivity|].
      split; [discriminate|]. intros e' _ [= <-].
      apply elem_of_app. left. apply elem_of_app. right.
      apply list_elem_of_singleton. reflexivity.
    + rewrite !lookup_insert_eq. world_simpl.
      eexists _, _, _. split; [reflexivity|]. world_simpl.
      rewrite !lookup_insert_eq. world_simpl.
      split; [reflexivity|]. split; [reflexivity|]. split; [reflexivity|].
      split; [reflexivity|]. discriminate.
Qed.

(** [Close] of an [HttpConnection]: the call reaches the socket, every
    time, and nothing is written to it. *)
Lemma HttpConnection_Close_hard (w : World) (h : HttpConnection) (s : Socket) :
  sockets w !! hconn h = Some s ->
  exists e w1,
    HttpConnection.Close h w = Returns e w1
    /\ closes (hconn h) w1 = S (closes (hconn h) w)
    /\ delivered (hconn h) w1 = delivered (hconn h) w.
Proof.
  intros Hs. unfold HttpConnection.Close, socket_Close, closes, delivered.
  run_m. rewrite Hs. world_simpl. eexists _, _. split; [reflexivity|].
  world_simpl. rewrite !lookup_insert_eq. world_simpl. split; reflexivity.
Qed.

(** C8, the claim at an [HttpConnection]. Closing it twice calls [Close] on
    its socket twice, and the bytes in its write buffer never reach the
    socket. *)
Lemma HttpConnection_Close_twice_reaches_socket_twice :
  ~ closes_once (HttpConnection.Close (Samples.http_conn "HTTP/1.0 200 OK")) 1
      (Samples.connected "" None)
  /\ ~ close_flushes (HttpConnection.Close (Samples.http_conn "HTTP/1.0 200 OK")) 1
        "HTTP/1.0 200 OK" (Samples.connected "" None).
Proof.
  split.
  - intros (e1 & e2 & w1 & w2 & H1 & H2 & _ & Hc).
    vm_compute in H1. injection H1 as <- <-.
    vm_compute in H2. injection H2 as <- <-.
    vm_compute in Hc. discriminate.
  - intros (e1 & w1 & H1 & Hd).
    vm_compute in H1. injection H1 as <- <-.
    vm_compute in Hd. discriminate.
Qed.

(** C8, amended. Closing a live [TcpConnection] twice: the first call
    returns after calling [Close] on the socket once, having delivered the
    buffered bytes if the socket took them and logged the failure if it did
    not; the second call returns the already-closed error and leaves the
    world, the socket included, as it was. [Close] of an [HttpConnection] is
    a hard close: each call goes to the socket and nothing is flushed. *)
Theorem Close_twice_reaches_socket_once (w : World) :
  (forall c conn s,
      tcp_conns w !! c = Some conn ->
      alive conn = true ->
      sockets w !! Conn conn = Some s ->
      exists e1 w1,
        TcpConnection.Close (Some c) w = Returns e1 w1
        /\ TcpConnection.Close (Some c) w1
           = Returns (Some "TcpConnection already closed") w1
        /\ closes (Conn conn) w1 = S (closes (Conn conn) w)
        /\ closes_once (TcpConnection.Close (Some c)) (Conn conn) w
        /\ (write_failure s = None ->
            close_flushes (TcpConnection.Close (Some c)) (Conn conn)
              (BWriter conn) w)
        /\ (forall e, BWriter conn <> "" -> write_failure s = Some e ->
              logged Error ("failed flush: " ++ e) w1))
  /\ (forall h s,
      sockets w !! hconn h = Some s ->
      exists e w1,
        HttpConnection.Close h w = Returns e w1
        /\ closes (hconn h) w1 = S (closes (hconn h) w)
        /\ delivered (hconn h) w1 = delivered (hconn h) w).
Proof.
  split; [|apply HttpConnection_Close_hard].
  intros c conn s Hc Ha Hs.
  destruct (Close_alive w c conn s Hc Ha Hs)
    as (e1 & w1 & conn1 & H1 & Hc1 & Ha1 & Hcl & Hfl & Hlog).
  pose proof (Close_dead w1 c conn1 Hc1 Ha1) as H2.
  exists e1, w1. repeat split; try assumption.
  - exists e1, (Some "TcpConnection already closed"), w1, w1.
    repeat split; try assumption. eauto.
  - intros He. exists e1, w1. split; [assumption|]. apply Hfl; assumption.
Qed.

Lemma Close_twice_reaches_socket_once_witness :
  (exists e1 w1,
      TcpConnection.Close (Some 1%nat) (Samples.connected "bye" None)
      = Returns e1 w1
      /\ TcpConnection.Close (Some 1%nat) w1
         = Returns (Some "TcpConnection already closed") w1
      /\ closes 1 w1 = 1%nat
      /\ delivered 1 w1 = "bye")
  /\ (exists e1 w1,
      TcpConnection.Close (Some 1%nat)
        (Samples.connected "bye" (Some "broken pipe"))
      = Returns e1 w1
      /\ closes 1 w1 = 1%nat
      /\ logged Error "failed flush: broken pipe" w1).
Proof.
  split.
  - destruct (proj1 (Close_twice_reaches_socket_once
                       (Samples.connected "bye" None))
                1%nat {| Conn := 1; BWriter := "bye"; alive := true |}
                {| sock_addr := "10.1.1.1:40000"; sock_closes := 0;
                   sock_delivered := ""; sock_write_error := None |}
                eq_refl eq_refl eq_refl)
      as (e1 & w1 & H1 & H2 & Hc & _ & Hf & _).
    exists e1, w1. split; [exact H1|]. split; [exact H2|]. split; [exact Hc|].
    destruct (Hf eq_refl) as (e & w' & H1' & Hd).
    rewrite H1 in H1'. injection H1' as _ <-. exact Hd.
  - destruct (proj1 (Close_twice_reaches_socket_once
                       (Samples.connected "bye" (Some "broken pipe")))
                1%nat {| Conn := 1; BWriter := "bye"; alive := true |}
                {| sock_addr := "10.1.1.1:40000"; sock_closes := 0;
                   sock_delivered := "";
                   sock_write_error := Some "broken pipe" |}
                eq_refl eq_refl eq_refl)
      as (e1 & w1 & H1 & _ & Hc & _ & _ & Hl).
    exists e1, w1. split; [exact H1|]. split; [exact Hc|].
    apply (Hl "broken pipe"); [discriminate|reflexivity].
Defined.

End Closing.

(** ** Overlapping calls of [Backend.Connect] (pool.go) *)

Section Connecting.
Import Runtime Connect.

Lemma count_cons (f : pc -> bool) (p : pc) (l : list pc) :
  count f (p :: l) = (Nat.b2n (f p) + count f l)%nat.
Proof. unfold count. simpl. destruct (f p); reflexivity. Qed.

Lemma count_app (f : pc -> bool) (l l' : list pc) :
  count f (l ++ l')%list = (count f l + count f l')%nat.
Proof.
  induction l as [|p l IH]; [reflexivity|].
  change ((p :: l) ++ l')%list with (p :: (l ++ l'))%list.
  rewrite !count_cons, IH. lia.
Qed.

Lemma count_insert (f : pc -> bool) (l : list pc) (i : nat) (old new : pc) :
  l !! i = Some old ->
  (count f (<[i := new]> l) + Nat.b2n (f old) = count f l + Nat.b2n (f new))%nat.
Proof.
  revert i. induction l as [|p l IH]; intros [|i] H; try discriminate.
  - injection H as ->. simpl. rewrite !count_cons. lia.
  - simpl in *. rewrite !count_cons. specialize (IH i H). lia.
Qed.

Lemma count_replicate (f : pc -> bool) (n : nat) (p : pc) :
  count f (replicate n p) = (n * Nat.b2n (f p))%nat.
Proof.
  induction n as [|n IH]; [reflexivity|]. simpl replicate.
  rewrite count_cons, IH. lia.
Qed.

Lemma init_sound (b : Backend) (n : nat) :
  connecting b = None -> sound n (init b n).
Proof.
  intros Hb. unfold sound, dials, spawned. simpl.
  rewrite !count_replicate. simpl. repeat split; try assumption; lia.
Qed.

Lemma move_sound (n : nat) (st : State) (i : nat) (old new : pc) (m : bool) :
  sound n st ->
  threads st !! i = Some old ->
  is_connect new = is_connect old ->
  past_go new = past_go old ->
  sound n (move st i new m).
Proof.
  intros (Hb & Hd & Hs & Hg & Hc) Hi Hco Hpa.
  pose proof (count_insert is_connect _ _ _ new Hi) as E1.
  pose proof (count_insert past_go _ _ _ new Hi) as E2.
  pose proof (count_insert is_goroutine _ _ _ new Hi) as E3.
  assert (is_goroutine new = is_goroutine old) as Hgo
    by (unfold is_goroutine; rewrite Hco; reflexivity).
  unfold sound, dials, spawned in *. simpl.
  rewrite Hco in E1. rewrite Hpa in E2. rewrite Hgo in E3.
  repeat split; try assumption; lia.
Qed.

Lemma step_sound (n : nat) (i : nat) (st st' : State) :
  sound n st -> step i st = Some st' -> sound n st'.
Proof.
  intros Hst. unfold step.
  destruct (threads st !! i) as [p|] eqn:Hi; [|discriminate].
  destruct p.
  - destruct (connectMutex st); [discriminate|]. intros [= <-].
    eapply move_sound; eauto.
  - destruct Hst as (Hb & Hrest). rewrite Hb. intros [= <-].
    eapply move_sound; [split|..]; eauto.
  - intros [= <-].
    destruct Hst as (Hb & Hd & Hs & Hg & Hc).
    pose proof (count_insert is_connect _ _ _ c_unlock Hi) as E1.
    pose proof (count_insert past_go _ _ _ c_unlock Hi) as E2.
    pose proof (count_insert is_goroutine _ _ _ c_unlock Hi) as E3.
    unfold sound, dials, spawned in *. simpl in *.
    rewrite !List.filter_app, !length_app, !count_app. simpl.
    change (count is_connect [g_lock]) with 0%nat.
    change (count past_go [g_lock]) with 0%nat.
    change (count is_goroutine [g_lock]) with 1%nat.
    repeat split; try assumption; lia.
  - intros [= <-]. eapply move_sound; eauto.
  - discriminate.
  - destruct (connectMutex st); [discriminate|]. intros [= <-].
    eapply move_sound; eauto.
  - intros [= <-]. eapply move_sound; eauto.
  - discriminate.
Qed.

Lemma run_sound (n : nat) (schedule : list nat) (st st' : State) :
  sound n st -> run schedule st = Some st' -> sound n st'.
Proof.
  revert st. induction schedule as [|i rest IH]; intros st Hst; simpl.
  - intros [= <-]. exact Hst.
  - destruct (step i st) as [st1|] eqn:E; [|discriminate]. simpl.
    apply IH. eapply step_sound; eauto.
Qed.

Lemma quiescent_past_go (l : list pc) :
  forallb over l = true -> count past_go l = count is_connect l.
Proof.
  induction l as [|p l IH]; [reflexivity|]. simpl. intros H.
  apply andb_prop in H as [Hp Hl]. rewrite !count_cons, (IH Hl).
  destruct p; try discriminate; reflexivity.
Qed.

(** C5. However [n] overlapping calls of [Connect] on a backend with no
    connection in progress are interleaved, no dial is ever attempted, and
    once every thread has run to its end each call has started a goroutine
    of its own: for two calls that is two goroutines and no dial. *)
Theorem Connect_never_dials (b : Backend) (n : nat) (schedule : list nat)
    (st : State) :
  connecting b = None ->
  run schedule (init b n) = Some st ->
  dials st = O /\ (quiescent st = true -> spawned st = n).
Proof.
  intros Hb Hrun.
  destruct (run_sound n schedule _ st (init_sound b n Hb) Hrun)
    as (_ & Hd & Hs & Hg & Hc).
  split; [exact Hd|]. intros Hq. unfold quiescent in Hq.
  rewrite Hs, Hg, (quiescent_past_go _ Hq). exact Hc.
Qed.

Lemma Connect_never_dials_witness :
  exists st,
    run [0; 0; 0; 0; 1; 1; 1; 1; 3; 3; 2; 2]%nat
      (init (Samples.backend_at "10.0.0.1:8080") 2) = Some st
    /\ quiescent st = true
    /\ dials st = O
    /\ spawned st = 2%nat.
Proof.
  eexists. split; [vm_compute; reflexivity|]. split; [reflexivity|].
  destruct (Connect_never_dials (Samples.backend_at "10.0.0.1:8080") 2
              [0; 0; 0; 0; 1; 1; 1; 1; 3; 3; 2; 2]%nat _ eq_refl eq_refl)
    as [Hd Hs].
  split; [exact Hd|]. apply Hs. reflexivity.
Defined.

End Connecting.

(** ** What a call returns *)

Section Refusals.
Import Runtime MoreProps.

Lemma returns_only_ret {A} (a : A) (Q : A -> Prop) :
  Q a -> returns_only (mret a) Q.
Proof. intros H w a' w' [= <- <-]. exact H. Qed.

Lemma returns_only_bind {A B} (m : M A) (k : A -> M B) (Q : B -> Prop) :
  (forall a, returns_only (k a) Q) -> returns_only (m ≫= k) Q.
Proof.
  intros H w b w'. unfold mbind, M_bind.
  destruct (m w) as [a w1| | | |]; try discriminate. apply H.
Qed.

Lemma bind_inv {A B} (m : M A) (k : A -> M B) (w w' : World) (b : B) :
  (m ≫= k) w = Returns b w' ->
  exists a w1, m w = Returns a w1 /\ k a w1 = Returns b w'.
Proof.
  unfold mbind, M_bind. destruct (m w) as [a w1| | | |]; try discriminate.
  eauto.
Qed.

Lemma Service_deref_inv (s : string) (w w' : World) (sv : Service) :
  Service.deref s w = Returns sv w' -> w' = w /\ services w !! s = Some sv.
Proof.
  unfold Service.deref, mbind, M_bind, get.
  destruct (services w !! s); [|discriminate]. intros [= <- <-]. auto.
Qed.

Lemma Pool_deref_inv (p : string) (w w' : World) (pl : Pool) :
  Pool.deref p w = Returns pl w' -> w' = w /\ pools w !! p = Some pl.
Proof.
  unfold Pool.deref, mbind, M_bind, get.
  destruct (pools w !! p); [|discriminate]. intros [= <- <-]. auto.
Qed.

Lemma setListen_returns_nil (s value : string) (acc : AcceptorFunc) :
  returns_only (Service.setListen s value acc) (fun r => r = None).
Proof.
  unfold Service.setListen.
  repeat (apply returns_only_bind; intros ?).
  apply returns_only_ret. reflexivity.
Qed.

Lemma Enable_returns_nil (s : string) :
  returns_only (Service.Enable s) (fun r => r = None).
Proof.
  unfold Service.Enable.
  repeat (apply returns_only_bind; intros ?).
  apply returns_only_ret. reflexivity.
Qed.

Lemma Service_Set_error (s key value : string) (w w' : World) (e : string) :
  Service.Set_ s key value w = Returns (Some e) w' -> w' = w.
Proof.
  unfold Service.Set_. intros H.
  apply bind_inv in H as (sv & w1 & Hd & H).
  apply Service_deref_inv in Hd as [-> Hs].
  destruct (String.eqb key "listen").
  { apply setListen_returns_nil in H. discriminate. }
  destruct (String.eqb key "role").
  { repeat (destruct (String.eqb value _);
            [apply bind_inv in H as (? & ? & _ & [= ]) |]).
    injection H as _ <-. reflexivity. }
  destruct (String.eqb key "docroot").
  { unfold mbind, M_bind, get in H.
    destruct (files w !! _) as [fi|]; [|injection H as _ <-; reflexivity].
    destruct (negb (file_is_dir fi)); [injection H as _ <-; reflexivity|].
    discriminate. }
  destruct (String.eqb key "pool").
  { unfold mbind, M_bind, get in H.
    destruct (pools w !! _); [discriminate|]. injection H as _ <-. reflexivity. }
  apply bind_inv in H as (? & ? & _ & [= ]).
Qed.

Lemma updateNodeFile_error (p nodefile : string) (w w' : World) (e : string) :
  Pool.updateNodeFile p nodefile w = Returns (Some e) w' -> w' = w.
Proof.
  unfold Pool.updateNodeFile. intros H.
  unfold mbind at 1, M_bind, get in H.
  destruct (files w !! _) as [f|]; [|injection H as _ <-; reflexivity].
  destruct (file_is_dir f); [injection H as _ <-; reflexivity|].
  apply bind_inv in H as (pl & w1 & _ & H).
  destruct (nodeFileLock pl); [discriminate|].
  apply bind_inv in H as (? & ? & _ & [= ]).
Qed.

Lemma Pool_Set_error (p key value : string) (w w' : World) (e : string) :
  Pool.Set_ p key value w = Returns (Some e) w' -> w' = w.
Proof.
  unfold Pool.Set_. destruct (String.eqb key "nodefile").
  - apply updateNodeFile_error.
  - intros H. apply bind_inv in H as (pl & w1 & _ & H).
    apply bind_inv in H as (? & ? & _ & [= ]).
Qed.

(** X1. A [Set] that is refused changes nothing: when [Set] on a service or
    on a pool returns an error, the world is as it was before the call. *)
Theorem Set_error_changes_nothing
    (name key value : string) (w w' : World) (e : string) :
  Service.Set_ name key value w = Returns (Some e) w'
  \/ Pool.Set_ name key value w = Returns (Some e) w' ->
  w' = w.
Proof.
  intros [H|H]; [exact (Service_Set_error _ _ _ _ _ _ H)
                |exact (Pool_Set_error _ _ _ _ _ _ H)].
Qed.

Lemma Set_error_changes_nothing_witness :
  exists w',
    Service.Set_ "web" "pool" "nowhere"
      (Control.history [Control.CreateService "web"] Samples.bare)
    = Returns (Some "pool 'nowhere' not found") w'
    /\ w' = Control.history [Control.CreateService "web"] Samples.bare.
Proof.
  eexists. split; [vm_compute; reflexivity|].
  eapply (Set_error_changes_nothing "web" "pool" "nowhere").
  left. vm_compute. reflexivity.
Defined.

End Refusals.

(** ** Listening (service.go) *)

Section Listening.
Import Runtime MoreProps.

Lemma configured_lookup (acc : AcceptorFunc) (ipports : list string)
    (ls : gmap string (option ServiceListener)) (k : string) :
  configured acc ipports ls !! k
  = if decide (k ∈ GoStrings.TrimSpace <$> ipports)
    then Some (Some {| Listener := None; Acceptor := acc |})
    else ls !! k.
Proof.
  unfold configured. revert ls.
  induction ipports as [|a rest IH]; intros ls; cbn [foldl].
  - rewrite fmap_nil, decide_False; [reflexivity|apply not_elem_of_nil].
  - rewrite IH. rewrite fmap_cons.
    destruct (decide (k ∈ GoStrings.TrimSpace <$> rest)) as [Hin|Hout].
    + rewrite decide_True; [reflexivity|]. apply elem_of_cons. auto.
    + rewrite lookup_insert. case_decide as E.
      * rewrite decide_True; [reflexivity|]. apply elem_of_cons. auto.
      * rewrite decide_False; [reflexivity|].
        intros [?|?]%elem_of_cons; congruence.
Qed.

Lemma setListen_create_spec (s : string) (acc : AcceptorFunc)
    (ipports : list string) (w : World) (sv : Service) :
  services w !! s = Some sv ->
  Service.setListen_create s ipports acc w
  = Returns tt
      (set_trace (fun t => (t ++ creating ipports)%list)
         (set_services
            <[s := Service.with_Listeners sv
                     (configured acc ipports (Listeners sv))]> w)).
Proof.
  revert w sv. induction ipports as [|a rest IH]; intros w sv Hs.
  - simpl. unfold configured, creating. simpl. unfold mret, M_ret. f_equal.
    destruct w, sv. unfold set_trace, set_services, Service.with_Listeners.
    simpl in *. rewrite app_nil_r, (insert_id _ _ _ Hs). reflexivity.
  - cbn [Service.setListen_create]. run_m.
    unfold Service.deref, Service.store. run_m. rewrite Hs.
    erewrite IH; [|world_simpl; apply lookup_insert_eq].
    f_equal. unfold set_trace, set_services, creating, configured.
    world_simpl. simpl. rewrite insert_insert_eq, <- app_assoc. reflexivity.
Qed.

(** X7. [Set] with the key listen on a service that has no listeners yet
    and is not enabled returns nil and leaves the service with exactly the
    addresses of the comma-separated value, each trimmed of white space and
    none of them bound; nothing is bound or closed. *)
Theorem setListen_configures_the_addresses
    (w : World) (s : string) (sv : Service) (value : string) :
  services w !! s = Some sv ->
  Listeners sv = ∅ ->
  Enabled sv = false ->
  Service.Set_ s "listen" value w
  = Returns None
      (set_trace (fun t => (t ++ creating (GoStrings.SplitByte value ","))%list)
         (set_services
            <[s := Service.with_Listeners sv
                     (configured (AcceptOf s) (GoStrings.SplitByte value ",") ∅)]>
            w))
  /\ forall k,
      configured (AcceptOf s) (GoStrings.SplitByte value ",") ∅ !! k
      = if decide (k ∈ GoStrings.TrimSpace <$> GoStrings.SplitByte value ",")
        then Some (Some {| Listener := None; Acceptor := AcceptOf s |})
        else None.
Proof.
  intros Hs Hl He. split.
  - unfold Service.Set_.
    rewrite (bind_returns _ _ _ _ _ (deref_registered _ _ _ Hs)).
    cbn [String.eqb Ascii.eqb Bool.eqb]. unfold Service.setListen.
    rewrite (bind_returns _ _ _ _ _ (deref_registered _ _ _ Hs)).
    rewrite Hl, map_size_empty, map_to_list_empty.
    cbn [Nat.ltb Nat.leb Service.setListen_close].
    unfold mbind at 1 2, M_bind, mret at 1 2, M_ret.
    rewrite (bind_returns _ _ _ _ _ (setListen_create_spec _ _ _ _ _ Hs)).
    rewrite Hl.
    erewrite bind_returns;
      [|apply deref_registered; world_simpl; apply lookup_insert_eq].
    cbn [Enabled Service.with_Listeners]. rewrite He. reflexivity.
  - intros k. rewrite configured_lookup, lookup_empty. reflexivity.
Qed.

Lemma setListen_configures_the_addresses_witness :
  exists w',
    Service.Set_ "web" "listen" " 127.0.0.1:80 ,10.0.0.1:80"
      (Control.history [Control.CreateService "web"] Samples.bare)
    = Returns None w'
    /\ configured (AcceptOf "web")
         (GoStrings.SplitByte " 127.0.0.1:80 ,10.0.0.1:80" ",") ∅
       !! "127.0.0.1:80"
       = Some (Some {| Listener := None; Acceptor := AcceptOf "web" |}).
Proof.
  destruct (setListen_configures_the_addresses
              (Control.history [Control.CreateService "web"] Samples.bare)
              "web" (Samples.service "web" ROLE_WEBSERVER None)
              " 127.0.0.1:80 ,10.0.0.1:80" eq_refl eq_refl eq_refl)
    as [H1 H2].
  eexists. split; [exact H1|]. rewrite H2. reflexivity.
Defined.

End Listening.

(** ** Enabling a service (service.go, listener.go) *)

Section Enabling.
Import Runtime MoreProps.







End Enabling.

(** ** Serving a file (service.go) *)

Section ServeFile.
Import Runtime MoreProps.




(** A blank document root stops the process instead. *)
Lemma serveFile_without_docroot
    (w : World) (s : string) (sv : Service) (req : ServiceRequest) :
  services w !! s = Some sv ->
  GoStrings.TrimSpace (DocRoot sv) = "" ->
  Service.serveFile s req w
  = Exits (set_trace (fun t => (t ++ [EvLog Fatal "docroot MUST be set"])%list) w).
Proof.
  intros Hs Hroot. unfold Service.serveFile.
  rewrite (bind_returns _ _ _ _ _ (deref_registered _ _ _ Hs)).
  unfold HttpConnection.CleanPath. rewrite Hroot. reflexivity.
Qed.

End ServeFile.

(** ** The dispatch loop in the reverse-proxy role (service.go) *)

Section ProxyLoop.
Import Runtime Props.

Lemma requestPump_round_empty
    (w : World) (s : string) (sv : Service) (q : Chan ServiceRequest) :
  services w !! s = Some sv ->
  requestQueue sv = Some q ->
  chan_buf q = [] ->
  Service.requestPump_round s w = Waits w.
Proof.
  intros Hs Hq Hbuf. unfold Service.requestPump_round.
  rewrite (bind_returns _ _ _ _ _ (deref_registered _ _ _ Hs)).
  rewrite Hq. unfold chan_recv. rewrite Hbuf. reflexivity.
Qed.

Lemma requestPump_proxy_rounds (s : string) (reqs : list ServiceRequest) :
  forall (w : World) (sv : Service) (q : Chan ServiceRequest),
    services w !! s = Some sv ->
    Role sv = ROLE_PROXY ->
    requestQueue sv = Some q ->
    chan_buf q = reqs ->
    exists w' sv' q',
      Service.requestPump (length reqs) s w = Returns false w'
      /\ services w' !! s = Some sv'
      /\ requestQueue sv' = Some q' /\ chan_buf q' = []
      /\ rchans w' = rchans w /\ trace w' = trace w /\ pools w' = pools w.
Proof.
  induction reqs as [|req rest IH]; intros w sv q Hs Hrole Hq Hbuf.
  - exists w, sv, q. repeat split; assumption.
  - cbn [length Service.requestPump].
    rewrite (bind_returns _ _ _ _ _
               (requestPump_round_proxy_drops _ _ _ _ _ _ Hs Hrole Hq Hbuf)).
    edestruct (IH (set_services
                     <[s := Service.with_requestQueue sv
                              (Some {| chan_cap := chan_cap q;
                                       chan_buf := rest |})]> w))
      as (w' & sv' & q' & Hrun & Hs' & Hq' & Hbuf' & Hr & Ht & Hp);
      [world_simpl; apply lookup_insert_eq|exact Hrole|reflexivity|reflexivity|].
    exists w', sv', q'. repeat split; assumption.
Qed.

(** X9. In the reverse-proxy role the dispatch loop takes every request
    off the queue and answers none: after as many rounds as requests were
    queued the loop is still running, the queue is empty, no response
    channel has received anything, nothing was logged or started, and the
    next round waits for a request. *)
Theorem requestPump_proxy_answers_nothing
    (w : World) (s : string) (sv : Service) (q : Chan ServiceRequest) :
  services w !! s = Some sv ->
  Role sv = ROLE_PROXY ->
  requestQueue sv = Some q ->
  exists w',
    Service.requestPump (length (chan_buf q)) s w = Returns false w'
    /\ Samples.queued s w' = []
    /\ rchans w' = rchans w
    /\ trace w' = trace w
    /\ Service.requestPump_round s w' = Waits w'.
Proof.
  intros Hs Hrole Hq.
  destruct (requestPump_proxy_rounds s (chan_buf q) w sv q Hs Hrole Hq eq_refl)
    as (w' & sv' & q' & Hrun & Hs' & Hq' & Hbuf' & Hr & Ht & _).
  exists w'. split; [exact Hrun|]. split.
  { unfold Samples.queued. rewrite Hs', Hq'. exact Hbuf'. }
  split; [exact Hr|]. split; [exact Ht|].
  exact (requestPump_round_empty _ _ _ _ Hs' Hq' Hbuf').
Qed.

Lemma requestPump_proxy_answers_nothing_witness :
  exists w',
    Service.requestPump 2 "web"
      (Samples.serving ROLE_PROXY
         [Samples.request "/a" 1; Samples.request "/b" 2])
    = Returns false w'
    /\ Samples.queued "web" w' = []
    /\ rchans w'
       = rchans (Samples.serving ROLE_PROXY
                   [Samples.request "/a" 1; Samples.request "/b" 2])
    /\ trace w'
       = trace (Samples.serving ROLE_PROXY
                  [Samples.request "/a" 1; Samples.request "/b" 2])
    /\ Service.requestPump_round "web" w' = Waits w'.
Proof.
  apply (requestPump_proxy_answers_nothing
           (Samples.serving ROLE_PROXY
              [Samples.request "/a" 1; Samples.request "/b" 2])
           "web"
           (Samples.service "web" ROLE_PROXY
              (Some {| chan_cap := 8;
                       chan_buf := [Samples.request "/a" 1;
                                    Samples.request "/b" 2] |}))
           {| chan_cap := 8;
              chan_buf := [Samples.request "/a" 1; Samples.request "/b" 2] |});
    [vm_compute; reflexivity|reflexivity|reflexivity].
Defined.

End ProxyLoop.

(** ** The configuration commands (config.go) and the defaults *)

Section Configuration.
Import Runtime MoreProps.

Lemma ServiceDefault_no_blank (key value : string) (d : gmap string string) :
  no_blank d -> no_blank (Defaults.ServiceDefault key value d).
Proof.
  intros Hd k. unfold Defaults.ServiceDefault.
  destruct (String.eqb_spec value "") as [->|Hv].
  - rewrite lookup_delete. case_decide; [discriminate|apply Hd].
  - rewrite lookup_insert. case_decide; [congruence|apply Hd].
Qed.

(** X10. However [ServiceDefault] is called, no default is ever the empty
    string: a call with an empty value removes the key, any other call
    stores the value under it and leaves the other keys alone. *)
Theorem ServiceDefault_never_blank
    (calls : list (string * string)) (key value : string) :
  no_blank (defaults_after calls ∅)
  /\ (forall d k,
        Defaults.ServiceDefault key value d !! k
        = if decide (k = key)
          then (if String.eqb value "" then None else Some value)
          else d !! k).
Proof.
  split.
  - unfold defaults_after.
    assert (forall d, no_blank d ->
              no_blank (foldl (fun d c => Defaults.ServiceDefault c.1 c.2 d)
                          d calls)) as H.
    { induction calls as [|c calls IH]; intros d Hd; simpl; [exact Hd|].
      apply IH, ServiceDefault_no_blank, Hd. }
    apply H. intros k. rewrite lookup_empty. discriminate.
  - intros d k. unfold Defaults.ServiceDefault.
    destruct (String.eqb value "").
    + rewrite lookup_delete. repeat case_decide; congruence.
    + rewrite lookup_insert. repeat case_decide; congruence.
Qed.

Lemma index_inv (m : list string) (i : nat) (w w' : World) (x : string) :
  Config.index m i w = Returns x w' -> w' = w /\ m !! i = Some x.
Proof.
  unfold Config.index. destruct (m !! i); [|discriminate].
  intros [= <- <-]. auto.
Qed.

(** X11. A configuration command that is refused changes nothing: when
    [cfg_Set], [cfg_Enable], [cfg_CreateService] or [cfg_CreatePool] returns
    an error, the world is as it was, and the last two leave the current
    object as it was. *)
Theorem cfg_error_changes_nothing
    (cur : option Config.Current) (m : list string) (w w' : World)
    (e : string) :
  (Config.cfg_Set cur m w = Returns (Some e) w' -> w' = w)
  /\ (Config.cfg_Enable cur m w = Returns (Some e) w' -> w' = w)
  /\ (forall cur',
        Config.cfg_CreateService cur m w = Returns (cur', Some e) w' ->
        w' = w /\ cur' = cur)
  /\ (forall cur',
        Config.cfg_CreatePool cur m w = Returns (cur', Some e) w' ->
        w' = w /\ cur' = cur).
Proof.
  split; [|split; [|split]].
  - unfold Config.cfg_Set. intros H.
    apply bind_inv in H as (name & w1 & Hi & H).
    apply index_inv in Hi as [-> _].
    destruct (String.eqb name "").
    + destruct cur as [[i|]|]; [|discriminate|injection H as _ <-; reflexivity].
      apply bind_inv in H as (key & w1 & Hi & H).
      apply index_inv in Hi as [-> _].
      apply bind_inv in H as (value & w1 & Hi & H).
      apply index_inv in Hi as [-> _].
      destruct i; simpl in H.
      * exact (Service_Set_error _ _ _ _ _ _ H).
      * exact (Pool_Set_error _ _ _ _ _ _ H).
    + unfold mbind at 1, M_bind, get in H.
      destruct (services w !! name); [|injection H as _ <-; reflexivity].
      apply bind_inv in H as (key & w1 & Hi & H).
      apply index_inv in Hi as [-> _].
      apply bind_inv in H as (value & w1 & Hi & H).
      apply index_inv in Hi as [-> _].
      exact (Service_Set_error _ _ _ _ _ _ H).
  - unfold Config.cfg_Enable. intros H.
    apply bind_inv in H as (name & w1 & Hi & H).
    apply index_inv in Hi as [-> _].
    unfold mbind at 1, M_bind, get in H.
    destruct (services w !! name); [|injection H as _ <-; reflexivity].
    apply Enable_returns_nil in H. discriminate.
  - intros cur'. unfold Config.cfg_CreateService. intros H.
    apply bind_inv in H as (name & w1 & Hi & H).
    apply index_inv in Hi as [-> _].
    apply bind_inv in H as ([r1 r2] & w1 & Hn & H). simpl in H.
    destruct r2 as [err|].
    + injection H as <- <- <-. split; [|reflexivity].
      unfold Service.NewService, mbind, M_bind, get in Hn.
      destruct (services w !! name); [injection Hn as _ _ <-; reflexivity|].
      discriminate.
    + destruct cur as [c|]; [destruct r1|]; discriminate.
  - intros cur'. unfold Config.cfg_CreatePool. intros H.
    apply bind_inv in H as (name & w1 & Hi & H).
    apply index_inv in Hi as [-> _].
    apply bind_inv in H as ([r1 r2] & w1 & Hn & H). simpl in H.
    destruct r2 as [err|].
    + injection H as <- <- <-. split; [|reflexivity].
      unfold Pool.NewPool, mbind, M_bind, get in Hn.
      destruct (pools w !! name); [injection Hn as _ _ <-; reflexivity|].
      discriminate.
    + destruct cur as [c|]; [destruct r1|]; discriminate.
Qed.

Lemma cfg_error_changes_nothing_witness :
  exists w',
    Config.cfg_Enable (Some None) ["ENABLE dynamic"; "dynamic"]
      (Control.history [Control.CreatePool "dynamic"] Samples.bare)
    = Returns (Some "service 'dynamic' not found") w'
    /\ w' = Control.history [Control.CreatePool "dynamic"] Samples.bare.
Proof.
  eexists. split; [vm_compute; reflexivity|].
  eapply (proj1 (proj2 (cfg_error_changes_nothing
                          (Some None) ["ENABLE dynamic"; "dynamic"] _ _ _))).
  vm_compute. reflexivity.
Defined.

(** X12. [CREATE] makes the new object the current one, and a [SET] with no
    name in front then reaches it: after [cfg_CreateService] or
    [cfg_CreatePool] succeeds for a free name, [cfg_Set] with an empty name
    group is [Set] on the service, or on the pool, of that name. *)
Theorem cfg_Create_then_Set
    (cur : Config.Current) (line name key value : string) (w : World) :
  (services w !! name = None ->
   exists w1,
     Config.cfg_CreateService (Some cur) [line; name] w
     = Returns (Some (Some (Config.OfService name)), None) w1
     /\ Config.cfg_Set (Some (Some (Config.OfService name)))
          [line; ""; key; value] w1
        = Service.Set_ name key value w1)
  /\ (pools w !! name = None ->
      exists w1,
        Config.cfg_CreatePool (Some cur) [line; name] w
        = Returns (Some (Some (Config.OfPool name)), None) w1
        /\ Config.cfg_Set (Some (Some (Config.OfPool name)))
             [line; ""; key; value] w1
           = Pool.Set_ name key value w1).
Proof.
  split; intros H.
  - unfold Config.cfg_CreateService, Config.index. simpl.
    unfold Service.NewService. run_m. rewrite H. world_simpl.
    eexists. split; reflexivity.
  - unfold Config.cfg_CreatePool, Config.index. simpl.
    unfold Pool.NewPool. run_m. rewrite H. world_simpl.
    eexists. split; reflexivity.
Qed.

Lemma cfg_Create_then_Set_witness :
  exists w1,
    Config.cfg_CreatePool (Some None) ["CREATE POOL dynamic"; "dynamic"]
      (Samples.with_nodes 5 ["10.0.0.1:8080"])
    = Returns (Some (Some (Config.OfPool "dynamic")), None) w1
    /\ Config.cfg_Set (Some (Some (Config.OfPool "dynamic")))
         ["CREATE POOL dynamic"; ""; "nodefile"; "nodes"] w1
       = Pool.Set_ "dynamic" "nodefile" "nodes" w1.
Proof.
  apply (proj2 (cfg_Create_then_Set None "CREATE POOL dynamic" "dynamic"
                  "nodefile" "nodes" (Samples.with_nodes 5 ["10.0.0.1:8080"]))).
  vm_compute. reflexivity.
Defined.

End Configuration.

(** ** A pass over the node file (pool.go) *)

Section Pass.
Import Runtime PoolProps.

Lemma refresh_found (newgen : Z) (line : string) (bs bs' : list Backend) :
  Pool.refresh newgen line bs = Some bs' ->
  exists pre b post,
    bs = (pre ++ b :: post)%list
    /\ Ipport b = line
    /\ (line ∉ (Ipport <$> pre))
    /\ bs' = (pre ++ {| Ipport := Ipport b; connecting := connecting b;
                        outstanding := outstanding b; generation := newgen |}
                  :: post)%list.
Proof.
  revert bs'. induction bs as [|b bs IH]; intros bs'; simpl; [discriminate|].
  destruct (String.eqb (Ipport b) line) eqn:E.
  - intros [= <-]. apply String.eqb_eq in E.
    exists [], b, bs. repeat split; [exact E|]. simpl. apply not_elem_of_nil.
  - destruct (Pool.refresh newgen line bs) as [r|]; [|discriminate].
    intros [= <-]. destruct (IH r eq_refl) as (pre & b0 & post & -> & Hb & Hpre & ->).
    exists (b :: pre), b0, post. repeat split; [exact Hb|].
    apply String.eqb_neq in E. rewrite fmap_cons, not_elem_of_cons.
    split; [congruence|exact Hpre].
Qed.

Lemma refresh_missing (newgen : Z) (line : string) (bs : list Backend) :
  Pool.refresh newgen line bs = None -> line ∉ (Ipport <$> bs).
Proof.
  induction bs as [|b bs IH]; simpl; [intros _; apply not_elem_of_nil|].
  destruct (String.eqb (Ipport b) line) eqn:E; [discriminate|].
  destruct (Pool.refresh newgen line bs); [discriminate|]. intros _.
  apply String.eqb_neq in E. rewrite not_elem_of_cons.
  split; [congruence|auto].
Qed.

Lemma pass_start (newgen : Z) (bs0 : list Backend) :
  NoDup (Ipport <$> bs0) -> pass newgen [] bs0 bs0.
Proof.
  intros Hnd. split; [exact Hnd|]. split.
  { intros a. rewrite elem_of_nil. tauto. }
  split.
  { intros b Hb. exists b. split; [exact Hb|]. repeat split. }
  intros b' Hb'. split; [intros []%elem_of_nil|]. split; [auto|].
  intros H. exfalso. apply H, list_elem_of_fmap. eauto.
Qed.

Lemma pass_refresh (newgen : Z) (seen : list string) (line : string)
    (bs0 bs bs' : list Backend) :
  pass newgen seen bs0 bs ->
  Pool.refresh newgen line bs = Some bs' ->
  pass newgen (seen ++ [line]) bs0 bs'.
Proof.
  intros (Hnd & Hdom & Hold & Hnew) Hr.
  destruct (refresh_found _ _ _ _ Hr) as (pre & b & post & -> & Hb & Hpre & ->).
  set (b1 := {| Ipport := Ipport b; connecting := connecting b;
                outstanding := outstanding b; generation := newgen |}).
  assert (Ipport <$> (pre ++ b1 :: post)%list
          = Ipport <$> (pre ++ b :: post)%list) as Eaddr.
  { rewrite !fmap_app, !fmap_cons. reflexivity. }
  assert (forall x, x ∈ (pre ++ b1 :: post)%list -> x = b1 \/ (x ∈ (pre ++ b :: post)%list /\ Ipport x <> line)) as Hmem.
  { intros x Hx. apply elem_of_app in Hx as [Hx|Hx].
    - right. split; [apply elem_of_app; auto|].
      intros E. apply Hpre, list_elem_of_fmap. eauto.
    - apply elem_of_cons in Hx as [->|Hx]; [auto|]. right.
      split; [apply elem_of_app; right; apply elem_of_cons; auto|].
      intros E. rewrite fmap_app, fmap_cons in Hnd.
      apply NoDup_app in Hnd as (_ & _ & Hnd). apply NoDup_cons in Hnd as [Hnd _].
      apply Hnd, list_elem_of_fmap. exists x. split; [congruence|exact Hx]. }
  split; [rewrite Eaddr; exact Hnd|]. split.
  { intros a. rewrite Eaddr, Hdom, elem_of_app, list_elem_of_singleton.
    split; [tauto|]. intros [H|[H| ->]]; [tauto|tauto|].
    apply Hdom. rewrite fmap_app, fmap_cons, elem_of_app, elem_of_cons. auto. }
  split.
  { intros x Hx. destruct (Hold x Hx) as (x' & Hx' & Hsame).
    apply elem_of_app in Hx' as [Hx'|Hx'].
    - exists x'. split; [apply elem_of_app; auto|exact Hsame].
    - apply elem_of_cons in Hx' as [->|Hx'].
      + exists b1. split; [apply elem_of_app; right; apply elem_of_cons; auto|].
        exact Hsame.
      + exists x'. split; [|exact Hsame].
        apply elem_of_app; right; apply elem_of_cons; auto. }
  intros x Hx. destruct (Hmem x Hx) as [->|[Hx' Hne]].
  - assert (b ∈ (pre ++ b :: post)%list) as Hbin
        by (apply elem_of_app; right; apply elem_of_cons; auto).
    destruct (Hnew b Hbin) as (_ & _ & Hfresh).
    split; [reflexivity|]. split.
    + intros H. exfalso. apply H, elem_of_app. right.
      apply list_elem_of_singleton. exact Hb.
    + exact Hfresh.
  - destruct (Hnew x Hx') as (Hgen & Hkept & Hfresh). split.
    + intros [H|H%list_elem_of_singleton]%elem_of_app; [auto|contradiction].
    + split; [|exact Hfresh]. intros H. apply Hkept. intros H'. apply H.
      apply elem_of_app. auto.
Qed.

Lemma pass_append (newgen : Z) (seen : list string) (line : string)
    (bs0 bs : list Backend) :
  pass newgen seen bs0 bs ->
  Pool.refresh newgen line bs = None ->
  pass newgen (seen ++ [line]) bs0
    (bs ++ [{| Ipport := line; connecting := None; outstanding := 0;
               generation := newgen |}])%list.
Proof.
  intros (Hnd & Hdom & Hold & Hnew) Hr. apply refresh_missing in Hr.
  split.
  { rewrite fmap_app. apply NoDup_app. split; [exact Hnd|]. split.
    - intros a Ha [->|[]%elem_of_nil]%elem_of_cons. exact (Hr Ha).
    - apply NoDup_singleton. }
  split.
  { intros a. rewrite fmap_app, !elem_of_app, Hdom. simpl.
    rewrite !list_elem_of_singleton. tauto. }
  split.
  { intros x Hx. destruct (Hold x Hx) as (x' & Hx' & Hsame).
    exists x'. split; [apply elem_of_app; auto|exact Hsame]. }
  intros x [Hx|Hx%list_elem_of_singleton]%elem_of_app.
  - destruct (Hnew x Hx) as (Hgen & Hkept & Hfresh).
    assert (Ipport x <> line) as Hne.
    { intros E. apply Hr, list_elem_of_fmap. eauto. }
    split.
    + intros [H|H%list_elem_of_singleton]%elem_of_app; [auto|contradiction].
    + split; [|exact Hfresh]. intros H. apply Hkept. intros H'. apply H.
      apply elem_of_app. auto.
  - subst x. simpl. split; [reflexivity|]. split; [|auto].
    intros H. exfalso. apply H, elem_of_app. right.
    apply list_elem_of_singleton. reflexivity.
Qed.

Lemma reconciled_same (newgen : Z) (ls : list string) (pl : Pool) :
  same_but_backends pl (reconciled newgen ls pl).
Proof.
  revert pl. induction ls as [|raw ls IH]; intros pl; [repeat split|].
  simpl. destruct (IH (Pool.reconcile_line newgen raw pl)) as (?&?&?&?&?).
  unfold Pool.reconcile_line in *. destruct (Pool.parse_line raw); [|repeat split; assumption].
  destruct (Pool.refresh _ _ _); repeat split; assumption.
Qed.

Lemma reconciled_pass (newgen : Z) (ls : list string) (bs0 : list Backend) :
  forall (seen : list string) (pl : Pool),
    pass newgen seen bs0 (backends pl) ->
    pass newgen (seen ++ omap Pool.parse_line ls) bs0
      (backends (reconciled newgen ls pl)).
Proof.
  induction ls as [|raw ls IH]; intros seen pl Hp.
  - simpl. rewrite app_nil_r. exact Hp.
  - change (reconciled newgen (raw :: ls) pl)
      with (reconciled newgen ls (Pool.reconcile_line newgen raw pl)).
    cbn [omap list_omap].
    destruct (Pool.parse_line raw) as [line|] eqn:E.
    + rewrite cons_middle, (assoc_L (++) seen [line]). apply IH.
      unfold Pool.reconcile_line. rewrite E.
      destruct (Pool.refresh newgen line (backends pl)) as [bs|] eqn:Hr; simpl.
      * eapply pass_refresh; eassumption.
      * apply pass_append; assumption.
    + apply IH. unfold Pool.reconcile_line. rewrite E. exact Hp.
Qed.

Lemma LINE_reconciles (p : string) (newgen : Z)
    (reads : list (string * ioerr)) :
  forall (w : World) (pl : Pool),
    pools w !! p = Some pl ->
    exists w',
      Pool.LINE p newgen reads w = Returns tt w'
      /\ pools w' = <[p := reconciled newgen (lines_read reads) pl]> (pools w)
      /\ services w' = services w /\ files w' = files w.
Proof.
  induction reads as [|[line err] rest IH]; intros w pl Hp.
  - exists w. split; [reflexivity|]. split; [|auto].
    simpl. symmetry. apply insert_id, Hp.
  - cbn [Pool.LINE lines_read]. destruct err.
    + rewrite (bind_returns _ _ _ _ _ (pool_deref_registered _ _ _ Hp)).
      unfold Pool.store at 1. run_m.
      edestruct (IH (set_pools <[p := Pool.reconcile_line newgen line pl]> w))
        as (w' & Hrun & Hpools & Hsv & Hf);
        [world_simpl; apply lookup_insert_eq|].
      exists w'. split; [exact Hrun|]. split; [|auto].
      rewrite Hpools. world_simpl. apply insert_insert_eq.
    + rewrite (bind_returns _ _ _ _ _ (pool_deref_registered _ _ _ Hp)).
      unfold Pool.store. run_m. eexists. split; [reflexivity|].
      world_simpl. auto.
    + unfold log. run_m. eexists. split; [reflexivity|]. world_simpl.
      split; [|auto]. symmetry. apply insert_id, Hp.
Qed.

(** X13. A round of the worker that finds a newer node file and can open it
    reloads it: on a pool whose addresses are distinct, the round returns
    the file's modification time, and afterwards the pool differs in its
    backends only; their addresses are still distinct and are the old ones
    and the ones the pass read; a backend whose address was read carries
    the generation one above the pool's, any other backend is an old one
    untouched; every old backend is still there with its connection state;
    a backend that is new has none. *)
Theorem worker_round_reloads
    (w : World) (p : string) (pl : Pool) (f : File) (mtime : Z) :
  pools w !! p = Some pl ->
  files w !! nodeFile pl = Some f ->
  (mtime < file_mtime f)%Z ->
  file_open_error f = None ->
  NoDup (Props.addresses pl) ->
  exists w' pl',
    Pool.worker_round p mtime w = Returns (file_mtime f, Pool.Reloaded) w'
    /\ pools w' = <[p := pl']> (pools w)
    /\ same_but_backends pl pl'
    /\ pass (int_add (pgeneration pl) 1) (listed f) (backends pl) (backends pl').
Proof.
  intros Hp Hf Hm Ho Hnd. unfold Pool.worker_round.
  rewrite (bind_returns _ _ _ _ _ (pool_deref_registered _ _ _ Hp)).
  unfold mbind at 1, M_bind at 1, get at 1. rewrite Hf.
  destruct (mtime <? file_mtime f)%Z eqn:E; [|lia]. cbn [negb].
  unfold log at 1. run_m. rewrite Ho.
  match goal with
  | |- context [Pool.LINE p ?g ?r ?w1] =>
      destruct (LINE_reconciles p g r w1 pl Hp) as (w' & Hrun & Hpools & _)
  end.
  rewrite Hrun. eexists _, _. split; [reflexivity|]. world_simpl.
  split; [exact Hpools|]. split; [apply reconciled_same|].
  apply (reconciled_pass _ _ _ [] pl). apply pass_start, Hnd.
Qed.

End Pass.

(** ** The service code leaves the pool registry alone *)

Section ServiceFrame.
Import Runtime Invariants.
Context (Inv : World -> Prop) (Hpo : pools_only Inv).

Lemma frame_Service_deref (s : string) (Q : Service -> Prop) :
  (forall sv, Q sv) -> keeps Inv (Service.deref s) Q.
Proof. intros HQ. unfold Service.deref. repeat keeps_step. apply HQ. Qed.

Lemma frame_Service_store (s : string) (sv : Service) (Q : unit -> Prop) :
  Q tt -> keeps Inv (Service.store s sv) Q.
Proof.
  intros HQ. unfold Service.store. apply keeps_modify; [|exact HQ].
  intros w Hw. eapply Hpo; [|exact Hw]. reflexivity.
Qed.

Ltac frame_step :=
  first [ keeps_step | keeps_ambient
        | apply frame_Service_deref; intros ?
        | apply frame_Service_store ].

Lemma frame_NewService (name : string) (Q : option string * error -> Prop) :
  (forall r, Q r) -> keeps Inv (Service.NewService name) Q.
Proof. intros HQ. unfold Service.NewService. repeat frame_step; apply HQ. Qed.

Lemma frame_serveFile (s : string) (req : ServiceRequest) (Q : unit -> Prop) :
  Q tt -> keeps Inv (Service.serveFile s req) Q.
Proof. intros HQ. unfold Service.serveFile. repeat frame_step; exact HQ. Qed.

Lemma frame_requestPump_round (s : string) (Q : Service.Pump -> Prop) :
  (forall r, Q r) -> keeps Inv (Service.requestPump_round s) Q.
Proof.
  intros HQ. unfold Service.requestPump_round, Pool.GetBackend.
  repeat first [ apply keeps_chan_op; intros ? _ | frame_step ]; apply HQ.
Qed.

Lemma frame_HandleRequest (s : string) (conn : nat) (req : Request)
    (rchan : nat) (Q : error -> Prop) :
  (forall r, Q r) -> keeps Inv (Service.HandleRequest s conn req rchan) Q.
Proof.
  intros HQ. unfold Service.HandleRequest.
  repeat first [ apply keeps_chan_op; intros ? _ | frame_step ]; apply HQ.
Qed.

Lemma frame_Enable_loop (s : string)
    (entries : list (string * option ServiceListener)) (Q : unit -> Prop) :
  Q tt -> keeps Inv (Service.Enable_loop s entries) Q.
Proof.
  intros HQ. induction entries as [|[ipport lstnr] rest IH]; simpl.
  - keeps_step. exact HQ.
  - repeat frame_step; exact IH.
Qed.

Lemma frame_Enable (s : string) (Q : error -> Prop) :
  (forall r, Q r) -> keeps Inv (Service.Enable s) Q.
Proof.
  intros HQ. unfold Service.Enable.
  repeat first [ apply frame_Enable_loop | frame_step ]. apply HQ.
Qed.

Lemma frame_setListen_close (s : string)
    (entries : list (string * option ServiceListener)) (Q : unit -> Prop) :
  Q tt -> keeps Inv (Service.setListen_close s entries) Q.
Proof.
  intros HQ. induction entries as [|[ipport lstnr] rest IH]; simpl.
  - keeps_step. exact HQ.
  - repeat frame_step; exact IH.
Qed.

Lemma frame_setListen_create (s : string) (ipports : list string)
    (acc : AcceptorFunc) (Q : unit -> Prop) :
  Q tt -> keeps Inv (Service.setListen_create s ipports acc) Q.
Proof.
  intros HQ. induction ipports as [|ipport rest IH]; simpl.
  - keeps_step. exact HQ.
  - repeat frame_step; exact IH.
Qed.

Lemma frame_setListen (s value : string) (acc : AcceptorFunc)
    (Q : error -> Prop) :
  (forall r, Q r) -> keeps Inv (Service.setListen s value acc) Q.
Proof.
  intros HQ. unfold Service.setListen.
  repeat first [ apply frame_setListen_close | apply frame_setListen_create
               | apply frame_Enable; intros ? | frame_step ]; apply HQ.
Qed.

Lemma frame_Service_Set (s key value : string) (Q : error -> Prop) :
  (forall r, Q r) -> keeps Inv (Service.Set_ s key value) Q.
Proof.
  intros HQ. unfold Service.Set_.
  repeat first [ apply frame_setListen; intros ? | frame_step ]; apply HQ.
Qed.

End ServiceFrame.

(** ** The node file lock (pool.go) *)

Section Locked.
Import Runtime Invariants PoolProps.
Context (p nf : string).

Lemma locked_pools_only : pools_only (locked p nf).
Proof. intros w w' E (pl & H). exists pl. rewrite <- E. exact H. Qed.

#[local] Hint Resolve locked_pools_only : frames.

Lemma locked_deref (q : string) (Q : Pool -> Prop) :
  (forall pl, (q = p -> nodeFileLock pl = true /\ nodeFile pl = nf) -> Q pl) ->
  keeps (locked p nf) (Pool.deref q) Q.
Proof.
  intros HQ. unfold Pool.deref. repeat keeps_step. apply HQ. intros ->.
  match goal with H : locked _ _ _ |- _ => destruct H as (pl & E & Hl & Hn) end.
  match goal with H : pools _ !! _ = Some ?x |- _ => rewrite E in H; injection H as <- end.
  auto.
Qed.

Lemma locked_store (q : string) (pl : Pool) (Q : unit -> Prop) :
  (q = p -> nodeFileLock pl = true /\ nodeFile pl = nf) ->
  Q tt -> keeps (locked p nf) (Pool.store q pl) Q.
Proof.
  intros Hq HQ. unfold Pool.store. apply keeps_modify; [|exact HQ].
  intros w (pl0 & E & Hl & Hn). unfold locked. simpl.
  destruct (decide (q = p)) as [->|Hne].
  - exists pl. rewrite lookup_insert_eq. destruct (Hq eq_refl). auto.
  - exists pl0. rewrite lookup_insert_ne by exact Hne. auto.
Qed.

Lemma reconcile_line_same (newgen : Z) (raw : string) (pl : Pool) :
  same_but_backends pl (Pool.reconcile_line newgen raw pl).
Proof. apply (reconciled_same newgen [raw] pl). Qed.

Lemma locked_LINE (q : string) (newgen : Z) (reads : list (string * ioerr))
    (Q : unit -> Prop) :
  Q tt -> keeps (locked p nf) (Pool.LINE q newgen reads) Q.
Proof.
  intros HQ. induction reads as [|[line err] rest IH]; simpl.
  - keeps_step. exact HQ.
  - destruct err.
    + keeps_step. apply locked_deref. intros pl Hpl. keeps_step.
      apply locked_store; [|exact IH].
      destruct (reconcile_line_same newgen line pl) as (_ & _ & -> & -> & _).
      exact Hpl.
    + keeps_step. apply locked_deref. intros pl Hpl.
      apply locked_store; [|exact HQ].
      destruct (reconcile_line_same newgen line pl) as (_ & _ & -> & -> & _).
      exact Hpl.
    + keeps_ambient. exact HQ.
Qed.

Lemma locked_worker_round (q : string) (mtime : Z) :
  keeps (locked p nf) (Pool.worker_round q mtime) (fun _ => True).
Proof.
  unfold Pool.worker_round. keeps_step. apply locked_deref. intros pl Hpl.
  repeat first [ keeps_step | keeps_ambient | apply locked_LINE ]; exact I.
Qed.

Lemma locked_worker_start (q : string) :
  keeps (locked p nf) (Pool.worker_start q) (fun _ => True).
Proof.
  unfold Pool.worker_start. keeps_step. apply locked_deref. intros pl Hpl.
  destruct (nodeFileLock pl) eqn:E; [apply keeps_wait|].
  keeps_step. apply locked_store; [|keeps_step; exact I].
  intros Hq. destruct (Hpl Hq). congruence.
Qed.

Lemma locked_updateNodeFile (q nodefile : string) :
  keeps (locked p nf) (Pool.updateNodeFile q nodefile)
    (fun e => q = p -> is_Some e).
Proof.
  unfold Pool.updateNodeFile. keeps_step. keeps_step.
  destruct (files _ !! _) as [f|]; [|keeps_step; eauto].
  destruct (file_is_dir f); [keeps_step; eauto|].
  keeps_step. apply locked_deref. intros pl Hpl.
  destruct (nodeFileLock pl) eqn:E; [apply keeps_wait|].
  keeps_step. apply locked_store.
  - intros Hq. destruct (Hpl Hq). congruence.
  - keeps_step. intros Hq. destruct (Hpl Hq). congruence.
Qed.

Lemma locked_Pool_Set (q key value : string) :
  keeps (locked p nf) (Pool.Set_ q key value) (fun _ => True).
Proof.
  unfold Pool.Set_. destruct (String.eqb key "nodefile").
  - eapply keeps_weaken; [apply locked_updateNodeFile|]. auto.
  - keeps_step. apply locked_deref. intros pl _.
    repeat first [ keeps_step | keeps_ambient ]; exact I.
Qed.

Lemma locked_NewPool (name : string) :
  keeps (locked p nf) (Pool.NewPool name) (fun _ => True).
Proof.
  unfold Pool.NewPool. keeps_step. keeps_step.
  destruct (pools _ !! name) eqn:E; [keeps_step; exact I|].
  keeps_step. apply locked_store.
  - intros ->.
    match goal with H : locked _ _ _ |- _ => destruct H as (pl & E' & _) end.
    congruence.
  - repeat first [ keeps_step | keeps_ambient ]; exact I.
Qed.

Lemma perform_locked (c : Control.Call) (w : World) :
  locked p nf w -> locked p nf (Control.perform c w).
Proof.
  intros Hw.
  destruct c as [name|name|s key value|s|q key value|q|s conn req ch|s|s req
                |q|q mtime]; simpl.
  - apply (frame_NewService _ locked_pools_only name (fun _ => True)); auto.
  - apply (locked_NewPool name); auto.
  - apply (frame_Service_Set _ locked_pools_only s key value (fun _ => True)); auto.
  - apply (frame_Enable _ locked_pools_only s (fun _ => True)); auto.
  - apply (locked_Pool_Set q key value); auto.
  - exact Hw.
  - apply (frame_HandleRequest _ locked_pools_only s conn req ch (fun _ => True)); auto.
  - apply (frame_requestPump_round _ locked_pools_only s (fun _ => True)); auto.
  - apply (frame_serveFile _ locked_pools_only s req (fun _ => True)); auto.
  - apply (locked_worker_start q); auto.
  - apply (locked_worker_round q mtime); auto.
Qed.

Lemma history_locked (calls : list Control.Call) (w : World) :
  locked p nf w -> locked p nf (Control.history calls w).
Proof.
  revert w. induction calls as [|c calls IH]; intros w Hw; simpl; [exact Hw|].
  apply IH, perform_locked, Hw.
Qed.

End Locked.

Section NodeFileLock.
Import Runtime PoolProps.

(** X15. The worker of a pool takes the node file lock and keeps it: a call
    of [worker_start] on a pool whose lock is free returns with the lock
    held, and from then on, whatever calls follow, the lock stays held, the
    pool keeps the node file it had, and no [Set] of the key nodefile on
    this pool returns without an error. *)
Theorem worker_freezes_the_node_file
    (w : World) (p : string) (pl : Pool) (calls : list Control.Call) :
  pools w !! p = Some pl ->
  nodeFileLock pl = false ->
  exists w1,
    Pool.worker_start p w = Returns 0%Z w1
    /\ locked p (nodeFile pl) (Control.history calls w1)
    /\ forall value w',
         Pool.Set_ p "nodefile" value (Control.history calls w1)
         <> Returns None w'.
Proof.
  intros Hp Hl. unfold Pool.worker_start.
  rewrite (bind_returns _ _ _ _ _ (pool_deref_registered _ _ _ Hp)), Hl.
  unfold Pool.store. run_m. eexists. split; [reflexivity|].
  match goal with
  | |- locked _ _ (Control.history _ ?w1) /\ _ =>
      assert (locked p (nodeFile pl) (Control.history calls w1)) as H
  end.
  { apply history_locked. eexists. world_simpl.
    split; [apply lookup_insert_eq|]. split; reflexivity. }
  split; [exact H|]. intros value w' E.
  destruct (locked_updateNodeFile p (nodeFile pl) p value _ H) as [_ Hret].
  change (Pool.Set_ p "nodefile" value) with (Pool.updateNodeFile p value) in E.
  destruct (Hret _ _ E eq_refl) as [e He]. discriminate.
Qed.

End NodeFileLock.

Section PassExamples.
Import Runtime PoolProps.

Lemma worker_round_reloads_witness :
  exists w' pl',
    Pool.worker_round "p" 0
      (Samples.pool_p (Samples.with_nodes 5 ["10.0.0.1:8080"; "10.0.0.2:8080"]))
    = Returns (file_mtime (Samples.regular 5
                 (Samples.lines ["10.0.0.1:8080"; "10.0.0.2:8080"])),
               Pool.Reloaded) w'
    /\ pools w'
       = <["p" := pl']>
           (pools (Samples.pool_p
                     (Samples.with_nodes 5 ["10.0.0.1:8080"; "10.0.0.2:8080"])))
    /\ same_but_backends MoreSamples.watched pl'
    /\ pass (int_add (pgeneration MoreSamples.watched) 1)
         (listed (Samples.regular 5
                    (Samples.lines ["10.0.0.1:8080"; "10.0.0.2:8080"])))
         (backends MoreSamples.watched) (backends pl').
Proof.
  apply (worker_round_reloads
           (Samples.pool_p (Samples.with_nodes 5 ["10.0.0.1:8080"; "10.0.0.2:8080"]))
           "p" MoreSamples.watched
           (Samples.regular 5 (Samples.lines ["10.0.0.1:8080"; "10.0.0.2:8080"]))
           0);
    [vm_compute; reflexivity|vm_compute; reflexivity|reflexivity|reflexivity
    |apply NoDup_nil_2].
Defined.

(** X14. A node file that cannot be opened is not tried again: the round
    logs the failure and returns the file's modification time, and every
    later round returns at once, with nothing changed, for as long as
    the file, whatever else happens to it, is no newer than that. *)
Theorem failed_open_is_not_retried
    (w : World) (p : string) (pl : Pool) (f f' : File) (mtime : Z) (e : string) :
  pools w !! p = Some pl ->
  files w !! nodeFile pl = Some f ->
  (mtime < file_mtime f)%Z ->
  file_open_error f = Some e ->
  (file_mtime f' <= file_mtime f)%Z ->
  exists w1,
    Pool.worker_round p mtime w = Returns (file_mtime f, Pool.OpenFailed) w1
    /\ pools w1 = pools w
    /\ Props.logged Error ("failed to open nodefile: " ++ e) w1
    /\ Pool.worker_round p (file_mtime f) (set_files <[nodeFile pl := f']> w1)
       = Returns (file_mtime f, Pool.Unchanged)
           (set_files <[nodeFile pl := f']> w1).
Proof.
  intros Hp Hf Hm Ho Hm'. unfold Pool.worker_round.
  rewrite (bind_returns _ _ _ _ _ (pool_deref_registered _ _ _ Hp)).
  unfold mbind at 1, M_bind at 1, get at 1. rewrite Hf.
  destruct (mtime <? file_mtime f)%Z eqn:E; [|lia]. cbn [negb].
  rewrite Ho. unfold log. run_m.
  eexists. split; [reflexivity|]. split; [reflexivity|]. split.
  { unfold Props.logged. world_simpl. apply elem_of_app. right.
    apply list_elem_of_singleton. reflexivity. }
  unfold Pool.deref. run_m. rewrite Hp. world_simpl.
  rewrite lookup_insert_eq.
  destruct (file_mtime f <? file_mtime f')%Z eqn:E'; [lia|reflexivity].
Qed.

Lemma failed_open_is_not_retried_witness :
  exists w1,
    Pool.worker_round "p" 0
      (Samples.pool_p (boot {[ "nodes" := MoreSamples.unreadable 5 ]}
                         Samples.no_error Samples.no_error))
    = Returns (file_mtime (MoreSamples.unreadable 5), Pool.OpenFailed) w1
    /\ pools w1
       = pools (Samples.pool_p (boot {[ "nodes" := MoreSamples.unreadable 5 ]}
                                  Samples.no_error Samples.no_error))
    /\ Props.logged Error
         ("failed to open nodefile: " ++ "open nodes: permission denied") w1
    /\ Pool.worker_round "p" (file_mtime (MoreSamples.unreadable 5))
         (set_files <[nodeFile MoreSamples.watched
                      := Samples.regular 5 "10.0.0.1:8080"]> w1)
       = Returns (file_mtime (MoreSamples.unreadable 5), Pool.Unchanged)
           (set_files <[nodeFile MoreSamples.watched
                        := Samples.regular 5 "10.0.0.1:8080"]> w1).
Proof.
  apply (failed_open_is_not_retried
           (Samples.pool_p (boot {[ "nodes" := MoreSamples.unreadable 5 ]}
                              Samples.no_error Samples.no_error))
           "p" MoreSamples.watched (MoreSamples.unreadable 5)
           (Samples.regular 5 "10.0.0.1:8080") 0
           "open nodes: permission denied");
    [vm_compute; reflexivity|vm_compute; reflexivity|reflexivity|reflexivity
    |vm_compute; discriminate].
Defined.

Lemma worker_freezes_the_node_file_witness :
  exists w1,
    Pool.worker_start "p"
      (Control.history [Control.CreatePool "p";
                        Control.PoolSet "p" "nodefile" "nodes"]
         (Samples.with_nodes 5 ["10.0.0.1:8080"]))
    = Returns 0%Z w1
    /\ locked "p" "nodes"
         (Control.history [Control.PoolSet "p" "nodefile" "other";
                           Control.WorkerRound "p" 0] w1)
    /\ forall value w',
         Pool.Set_ "p" "nodefile" value
           (Control.history [Control.PoolSet "p" "nodefile" "other";
                             Control.WorkerRound "p" 0] w1)
         <> Returns None w'.
Proof.
  apply (worker_freezes_the_node_file
           (Control.history [Control.CreatePool "p";
                             Control.PoolSet "p" "nodefile" "nodes"]
              (Samples.with_nodes 5 ["10.0.0.1:8080"]))
           "p"
           {| PName := "p"; backends := [];
              backendQueue := Some {| chan_cap := 1000; chan_buf := [] |};
              nodeFile := "nodes"; nodeFileLock := false; pgeneration := 0 |}
           [Control.PoolSet "p" "nodefile" "other"; Control.WorkerRound "p" 0]);
    [vm_compute; reflexivity|reflexivity].
Defined.

End PassExamples.

(** ** More on [Connect]: the mutex, progress and termination (pool.go) *)

Section ConnectMutex.
Import Runtime Connect ConnectProps.

Lemma work_insert (l : list pc) (i : nat) (old new : pc) :
  l !! i = Some old ->
  (sum_list (weight <$> <[i := new]> l) + weight old
   = sum_list (weight <$> l) + weight new)%nat.
Proof.
  revert i. induction l as [|p l IH]; intros [|i] H; try discriminate.
  - injection H as ->. simpl. lia.
  - specialize (IH i H). unfold fmap in *. simpl. lia.
Qed.

Lemma init_exclusive (b : Backend) (n : nat) : exclusive (init b n).
Proof.
  unfold exclusive, holders. simpl. rewrite count_replicate. simpl. lia.
Qed.

Lemma step_exclusive (i : nat) (st st' : State) :
  exclusive st -> step i st = Some st' -> exclusive st'.
Proof.
  unfold exclusive, holders, step. intros Hst.
  destruct (threads st !! i) as [p|] eqn:Hi; [|discriminate].
  pose proof (fun new => count_insert holds_mutex _ _ _ new Hi) as E.
  destruct p.
  - destruct (connectMutex st); [discriminate|]. intros [= <-]. simpl.
    specialize (E c_check). simpl in E. lia.
  - destruct (connecting (backend st)); intros [= <-]; simpl.
    + specialize (E c_unlock). simpl in E. rewrite <- Hst. lia.
    + specialize (E c_go). simpl in E. rewrite <- Hst. lia.
  - intros [= <-]. simpl. rewrite count_app.
    change (count holds_mutex [g_lock]) with 0%nat.
    specialize (E c_unlock). simpl in E. rewrite <- Hst. lia.
  - intros [= <-]. simpl. specialize (E c_returned). simpl in E.
    destruct (connectMutex st); lia.
  - discriminate.
  - destruct (connectMutex st); [discriminate|]. intros [= <-]. simpl.
    specialize (E g_unlock). simpl in E. lia.
  - intros [= <-]. simpl. specialize (E g_finished). simpl in E.
    destruct (connectMutex st); lia.
  - discriminate.
Qed.

Lemma run_exclusive (schedule : list nat) (st st' : State) :
  exclusive st -> run schedule st = Some st' -> exclusive st'.
Proof.
  revert st. induction schedule as [|i rest IH]; intros st Hst; simpl.
  - intros [= <-]. exact Hst.
  - destruct (step i st) as [st1|] eqn:E; [|discriminate]. simpl.
    apply IH. eapply step_exclusive; eauto.
Qed.

Lemma count_positive (f : pc -> bool) (l : list pc) :
  (0 < count f l)%nat -> exists i p, l !! i = Some p /\ f p = true.
Proof.
  induction l as [|p l IH]; [unfold count; simpl; lia|]. rewrite count_cons.
  destruct (f p) eqn:E.
  - intros _. exists 0%nat, p. auto.
  - simpl. intros H. destruct (IH H) as (i & q & Hi & Hq).
    exists (S i), q. auto.
Qed.

Lemma count_zero (f : pc -> bool) (l : list pc) (i : nat) (p : pc) :
  count f l = 0%nat -> l !! i = Some p -> f p = false.
Proof.
  revert i. induction l as [|q l IH]; intros [|i]; try discriminate;
    rewrite count_cons.
  - intros H [= ->]. destruct (f p); [simpl in H; lia|reflexivity].
  - intros H Hi. apply (IH i); [lia|exact Hi].
Qed.

Lemma not_quiescent (l : list pc) :
  forallb over l = false -> exists i p, l !! i = Some p /\ over p = false.
Proof.
  induction l as [|p l IH]; [discriminate|]. simpl.
  destruct (over p) eqn:E.
  - simpl. intros H. destruct (IH H) as (i & q & Hi & Hq). exists (S i), q. auto.
  - intros _. exists 0%nat, p. auto.
Qed.

(** X16. [connectMutex] does its work: however the calls of [Connect] and
    the goroutines they start are interleaved, the threads between a
    [Lock] and the [Unlock] after it are one when the mutex is held and
    none when it is free. *)
Theorem Connect_mutex_is_exclusive
    (b : Backend) (n : nat) (schedule : list nat) (st : State) :
  run schedule (init b n) = Some st ->
  holders st = if connectMutex st then 1%nat else 0%nat.
Proof. apply run_exclusive, init_exclusive. Qed.

Lemma Connect_mutex_is_exclusive_witness :
  exists st,
    run [0; 0; 0; 0; 2]%nat (init (Samples.backend_at "10.0.0.1:8080") 2)
    = Some st
    /\ connectMutex st = true
    /\ holders st = 1%nat.
Proof.
  eexists. split; [vm_compute; reflexivity|]. split; [reflexivity|].
  apply (Connect_mutex_is_exclusive (Samples.backend_at "10.0.0.1:8080") 2
           [0; 0; 0; 0; 2]%nat).
  vm_compute. reflexivity.
Defined.

(** X17. The calls never deadlock: in every state that an interleaving
    reaches, either every thread has run to its end or some thread can
    take a step. *)
Theorem Connect_never_deadlocks
    (b : Backend) (n : nat) (schedule : list nat) (st : State) :
  run schedule (init b n) = Some st ->
  quiescent st = false ->
  exists i st', step i st = Some st'.
Proof.
  intros Hrun Hq.
  pose proof (run_exclusive _ _ _ (init_exclusive b n) Hrun) as Hex.
  unfold exclusive, holders in Hex. unfold step.
  destruct (connectMutex st) eqn:Hm.
  - destruct (count_positive holds_mutex (threads st)) as (i & p & Hi & Hp);
      [lia|].
    exists i. rewrite Hi.
    destruct p; try discriminate; try (eexists; reflexivity).
    destruct (connecting (backend st)); eexists; reflexivity.
  - destruct (not_quiescent _ Hq) as (i & p & Hi & Hp).
    pose proof (count_zero _ _ _ _ Hex Hi) as Hh.
    exists i. rewrite Hi. rewrite ?Hm.
    destruct p; try discriminate; eexists; reflexivity.
Qed.

Lemma Connect_never_deadlocks_witness :
  exists i st',
    step i {| backend := Samples.backend_at "10.0.0.1:8080";
              connectMutex := false;
              threads := [c_returned; c_lock; g_lock];
              events := [EvGo (connect_body_of "10.0.0.1:8080")] |}
    = Some st'.
Proof.
  apply (Connect_never_deadlocks (Samples.backend_at "10.0.0.1:8080") 2
           [0; 0; 0; 0]%nat);
    [vm_compute; reflexivity|reflexivity].
Defined.

Lemma step_work (i : nat) (st st' : State) :
  step i st = Some st' -> (S (work st') <= work st)%nat.
Proof.
  unfold step, work.
  destruct (threads st !! i) as [p|] eqn:Hi; [|discriminate].
  pose proof (fun new => work_insert _ _ _ new Hi) as E.
  destruct p.
  - destruct (connectMutex st); [discriminate|]. intros [= <-]. simpl.
    specialize (E c_check). simpl in E. lia.
  - destruct (connecting (backend st)); intros [= <-]; simpl.
    + specialize (E c_unlock). simpl in E. lia.
    + specialize (E c_go). simpl in E. lia.
  - intros [= <-]. simpl. rewrite fmap_app, sum_list_with_app. simpl.
    specialize (E c_unlock). simpl in E. lia.
  - intros [= <-]. simpl. specialize (E c_returned). simpl in E. lia.
  - discriminate.
  - destruct (connectMutex st); [discriminate|]. intros [= <-]. simpl.
    specialize (E g_unlock). simpl in E. lia.
  - intros [= <-]. simpl. specialize (E g_finished). simpl in E. lia.
  - discriminate.
Qed.

Lemma run_work (schedule : list nat) (st st' : State) :
  run schedule st = Some st' -> (length schedule + work st' <= work st)%nat.
Proof.
  revert st. induction schedule as [|i rest IH]; intros st; simpl.
  - intros [= <-]. lia.
  - destruct (step i st) as [st1|] eqn:E; [|discriminate]. simpl.
    intros H. apply IH in H. apply step_work in E. lia.
Qed.

Lemma work_init (b : Backend) (n : nat) : work (init b n) = (6 * n)%nat.
Proof.
  unfold work, init, threads, fmap. induction n as [|n IH]; [reflexivity|].
  change (sum_list (list_fmap pc nat weight (replicate (S n) c_lock)))
    with (6 + sum_list (list_fmap pc nat weight (replicate n c_lock)))%nat.
  lia.
Qed.

(** X18. The calls come to an end: no interleaving of [n] calls of
    [Connect] and their goroutines is longer than [6 * n] steps. *)
Theorem Connect_runs_are_bounded
    (b : Backend) (n : nat) (schedule : list nat) (st : State) :
  run schedule (init b n) = Some st ->
  (length schedule <= 6 * n)%nat.
Proof.
  intros H. apply run_work in H. rewrite work_init in H. lia.
Qed.

Lemma Connect_runs_are_bounded_witness :
  exists st,
    run [0; 0; 0; 0; 1; 1; 1; 1; 3; 3; 2; 2]%nat
      (init (Samples.backend_at "10.0.0.1:8080") 2) = Some st
    /\ (length [0; 0; 0; 0; 1; 1; 1; 1; 3; 3; 2; 2]%nat <= 6 * 2)%nat.
Proof.
  eexists. split; [vm_compute; reflexivity|].
  eapply (Connect_runs_are_bounded (Samples.backend_at "10.0.0.1:8080") 2
            [0; 0; 0; 0; 1; 1; 1; 1; 3; 3; 2; 2]%nat).
  vm_compute. reflexivity.
Defined.

End ConnectMutex.

(** ** [Connect] on a backend that is connecting (pool.go) *)

Section ConnectEarly.
Import Runtime Connect ConnectProps.

Lemma forallb_lookup (f : pc -> bool) (l : list pc) (i : nat) (p : pc) :
  forallb f l = true -> l !! i = Some p -> f p = true.
Proof.
  revert i. induction l as [|q l IH]; intros [|i]; try discriminate; simpl;
    intros [Hq Hl]%andb_prop.
  - intros [= <-]. exact Hq.
  - apply IH, Hl.
Qed.

Lemma forallb_insert (f : pc -> bool) (l : list pc) (i : nat) (p : pc) :
  forallb f l = true -> f p = true -> forallb f (<[i := p]> l) = true.
Proof.
  revert i. induction l as [|q l IH]; intros i; [reflexivity|].
  simpl. intros [Hq Hl]%andb_prop Hp. destruct i as [|i]; simpl.
  - rewrite Hp. exact Hl.
  - rewrite Hq. apply IH; assumption.
Qed.

Lemma step_returns_early (i : nat) (st st' : State) :
  connecting (backend st) <> None ->
  events st = [] ->
  forallb returns_early (threads st) = true ->
  step i st = Some st' ->
  connecting (backend st') <> None
  /\ events st' = []
  /\ forallb returns_early (threads st') = true.
Proof.
  intros Hb He Hall. unfold step.
  destruct (threads st !! i) as [p|] eqn:Hi; [|discriminate].
  pose proof (forallb_lookup _ _ _ _ Hall Hi) as Hp.
  destruct p; try discriminate.
  - destruct (connectMutex st); [discriminate|]. intros [= <-]. simpl.
    repeat split; try assumption. apply forallb_insert; auto.
  - destruct (connecting (backend st)) eqn:Ec; [|contradiction].
    intros [= <-]. simpl. rewrite Ec.
    split; [discriminate|]. split; [assumption|]. apply forallb_insert; auto.
  - intros [= <-]. simpl.
    repeat split; try assumption. apply forallb_insert; auto.
Qed.

(** X19. On a backend that has a connection in progress [Connect] is a
    no-op: however the calls are interleaved, none starts a goroutine and
    none dials. *)
Theorem Connect_is_a_no_op_when_connecting
    (b : Backend) (n : nat) (schedule : list nat) (st : State) :
  connecting b <> None ->
  run schedule (init b n) = Some st ->
  events st = [] /\ spawned st = 0%nat /\ dials st = 0%nat.
Proof.
  intros Hb Hrun.
  assert (connecting (backend st) <> None /\ events st = []
          /\ forallb returns_early (threads st) = true) as (_ & He & Hall).
  { revert Hrun.
    assert (connecting (backend (init b n)) <> None
            /\ events (init b n) = []
            /\ forallb returns_early (threads (init b n)) = true) as Hinit.
    { split; [exact Hb|]. split; [reflexivity|]. simpl.
      clear. induction n as [|n IH]; [reflexivity|exact IH]. }
    revert Hinit. generalize (init b n).
    induction schedule as [|i rest IH]; intros st0 Hst0; simpl.
    - intros [= <-]. exact Hst0.
    - destruct (step i st0) as [st1|] eqn:E; [|discriminate]. simpl.
      apply IH. destruct Hst0 as (H1 & H2 & H3).
      exact (step_returns_early _ _ _ H1 H2 H3 E). }
  split; [exact He|]. unfold spawned, dials. rewrite He.
  split; reflexivity.
Qed.

Lemma Connect_is_a_no_op_when_connecting_witness :
  exists st,
    run [0; 0; 0; 1; 1; 1]%nat
      (init {| Ipport := "10.0.0.1:8080";
               connecting := Some {| BConn := Some 1%nat; BClient := None |};
               outstanding := 0; generation := 1 |} 2)
    = Some st
    /\ quiescent st = true
    /\ events st = [] /\ spawned st = 0%nat /\ dials st = 0%nat.
Proof.
  eexists. split; [vm_compute; reflexivity|]. split; [reflexivity|].
  eapply (Connect_is_a_no_op_when_connecting
            {| Ipport := "10.0.0.1:8080";
               connecting := Some {| BConn := Some 1%nat; BClient := None |};
               outstanding := 0; generation := 1 |} 2
            [0; 0; 0; 1; 1; 1]%nat);
    [discriminate|vm_compute; reflexivity].
Defined.

End ConnectEarly.

(** ** Connections and listeners, from creation to [Close] *)

Section Lifecycle.
Import Runtime Props.

Lemma max_bounds (l : list nat) (k : nat) :
  k ∈ l -> (k <= foldr Nat.max 0 l)%nat.
Proof.
  induction l as [|x l IH]; [intros []%elem_of_nil|].
  intros [->|H]%elem_of_cons; simpl; [lia|]. specialize (IH H). lia.
Qed.

Lemma fresh_unused {V} (m : gmap nat V) : m !! fresh m = None.
Proof.
  apply not_elem_of_dom. intros H. apply elem_of_elements in H.
  apply max_bounds in H. unfold fresh in H. lia.
Qed.

Lemma fresh_other {V} (m : gmap nat V) (k : nat) (v : V) :
  m !! k = Some v -> k <> fresh m.
Proof. intros H ->. rewrite fresh_unused in H. discriminate. Qed.

Ltac lookups :=
  repeat first [ rewrite lookup_insert_eq | rewrite fresh_unused ].

Ltac run_on :=
  repeat first [ progress run_m | progress world_simpl | progress lookups
               | progress change (String.eqb "" "") with true
               | progress cbn beta iota ].

(** X20. A connection dialled with [MakeTcpConnection] and closed twice:
    the dial is recorded; when it succeeds the connection sits at an
    address that was free, none of the existing connections is touched, the
    first [Close] returns nil having called [Close] on the new socket once
    and written nothing to it, and the second returns the already-closed
    error and changes nothing. When the dial fails, its error is returned
    and nothing but the record of the dial is left behind. *)
Theorem MakeTcpConnection_then_Close (w : World) (ipport : string) :
  (dial_error w ipport = None ->
   exists c sock w1 w2,
     TcpConnection.MakeTcpConnection ipport w = Returns (Some c, None) w1
     /\ tcp_conns w !! c = None
     /\ sockets w !! sock = None
     /\ tcp_conns w1 = <[c := {| Conn := sock; BWriter := ""; alive := true |}]>
                         (tcp_conns w)
     /\ trace w1 = (trace w ++ [EvDial ipport])%list
     /\ TcpConnection.Close (Some c) w1 = Returns None w2
     /\ closes sock w2 = 1%nat
     /\ delivered sock w2 = ""
     /\ TcpConnection.Close (Some c) w2
        = Returns (Some "TcpConnection already closed") w2)
  /\ (forall e, dial_error w ipport = Some e ->
        TcpConnection.MakeTcpConnection ipport w
        = Returns (None, Some e)
            (set_trace (fun t => (t ++ [EvDial ipport])%list) w)).
Proof.
  split.
  - intros Hd. unfold TcpConnection.MakeTcpConnection, new_socket,
      TcpConnection.WrapTcpConnection.
    run_m. rewrite Hd. world_simpl.
    exists (fresh (tcp_conns w)), (fresh (sockets w)). eexists _, _.
    split; [reflexivity|]. world_simpl.
    split; [apply fresh_unused|]. split; [apply fresh_unused|].
    split; [reflexivity|]. split; [reflexivity|].
    split.
    { unfold TcpConnection.Close, TcpConnection.Flush, socket_Close.
      run_on. reflexivity. }
    unfold closes, delivered. run_on.
    split; [reflexivity|]. split; [reflexivity|].
    unfold TcpConnection.Close. run_on. reflexivity.
  - intros e Hd. unfold TcpConnection.MakeTcpConnection. run_m.
    rewrite Hd. reflexivity.
Qed.

Lemma MakeTcpConnection_then_Close_witness :
  exists c sock w1 w2,
    TcpConnection.MakeTcpConnection "10.0.0.1:8080" Samples.bare
    = Returns (Some c, None) w1
    /\ tcp_conns Samples.bare !! c = None
    /\ sockets Samples.bare !! sock = None
    /\ tcp_conns w1
       = <[c := {| Conn := sock; BWriter := ""; alive := true |}]>
           (tcp_conns Samples.bare)
    /\ trace w1 = (trace Samples.bare ++ [EvDial "10.0.0.1:8080"])%list
    /\ TcpConnection.Close (Some c) w1 = Returns None w2
    /\ closes sock w2 = 1%nat
    /\ delivered sock w2 = ""
    /\ TcpConnection.Close (Some c) w2
       = Returns (Some "TcpConnection already closed") w2.
Proof.
  apply (proj1 (MakeTcpConnection_then_Close Samples.bare "10.0.0.1:8080")).
  reflexivity.
Defined.

(** X21. A listener made by [ListenTcp] and closed twice: the accept loop
    is started on it, and [Close] has no guard: both calls return nil, and
    both call [Close] on the socket, whose error the second time is
    dropped. *)
Theorem ListenTcp_then_Close
    (w : World) (ipport : string) (acceptor : AcceptorFunc) :
  listen_error w ipport = None ->
  exists l sock w1 w2 w3,
    TcpListener.ListenTcp ipport acceptor w = Returns (Some l, None) w1
    /\ listeners w !! l = None
    /\ listeners w1
       = <[l := {| lalive := true; lipport := ipport; lsocket := Some sock |}]>
           (listeners w)
    /\ EvGo (acceptLoop_of l acceptor) ∈ trace w1
    /\ TcpListener.Close (Some l) w1 = Returns None w2
    /\ closes sock w2 = 1%nat
    /\ TcpListener.Close (Some l) w2 = Returns None w3
    /\ closes sock w3 = 2%nat
    /\ listeners w3
       = <[l := {| lalive := false; lipport := ipport; lsocket := Some sock |}]>
           (listeners w).
Proof.
  intros Hl. unfold TcpListener.ListenTcp, new_socket. run_m. rewrite Hl.
  world_simpl.
  exists (fresh (listeners w)), (fresh (sockets w)). eexists _, _, _.
  split; [reflexivity|]. world_simpl.
  split; [apply fresh_unused|]. split; [reflexivity|].
  split.
  { apply elem_of_app. right. apply list_elem_of_singleton. reflexivity. }
  split.
  { unfold TcpListener.Close, socket_Close. run_on. simpl. run_on.
    reflexivity. }
  split; [unfold closes; run_on; reflexivity|].
  split.
  { unfold TcpListener.Close, socket_Close. run_on. simpl. run_on.
    reflexivity. }
  split; [unfold closes; run_on; reflexivity|].
  world_simpl. rewrite !insert_insert_eq. reflexivity.
Qed.

Lemma ListenTcp_then_Close_witness :
  exists l sock w1 w2 w3,
    TcpListener.ListenTcp "127.0.0.1:8080" (AcceptOf "web") Samples.bare
    = Returns (Some l, None) w1
    /\ listeners Samples.bare !! l = None
    /\ listeners w1
       = <[l := {| lalive := true; lipport := "127.0.0.1:8080";
                   lsocket := Some sock |}]> (listeners Samples.bare)
    /\ EvGo (acceptLoop_of l (AcceptOf "web")) ∈ trace w1
    /\ TcpListener.Close (Some l) w1 = Returns None w2
    /\ closes sock w2 = 1%nat
    /\ TcpListener.Close (Some l) w2 = Returns None w3
    /\ closes sock w3 = 2%nat
    /\ listeners w3
       = <[l := {| lalive := false; lipport := "127.0.0.1:8080";
                   lsocket := Some sock |}]> (listeners Samples.bare).
Proof.
  apply (ListenTcp_then_Close Samples.bare "127.0.0.1:8080" (AcceptOf "web")).
  reflexivity.
Defined.

(** X22. [MakeHttpBackend] dials once and drops what it gets. It always
    returns, with the error of the dial; the dial is the one thing it adds
    to the trace; no pool and no service changes, so no backend gets to
    hold the connection; and after a dial that succeeded a live connection
    that was not there before is left over, its socket open. *)
Theorem MakeHttpBackend_drops_the_connection (be : Backend) (w : World) :
  exists w1,
    HttpBackend.MakeHttpBackend be w = Returns (dial_error w (Ipport be)) w1
    /\ trace w1 = (trace w ++ [EvDial (Ipport be)])%list
    /\ pools w1 = pools w
    /\ services w1 = services w
    /\ (dial_error w (Ipport be) = None ->
        exists c conn,
          tcp_conns w !! c = None
          /\ tcp_conns w1 !! c = Some conn
          /\ alive conn = true
          /\ sockets w !! Conn conn = None
          /\ is_Some (sockets w1 !! Conn conn)
          /\ closes (Conn conn) w1 = 0%nat).
Proof.
  unfold HttpBackend.MakeHttpBackend, TcpConnection.MakeTcpConnection,
    new_socket, TcpConnection.WrapTcpConnection, closes.
  run_m. destruct (dial_error w (Ipport be)) as [e|] eqn:Hd; world_simpl.
  - eexists. split; [reflexivity|]. world_simpl.
    repeat split. discriminate.
  - eexists. split; [reflexivity|]. world_simpl.
    split; [reflexivity|]. split; [reflexivity|]. split; [reflexivity|].
    intros _. exists (fresh (tcp_conns w)). eexists.
    split; [apply fresh_unused|]. lookups. split; [reflexivity|].
    world_simpl. split; [reflexivity|]. split; [apply fresh_unused|].
    lookups. world_simpl. split; [eauto|reflexivity].
Qed.

End Lifecycle.

(** ** Sessions and backend connections (spdy.go, http_backend.go) *)

Section Sessions.
Import Runtime Props.

(** X23. Closing a live SPDY session over a live connection, twice: the
    first call marks the session dead and closes the connection, the
    socket seeing one [Close]; the second returns the already-closed error
    of the session and touches nothing, the connection included. *)
Theorem SpdySession_Close_twice
    (w : World) (c : SpdySession.SpdySession) (a : nat)
    (conn : TcpConnection) (s : Socket) :
  SpdySession.salive c = true ->
  SpdySession.SConn c = Some a ->
  tcp_conns w !! a = Some conn ->
  alive conn = true ->
  sockets w !! Conn conn = Some s ->
  exists e1 c1 w1,
    SpdySession.Close c w = Returns (c1, e1) w1
    /\ SpdySession.salive c1 = false
    /\ SpdySession.SConn c1 = Some a
    /\ closes (Conn conn) w1 = S (closes (Conn conn) w)
    /\ SpdySession.Close c1 w1
       = Returns (c1, Some "SpdySession already closed") w1
    /\ TcpConnection.Close (Some a) w1
       = Returns (Some "TcpConnection already closed") w1.
Proof.
  intros Hal Hc Ha Hlive Hs. unfold SpdySession.Close at 1. rewrite Hal, Hc.
  cbn [negb]. unfold log at 1. run_m.
  match goal with
  | |- context [TcpConnection.Close (Some a) ?w0] =>
      destruct (Close_alive w0 a conn s Ha Hlive Hs)
        as (e1 & w1 & conn1 & H1 & Hc1 & Ha1 & Hcl & _ & _)
  end.
  rewrite H1. eexists _, _, _. split; [reflexivity|].
  split; [reflexivity|]. split; [reflexivity|].
  split; [exact Hcl|].
  split; [reflexivity|]. exact (Close_dead w1 a conn1 Hc1 Ha1).
Qed.

Lemma SpdySession_Close_twice_witness :
  exists e1 c1 w1,
    SpdySession.Close (SpdySession.WrapSpdySession (Some 1%nat)).1
      (Samples.connected "" None)
    = Returns (c1, e1) w1
    /\ SpdySession.salive c1 = false
    /\ SpdySession.SConn c1 = Some 1%nat
    /\ closes (Conn {| Conn := 1; BWriter := ""; alive := true |}) w1
       = S (closes (Conn {| Conn := 1; BWriter := ""; alive := true |})
              (Samples.connected "" None))
    /\ SpdySession.Close c1 w1
       = Returns (c1, Some "SpdySession already closed") w1
    /\ TcpConnection.Close (Some 1%nat) w1
       = Returns (Some "TcpConnection already closed") w1.
Proof.
  apply (SpdySession_Close_twice (Samples.connected "" None)
           (SpdySession.WrapSpdySession (Some 1%nat)).1 1
           {| Conn := 1; BWriter := ""; alive := true |}
           {| sock_addr := "10.1.1.1:40000"; sock_closes := 0;
              sock_delivered := ""; sock_write_error := None |});
    reflexivity.
Defined.

(** X24. [Close] of a backend connection stops at the first error: when
    closing its client fails, the error is returned and the connection to
    the backend is left as it was, open. *)
Theorem HttpBackendConnection_Close_stops_at_the_first_error
    (w : World) (clients : gmap nat HttpConnection)
    (h : HttpBackendConnection) (a : nat) (client : HttpConnection)
    (s : Socket) :
  BClient h = Some a ->
  clients !! a = Some client ->
  sockets w !! hconn client = Some s ->
  sock_closes s <> 0%nat ->
  exists w1,
    HttpBackendConnection.Close clients h w
    = Returns (Some closed_socket_error) w1
    /\ tcp_conns w1 = tcp_conns w
    /\ trace w1 = trace w
    /\ forall sock, sock <> hconn client -> sockets w1 !! sock = sockets w !! sock.
Proof.
  intros Hb Ha Hs Hc. unfold HttpBackendConnection.Close. rewrite Hb, Ha.
  unfold HttpConnection.Close, socket_Close. run_m. rewrite Hs.
  destruct (sock_closes s) as [|n]; [contradiction|]. world_simpl.
  eexists. split; [reflexivity|]. world_simpl.
  split; [reflexivity|]. split; [reflexivity|].
  intros sock Hne. apply lookup_insert_ne. congruence.
Qed.

End Sessions.

Section MoreExamples.
Import Runtime Props MoreProps.

Lemma HttpBackendConnection_Close_stops_at_the_first_error_witness :
  exists w1,
    HttpBackendConnection.Close {[ 7%nat := Samples.http_conn "" ]}
      MoreSamples.backend_conn MoreSamples.hung_up
    = Returns (Some closed_socket_error) w1
    /\ tcp_conns w1 = tcp_conns MoreSamples.hung_up
    /\ trace w1 = trace MoreSamples.hung_up
    /\ forall sock, sock <> hconn (Samples.http_conn "") ->
         sockets w1 !! sock = sockets MoreSamples.hung_up !! sock.
Proof.
  apply (HttpBackendConnection_Close_stops_at_the_first_error
           MoreSamples.hung_up {[ 7%nat := Samples.http_conn "" ]}
           MoreSamples.backend_conn 7 (Samples.http_conn "")
           {| sock_addr := "10.1.1.1:40000"; sock_closes := 1;
              sock_delivered := ""; sock_write_error := None |});
    [reflexivity|reflexivity|vm_compute; reflexivity|discriminate].
Defined.


End MoreExamples.

(** ** What every reachable world satisfies *)

Section SoundServices.
Import Runtime Invariants WellFormed.

Lemma services_sound_services_only : services_only services_sound.
Proof. intros w w' E H s sv. rewrite <- E. apply H. Qed.

#[local] Hint Resolve services_sound_services_only : frames.

Lemma sound_deref (s : string) (Q : Service -> Prop) :
  (forall sv, sound_service s sv -> Q sv) ->
  keeps services_sound (Service.deref s) Q.
Proof.
  intros HQ. unfold Service.deref. repeat keeps_step. apply HQ. eauto.
Qed.

Lemma sound_store (s : string) (sv : Service) (Q : unit -> Prop) :
  sound_service s sv -> Q tt -> keeps services_sound (Service.store s sv) Q.
Proof.
  intros Hsv HQ. unfold Service.store. apply keeps_modify; [|exact HQ].
  intros w Hw s' sv'. simpl. rewrite lookup_insert.
  case_decide; [intros [= <-]; subst; exact Hsv|apply Hw].
Qed.

Ltac sound_update :=
  match goal with
  | H : sound_service _ _ |- sound_service _ _ =>
      let Hn := fresh in
      let Hl := fresh in
      destruct H as [Hn Hl]; split; [exact Hn|];
      let k := fresh "k" in
      intros k; simpl;
      rewrite ?lookup_insert, ?lookup_delete;
      repeat case_decide; try discriminate; try apply Hl
  end.

Ltac sound_step :=
  first [ keeps_step | keeps_ambient
        | apply sound_deref; intros ? ?
        | apply sound_store; [solve [sound_update]|] ].

Lemma sound_NewService (name : string) :
  keeps services_sound (Service.NewService name) (fun _ => True).
Proof.
  unfold Service.NewService. repeat sound_step; try exact I.
  apply sound_store.
  - split; [reflexivity|]. intros k. simpl. rewrite lookup_empty. discriminate.
  - repeat sound_step. exact I.
Qed.

Lemma sound_serveFile (s : string) (req : ServiceRequest) :
  keeps services_sound (Service.serveFile s req) (fun _ => True).
Proof. unfold Service.serveFile. repeat sound_step; exact I. Qed.

Lemma sound_requestPump_round (s : string) :
  keeps services_sound (Service.requestPump_round s) (fun _ => True).
Proof.
  unfold Service.requestPump_round, Pool.GetBackend.
  repeat first [ apply keeps_chan_op; intros ? _ | sound_step ]; exact I.
Qed.

Lemma sound_HandleRequest (s : string) (conn : nat) (req : Request)
    (rchan : nat) :
  keeps services_sound (Service.HandleRequest s conn req rchan) (fun _ => True).
Proof.
  unfold Service.HandleRequest.
  repeat first [ apply keeps_chan_op; intros ? _ | sound_step ]; exact I.
Qed.

Lemma sound_Enable_loop (s : string)
    (entries : list (string * option ServiceListener)) (Q : unit -> Prop) :
  Q tt -> keeps services_sound (Service.Enable_loop s entries) Q.
Proof.
  intros HQ. induction entries as [|[ipport lstnr] rest IH]; simpl.
  - keeps_step. exact HQ.
  - repeat sound_step; exact IH.
Qed.

Lemma sound_Enable (s : string) (Q : error -> Prop) :
  (forall r, Q r) -> keeps services_sound (Service.Enable s) Q.
Proof.
  intros HQ. unfold Service.Enable.
  repeat first [ apply sound_Enable_loop | sound_step ]. apply HQ.
Qed.

Lemma sound_setListen_close (s : string)
    (entries : list (string * option ServiceListener)) (Q : unit -> Prop) :
  Q tt -> keeps services_sound (Service.setListen_close s entries) Q.
Proof.
  intros HQ. induction entries as [|[ipport lstnr] rest IH]; simpl.
  - keeps_step. exact HQ.
  - repeat sound_step; exact IH.
Qed.

Lemma sound_setListen_create (s : string) (ipports : list string)
    (acc : AcceptorFunc) (Q : unit -> Prop) :
  Q tt -> keeps services_sound (Service.setListen_create s ipports acc) Q.
Proof.
  intros HQ. induction ipports as [|ipport rest IH]; simpl.
  - keeps_step. exact HQ.
  - repeat sound_step; exact IH.
Qed.

Lemma sound_setListen (s value : string) (acc : AcceptorFunc) :
  keeps services_sound (Service.setListen s value acc) (fun _ => True).
Proof.
  unfold Service.setListen.
  repeat first [ apply sound_setListen_close | apply sound_setListen_create
               | apply sound_Enable; intros ? | sound_step ]; exact I.
Qed.

Lemma sound_Service_Set (s key value : string) :
  keeps services_sound (Service.Set_ s key value) (fun _ => True).
Proof.
  unfold Service.Set_.
  repeat first [ apply sound_setListen | sound_step ]; exact I.
Qed.

Lemma perform_services_sound (c : Control.Call) (w : World) :
  services_sound w -> services_sound (Control.perform c w).
Proof.
  intros Hw.
  destruct c as [name|name|s key value|s|p key value|p|s conn req ch|s|s req
                |p|p mtime]; simpl.
  - apply (sound_NewService name); auto.
  - apply (keeps_NewPool _ services_sound_services_only name (fun _ => True));
      auto.
  - apply (sound_Service_Set s key value); auto.
  - apply (sound_Enable s (fun _ => True)); auto.
  - apply (keeps_Pool_Set _ services_sound_services_only p key value
             (fun _ => True)); auto.
  - exact Hw.
  - apply (sound_HandleRequest s conn req ch); auto.
  - apply (sound_requestPump_round s); auto.
  - apply (sound_serveFile s req); auto.
  - apply (keeps_worker_start _ services_sound_services_only p (fun _ => True));
      auto.
  - apply (keeps_worker_round _ services_sound_services_only p mtime
             (fun _ => True)); auto.
Qed.

(** X25. In every world the process can reach, each registered service
    carries the name it is registered under, and no value of its
    [Listeners] map is nil: every entry holds a [ServiceListener]. *)
Theorem reachable_services_are_sound
    (fs : gmap string File) (le de : string -> error)
    (calls : list Control.Call) (s : string) (sv : Service) :
  services (Control.history calls (boot fs le de)) !! s = Some sv ->
  SName sv = s /\ forall k, Listeners sv !! k <> Some None.
Proof.
  assert (forall w, services_sound w ->
                    services_sound (Control.history calls w)) as H.
  { induction calls as [|c calls IH]; intros w Hw; simpl; [exact Hw|].
    apply IH, perform_services_sound, Hw. }
  apply H. intros s' sv'. simpl. rewrite lookup_empty. discriminate.
Qed.

Lemma reachable_services_are_sound_witness :
  SName MoreSamples.unbound_web = "web"
  /\ forall k, Listeners MoreSamples.unbound_web !! k <> Some None.
Proof.
  apply (reachable_services_are_sound ∅ MoreSamples.busy_port Samples.no_error
           [Control.CreateService "web";
            Control.ServiceSet "web" "listen" "127.0.0.1:8080, 10.0.0.1:80"]
           "web" MoreSamples.unbound_web).
  vm_compute. reflexivity.
Defined.

End SoundServices.

Section SoundPools.
Import Runtime Invariants WellFormed.

Lemma pools_sound_pools_only : pools_only pools_sound.
Proof. intros w w' E H p pl. rewrite <- E. apply H. Qed.

#[local] Hint Resolve pools_sound_pools_only : frames.

Lemma sound_Pool_deref (p : string) (Q : Pool -> Prop) :
  (forall pl, sound_pool p pl -> Q pl) ->
  keeps pools_sound (Pool.deref p) Q.
Proof.
  intros HQ. unfold Pool.deref. repeat keeps_step. apply HQ. eauto.
Qed.

Lemma sound_Pool_store (p : string) (pl : Pool) (Q : unit -> Prop) :
  sound_pool p pl -> Q tt -> keeps pools_sound (Pool.store p pl) Q.
Proof.
  intros Hpl HQ. unfold Pool.store. apply keeps_modify; [|exact HQ].
  intros w Hw p' pl'. simpl. rewrite lookup_insert.
  case_decide; [intros [= <-]; subst; exact Hpl|apply Hw].
Qed.

Lemma refresh_idle (line : string) (bs bs' : list Backend) :
  Pool.refresh 1 line bs = Some bs' -> Forall idle bs -> Forall idle bs'.
Proof.
  revert bs'. induction bs as [|b bs IH]; intros bs'; simpl; [discriminate|].
  destruct (String.eqb (Ipport b) line).
  - intros [= <-] [(Hc & Ho & _) Hbs]%Forall_cons. apply Forall_cons.
    split; [|exact Hbs]. repeat split; assumption.
  - destruct (Pool.refresh 1 line bs) as [r|]; [|discriminate].
    intros [= <-] [Hb Hbs]%Forall_cons. apply Forall_cons. auto.
Qed.

Lemma reconcile_line_sound (p raw : string) (pl : Pool) :
  sound_pool p pl -> sound_pool p (Pool.reconcile_line 1 raw pl).
Proof.
  intros (Hn & Hg & Hq & Hnd & Hidle). unfold Pool.reconcile_line.
  destruct (Pool.parse_line raw) as [line|]; [|repeat split; assumption].
  destruct (Pool.refresh 1 line (backends pl)) as [bs|] eqn:E.
  - repeat split; try assumption; simpl.
    + rewrite (refresh_addresses _ _ _ _ E). exact Hnd.
    + exact (refresh_idle _ _ _ E Hidle).
  - repeat split; try assumption; simpl.
    + rewrite fmap_app. apply NoDup_app. split; [exact Hnd|]. split.
      * intros a Ha [->|[]%elem_of_nil]%elem_of_cons.
        exact (refresh_missing _ _ _ E Ha).
      * apply NoDup_singleton.
    + apply Forall_app. split; [exact Hidle|].
      apply Forall_singleton. repeat split.
Qed.

Lemma sound_LINE (p : string) (reads : list (string * ioerr))
    (Q : unit -> Prop) :
  Q tt -> keeps pools_sound (Pool.LINE p 1 reads) Q.
Proof.
  intros HQ. induction reads as [|[line err] rest IH]; simpl.
  - keeps_step. exact HQ.
  - destruct err.
    + keeps_step. apply sound_Pool_deref. intros pl Hpl. keeps_step.
      apply sound_Pool_store; [apply reconcile_line_sound, Hpl|exact IH].
    + keeps_step. apply sound_Pool_deref. intros pl Hpl.
      apply sound_Pool_store; [apply reconcile_line_sound, Hpl|exact HQ].
    + keeps_ambient. exact HQ.
Qed.

Lemma sound_worker_round (p : string) (mtime : Z) :
  keeps pools_sound (Pool.worker_round p mtime) (fun _ => True).
Proof.
  unfold Pool.worker_round. keeps_step. apply sound_Pool_deref.
  intros pl (Hn & Hg & Hrest). rewrite Hg.
  change (int_add 0 1) with 1%Z.
  repeat first [ keeps_step | keeps_ambient | apply sound_LINE ]; exact I.
Qed.

Lemma sound_worker_start (p : string) :
  keeps pools_sound (Pool.worker_start p) (fun _ => True).
Proof.
  unfold Pool.worker_start. keeps_step. apply sound_Pool_deref. intros pl Hpl.
  destruct (nodeFileLock pl); [apply keeps_wait|].
  keeps_step. apply sound_Pool_store; [exact Hpl|keeps_step; exact I].
Qed.

Lemma sound_updateNodeFile (p nodefile : string) :
  keeps pools_sound (Pool.updateNodeFile p nodefile) (fun _ => True).
Proof.
  unfold Pool.updateNodeFile. keeps_step. keeps_step.
  destruct (files _ !! _) as [f|]; [|keeps_step; exact I].
  destruct (file_is_dir f); [keeps_step; exact I|].
  keeps_step. apply sound_Pool_deref. intros pl Hpl.
  destruct (nodeFileLock pl); [apply keeps_wait|].
  keeps_step. apply sound_Pool_store; [exact Hpl|keeps_step; exact I].
Qed.

Lemma sound_Pool_Set (p key value : string) :
  keeps pools_sound (Pool.Set_ p key value) (fun _ => True).
Proof.
  unfold Pool.Set_. destruct (String.eqb key "nodefile").
  - apply sound_updateNodeFile.
  - keeps_step. apply sound_Pool_deref. intros pl _.
    repeat first [ keeps_step | keeps_ambient ]; exact I.
Qed.

Lemma sound_NewPool (name : string) :
  keeps pools_sound (Pool.NewPool name) (fun _ => True).
Proof.
  unfold Pool.NewPool. keeps_step. keeps_step.
  destruct (pools _ !! name); [keeps_step; exact I|].
  keeps_step. apply sound_Pool_store.
  - repeat split; simpl; [apply NoDup_nil_2|apply Forall_nil_2].
  - repeat first [ keeps_step | keeps_ambient ]; exact I.
Qed.

Lemma perform_pools_sound (c : Control.Call) (w : World) :
  pools_sound w -> pools_sound (Control.perform c w).
Proof.
  intros Hw.
  destruct c as [name|name|s key value|s|p key value|p|s conn req ch|s|s req
                |p|p mtime]; simpl.
  - apply (frame_NewService _ pools_sound_pools_only name (fun _ => True)); auto.
  - apply (sound_NewPool name); auto.
  - apply (frame_Service_Set _ pools_sound_pools_only s key value
             (fun _ => True)); auto.
  - apply (frame_Enable _ pools_sound_pools_only s (fun _ => True)); auto.
  - apply (sound_Pool_Set p key value); auto.
  - exact Hw.
  - apply (frame_HandleRequest _ pools_sound_pools_only s conn req ch
             (fun _ => True)); auto.
  - apply (frame_requestPump_round _ pools_sound_pools_only s (fun _ => True));
      auto.
  - apply (frame_serveFile _ pools_sound_pools_only s req (fun _ => True)); auto.
  - apply (sound_worker_start p); auto.
  - apply (sound_worker_round p mtime); auto.
Qed.

(** X26. What the pool code never does. In every world the process can
    reach, each registered pool carries the name it is registered under and
    still has generation 0; its backend queue is as [NewPool] made it,
    with capacity 1000 and empty; no address is listed twice; and every
    backend has generation 1, no connection in progress and nothing
    outstanding. *)
Theorem reachable_pools_are_sound
    (fs : gmap string File) (le de : string -> error)
    (calls : list Control.Call) (p : string) (pl : Pool) :
  pools (Control.history calls (boot fs le de)) !! p = Some pl ->
  PName pl = p
  /\ pgeneration pl = 0%Z
  /\ backendQueue pl = Some {| chan_cap := 1000; chan_buf := [] |}
  /\ NoDup (Props.addresses pl)
  /\ Forall idle (backends pl).
Proof.
  assert (forall w, pools_sound w -> pools_sound (Control.history calls w)) as H.
  { induction calls as [|c calls IH]; intros w Hw; simpl; [exact Hw|].
    apply IH, perform_pools_sound, Hw. }
  apply H. intros p' pl'. simpl. rewrite lookup_empty. discriminate.
Qed.

Lemma reachable_pools_are_sound_witness :
  PName MoreSamples.reloaded = "p"
  /\ pgeneration MoreSamples.reloaded = 0%Z
  /\ backendQueue MoreSamples.reloaded
     = Some {| chan_cap := 1000; chan_buf := [] |}
  /\ NoDup (Props.addresses MoreSamples.reloaded)
  /\ Forall idle (backends MoreSamples.reloaded).
Proof.
  apply (reachable_pools_are_sound
           {[ "nodes" := Samples.regular 5
                           (Samples.lines ["10.0.0.1:8080"; "10.0.0.2:8080"]) ]}
           Samples.no_error Samples.no_error
           [Control.CreatePool "p"; Control.PoolSet "p" "nodefile" "nodes";
            Control.WorkerStart "p"; Control.WorkerRound "p" 0;
            Control.WorkerRound "p" 5]
           "p" MoreSamples.reloaded).
  vm_compute. reflexivity.
Defined.

End SoundPools.
